(** * Multi-user blogging platform: slug generation, post queries and mutations

    A shallow embedding of the query/filter layer, the result
    shape-transformer and the mutation handlers of the post and category
    routers, together with the storage constraints declared by the
    database schema, and the properties the specification states about
    them. *)

From Stdlib Require Import List String Ascii Bool Arith Lia Permutation Sorted.
Import ListNotations.
Open Scope string_scope.
Open Scope nat_scope.
Open Scope list_scope.

(* ===================================================================== *)
(** ** src/lib/utils.ts: text utilities *)
(* ===================================================================== *)

(** Strings are sequences of code units in the range U+0000..U+00FF
    (one [ascii] per code unit); [toLowerCase] and [trim] follow
    [String.prototype.toLowerCase] and [String.prototype.trim] on that
    range. *)
Module Utils.

Definition code (c : ascii) : nat := nat_of_ascii c.

Definition inRange (lo hi : nat) (c : ascii) : bool :=
  (lo <=? code c) && (code c <=? hi).

(** The character class [[a-z0-9]]. *)
Definition isLowerAlnum (c : ascii) : bool :=
  inRange 97 122 c || inRange 48 57 c.

(** The character class [[a-z0-9-]]. *)
Definition isSlugChar (c : ascii) : bool :=
  isLowerAlnum c || Ascii.eqb c "-".

(** Upper-case letters of the range: A-Z and U+00C0..U+00DE without the
    multiplication sign U+00D7; each maps to the code unit 32 above. *)
Definition hasLowerCase (c : ascii) : bool :=
  inRange 65 90 c || (inRange 192 222 c && negb (code c =? 215)).

Definition toLowerChar (c : ascii) : ascii :=
  if hasLowerCase c then ascii_of_nat (code c + 32) else c.

Fixpoint toLowerCase (s : string) : string :=
  match s with
  | EmptyString => EmptyString
  | String c s' => String (toLowerChar c) (toLowerCase s')
  end.

(** White space and line terminators removed by [trim]: TAB, LF, VT, FF,
    CR, SPACE and NBSP. *)
Definition isWhiteSpace (c : ascii) : bool :=
  inRange 9 13 c || (code c =? 32) || (code c =? 160).

Definition isEmpty (s : string) : bool :=
  match s with EmptyString => true | String _ _ => false end.

Fixpoint trimStart (s : string) : string :=
  match s with
  | EmptyString => EmptyString
  | String c s' => if isWhiteSpace c then trimStart s' else s
  end.

Fixpoint trimEnd (s : string) : string :=
  match s with
  | EmptyString => EmptyString
  | String c s' =>
      let r := trimEnd s' in
      if isWhiteSpace c && isEmpty r then EmptyString else String c r
  end.

Definition trim (s : string) : string := trimEnd (trimStart s).

(** [.replace(/[^a-z0-9]+/g, "-")]: scanning left to right, every maximal
    run of characters outside [[a-z0-9]] is replaced by one hyphen.  The
    flag tells whether the scan is inside such a run, whose hyphen has
    been emitted already. *)
Fixpoint replaceRuns (inRun : bool) (s : string) : string :=
  match s with
  | EmptyString => EmptyString
  | String c s' =>
      if isLowerAlnum c then String c (replaceRuns false s')
      else if inRun then replaceRuns true s'
      else String "-" (replaceRuns true s')
  end.

Definition replaceNonAlnum (s : string) : string := replaceRuns false s.

(** [.replace(/(^-|-$)/g, "")]: a hyphen at offset 0 is removed, and so is
    a hyphen that is the last character of the input. *)
Definition dropLeadingHyphen (s : string) : string :=
  match s with
  | String c s' => if Ascii.eqb c "-" then s' else s
  | EmptyString => EmptyString
  end.

Fixpoint dropTrailingHyphen (s : string) : string :=
  match s with
  | EmptyString => EmptyString
  | String c EmptyString => if Ascii.eqb c "-" then EmptyString else s
  | String c s' => String c (dropTrailingHyphen s')
  end.

Definition stripEdgeHyphens (s : string) : string :=
  dropTrailingHyphen (dropLeadingHyphen s).

(** Generate a URL-friendly slug from a string. *)
Definition generateSlug (text : string) : string :=
  stripEdgeHyphens (replaceNonAlnum (trim (toLowerCase text))).

Fixpoint allChars (p : ascii -> bool) (s : string) : bool :=
  match s with
  | EmptyString => true
  | String c s' => p c && allChars p s'
  end.

Fixpoint anyChar (p : ascii -> bool) (s : string) : bool :=
  match s with
  | EmptyString => false
  | String c s' => p c || anyChar p s'
  end.

Fixpoint lastChar (s : string) : option ascii :=
  match s with
  | EmptyString => None
  | String c EmptyString => Some c
  | String _ s' => lastChar s'
  end.

Definition firstChar (s : string) : option ascii :=
  match s with
  | EmptyString => None
  | String c _ => Some c
  end.

Definition isHyphen (o : option ascii) : bool :=
  match o with
  | Some c => Ascii.eqb c "-"
  | None => false
  end.

(** [s.startsWith("-")] and [s.endsWith("-")]. *)
Definition startsWithHyphen (s : string) : bool := isHyphen (firstChar s).
Definition endsWithHyphen (s : string) : bool := isHyphen (lastChar s).

(** [/^[a-z0-9-]+$/.test(s)]. *)
Definition slugRegex (s : string) : bool :=
  negb (isEmpty s) && allChars isSlugChar s.

Definition isValidSlug (slug : string) : bool :=
  slugRegex slug && negb (startsWithHyphen slug) && negb (endsWithHyphen slug).

(** *** Truncation *)



(** *** Post statistics *)

Definition hasChar (d : ascii) (s : string) : bool := anyChar (Ascii.eqb d) s.

(** [.replace(/<[^>]*>/g, "")]: a [<] opens a match when a [>] follows
    somewhere in the rest of the text, and the match runs to the first
    one; a [<] with no [>] after it stays.  The flag tells whether the
    scan is inside a match. *)
Fixpoint stripTags (inTag : bool) (s : string) : string :=
  match s with
  | EmptyString => EmptyString
  | String c s' =>
      if inTag then
        if Ascii.eqb c ">" then stripTags false s' else stripTags true s'
      else if Ascii.eqb c "<" && hasChar ">" s' then stripTags true s'
      else String c (stripTags false s')
  end.

(** What has to follow an [&] for [/&[^;]+;/] to match there: a character
    other than [;], and a [;] somewhere after it. *)
Definition startsEntity (s : string) : bool :=
  match s with
  | EmptyString => false
  | String d _ => negb (Ascii.eqb d ";") && hasChar ";" s
  end.

(** [.replace(/&[^;]+;/g, " ")]: the match runs from the [&] to the first
    [;] after it and is replaced by one space. *)
Fixpoint replaceEntities (inEntity : bool) (s : string) : string :=
  match s with
  | EmptyString => EmptyString
  | String c s' =>
      if inEntity then
        if Ascii.eqb c ";" then replaceEntities false s'
        else replaceEntities true s'
      else if Ascii.eqb c "&" && startsEntity s'
      then String " " (replaceEntities true s')
      else String c (replaceEntities false s')
  end.

Definition startsWithWhiteSpace (s : string) : bool :=
  match s with
  | EmptyString => false
  | String c _ => isWhiteSpace c
  end.

(** [s.split(/\s+/)]: the pieces between the maximal runs of white space,
    the empty pieces before a leading run and after a trailing run
    included; the empty string splits into one empty piece. *)
Fixpoint splitWhiteSpace (s : string) : list string :=
  match s with
  | EmptyString => [EmptyString]
  | String c s' =>
      if isWhiteSpace c then
        if startsWithWhiteSpace s' then splitWhiteSpace s'
        else EmptyString :: splitWhiteSpace s'
      else
        match splitWhiteSpace s' with
        | w :: ws => String c w :: ws
        | [] => [String c EmptyString]
        end
  end.

(** [Boolean] on a string. *)
Definition truthy (w : string) : bool := negb (isEmpty w).

Record PostStats := mkPostStats {
  wordCount : nat;
  readingTime : nat;
  characterCount : nat }.

(** Compute basic statistics for article content (strips HTML).
    [Math.ceil(wordCount / 225)] is the integer quotient rounded up. *)
Definition calculatePostStats (content : string) : PostStats :=
  let plainText := replaceEntities false (stripTags false content) in
  let words := filter truthy (splitWhiteSpace (trim plainText)) in
  let wordCount := List.length (filter truthy words) in
  let readingTime := Nat.max 1 ((wordCount + 224) / 225) in
  mkPostStats wordCount readingTime (String.length plainText).

(** *** E-mail addresses *)

(** The character class [[^\s@]]. *)
Definition isEmailChar (c : ascii) : bool :=
  negb (isWhiteSpace c) && negb (Ascii.eqb c "@").

(** [[^\s@]+$]. *)
Definition emailTail (s : string) : bool :=
  negb (isEmpty s) && allChars isEmailChar s.

(** [[^\s@]*\.[^\s@]+$]: the class repeats up to a dot after which the
    rest of the text matches. *)
Fixpoint emailDomainRest (s : string) : bool :=
  match s with
  | EmptyString => false
  | String c s' =>
      (Ascii.eqb c "." && emailTail s') || (isEmailChar c && emailDomainRest s')
  end.

(** [[^\s@]+\.[^\s@]+$]. *)
Definition emailDomain (s : string) : bool :=
  match s with
  | EmptyString => false
  | String c s' => isEmailChar c && emailDomainRest s'
  end.

(** [[^\s@]*@[^\s@]+\.[^\s@]+$]. *)
Fixpoint emailLocalRest (s : string) : bool :=
  match s with
  | EmptyString => false
  | String c s' =>
      (Ascii.eqb c "@" && emailDomain s') || (isEmailChar c && emailLocalRest s')
  end.

(** [/^[^\s@]+@[^\s@]+\.[^\s@]+$/.test(email)]. *)
Definition isValidEmail (email : string) : bool :=
  match email with
  | EmptyString => false
  | String c s' => isEmailChar c && emailLocalRest s'
  end.

(** *** Array utilities *)

Section Arrays.
Context {T : Type}.

(** [Set.prototype.add] on the insertion-ordered elements of a set, for
    an element type whose same-value-zero comparison is [eqb]. *)
Definition setAdd (eqb : T -> T -> bool) (s : list T) (x : T) : list T :=
  if existsb (eqb x) s then s else s ++ [x].

(** [Array.from(new Set(array))]. *)
Definition unique (eqb : T -> T -> bool) (array : list T) : list T :=
  fold_left (setAdd eqb) array [].

Inductive Direction := asc | desc.

(** The comparator of [sortBy] on numeric keys: negative, zero or
    positive. *)
Definition compareBy (key : T -> nat) (direction : Direction) (a b : T)
  : comparison :=
  if key a <? key b then
    match direction with asc => Lt | desc => Gt end
  else if key b <? key a then
    match direction with asc => Gt | desc => Lt end
  else Eq.

(** [Array.prototype.sort] is stable: an element goes before the first
    element the comparator puts it before or level with. *)
Fixpoint insertSorted (cmp : T -> T -> comparison) (a : T) (sorted : list T)
  : list T :=
  match sorted with
  | [] => [a]
  | x :: rest =>
      match cmp a x with
      | Gt => x :: insertSorted cmp a rest
      | _ => a :: sorted
      end
  end.

Definition sort (cmp : T -> T -> comparison) (array : list T) : list T :=
  fold_right (insertSorted cmp) [] array.

(** [[...array].sort(...)]: the argument is copied, not sorted in place. *)
Definition sortBy (array : list T) (key : T -> nat) (direction : Direction)
  : list T :=
  sort (compareBy key direction) array.

End Arrays.

End Utils.

(* ===================================================================== *)
(** ** The database schema and the storage engine's statements *)
(* ===================================================================== *)

(** Timestamps are milliseconds since the epoch. *)
Definition Timestamp := nat.

(** Rows of the [users] table. *)
Module User.
Record t := mk {
  id : nat;
  username : string;
  email : string;
  isActive : bool;
  emailVerified : bool;
  createdAt : Timestamp;
  updatedAt : Timestamp }.
End User.

(** Rows of the [posts] table. *)
Module Post.
Record t := mk {
  id : nat;
  title : string;
  content : option string;
  excerpt : option string;
  authorId : nat;
  slug : string;
  published : bool;
  featured : bool;
  viewCount : nat;
  readingTime : option nat;
  seoTitle : option string;
  seoDescription : option string;
  publishedAt : option Timestamp;
  createdAt : Timestamp;
  updatedAt : Timestamp }.
End Post.

(** Rows of the [categories] table. *)
Module Category.
Record t := mk {
  id : nat;
  name : string;
  description : option string;
  slug : string;
  parentId : option nat;
  color : option string;
  icon : option string;
  isActive : bool;
  sortOrder : nat;
  postCount : nat;
  createdAt : Timestamp;
  updatedAt : Timestamp }.
End Category.

(** Rows of the [post_categories] junction table. *)
Module PostCategory.
Record t := mk {
  id : nat;
  postId : nat;
  categoryId : nat;
  createdAt : Timestamp }.

(** The (post, category) pair a junction row stands for. *)
Definition pair (r : t) : nat * nat := (postId r, categoryId r).
End PostCategory.

Module Storage.

(** The tables the post and category routers read and write, and the last
    values issued by the sequences behind their [serial] keys.  The model
    advances a sequence when an insert succeeds. *)
Record DB := mkDB {
  users : list User.t;
  posts : list Post.t;
  categories : list Category.t;
  postCategories : list PostCategory.t;
  postsSeq : nat;
  categoriesSeq : nat;
  postCategoriesSeq : nat }.

(** Constraint failures a statement can raise, with their SQLSTATE. *)
Inductive PgError :=
  | string_data_right_truncation
  | check_violation
  | unique_violation
  | foreign_key_violation.

Definition sqlstate (e : PgError) : string :=
  match e with
  | string_data_right_truncation => "22001"
  | check_violation => "23514"
  | unique_violation => "23505"
  | foreign_key_violation => "23503"
  end.

Inductive Outcome (A : Type) :=
  | Done (a : A)
  | Raised (e : PgError).
Arguments Done {A} a.
Arguments Raised {A} e.

Definition pairEqb (a b : nat * nat) : bool :=
  (fst a =? fst b) && (snd a =? snd b).

Definition hasUser (db : DB) (i : nat) : bool :=
  existsb (fun u => User.id u =? i) (users db).
Definition hasPost (db : DB) (i : nat) : bool :=
  existsb (fun p => Post.id p =? i) (posts db).
Definition hasCategory (db : DB) (i : nat) : bool :=
  existsb (fun c => Category.id c =? i) (categories db).

(** The first constraint among [checks] that fails, in the order the
    engine evaluates them. *)
Fixpoint firstViolation (checks : list (bool * PgError)) : option PgError :=
  match checks with
  | [] => None
  | (true, _) :: rest => firstViolation rest
  | (false, e) :: _ => Some e
  end.

(** Column types, check constraints and the unique slug index of [posts],
    for a row whose title and slug a statement writes: [varchar(200)] and
    [varchar(250)], [title_min_length], [slug_min_length] and
    [posts_slug_idx] against the [others] rows of the table. *)
Definition postRowChecks (others : list Post.t) (p : Post.t)
  : list (bool * PgError) :=
  [ (String.length (Post.title p) <=? 200, string_data_right_truncation);
    (String.length (Post.slug p) <=? 250, string_data_right_truncation);
    (5 <=? String.length (Post.title p), check_violation);
    (3 <=? String.length (Post.slug p), check_violation);
    (negb (existsb (fun q => Post.id q =? Post.id p) others), unique_violation);
    (negb (existsb (fun q => String.eqb (Post.slug q) (Post.slug p)) others),
     unique_violation) ].

(** [INSERT INTO posts (title, content, slug, published, author_id)
    VALUES (...) RETURNING *]: the other columns take their defaults; the
    author foreign key [posts_author_fk] is checked last. *)
Definition insertPost (title : string) (content : option string)
    (slug : string) (published : bool) (authorId : nat)
    (now : Timestamp) (db : DB) : Outcome (Post.t * DB) :=
  let p := Post.mk (S (postsSeq db)) title content None authorId slug
             published false 0 (Some 1) None None None now now in
  match firstViolation
          (postRowChecks (posts db) p
           ++ [(hasUser db authorId, foreign_key_violation)]) with
  | Some e => Raised e
  | None =>
      Done (p, mkDB (users db) (posts db ++ [p]) (categories db)
                    (postCategories db) (S (postsSeq db)) (categoriesSeq db)
                    (postCategoriesSeq db))
  end.

(** The columns an [UPDATE posts SET ...] statement assigns; [None] leaves
    the column out of the [SET] clause. *)
Record PostPatch := mkPatch {
  setTitle : option string;
  setContent : option string;
  setPublished : option bool;
  setSlug : option string;
  setUpdatedAt : option Timestamp }.

Definition orElse {A : Type} (o : option A) (d : A) : A :=
  match o with Some a => a | None => d end.

Definition applyPatch (patch : PostPatch) (p : Post.t) : Post.t :=
  Post.mk (Post.id p)
    (orElse (setTitle patch) (Post.title p))
    (match setContent patch with Some c => Some c | None => Post.content p end)
    (Post.excerpt p) (Post.authorId p)
    (orElse (setSlug patch) (Post.slug p))
    (orElse (setPublished patch) (Post.published p))
    (Post.featured p) (Post.viewCount p) (Post.readingTime p)
    (Post.seoTitle p) (Post.seoDescription p) (Post.publishedAt p)
    (Post.createdAt p)
    (orElse (setUpdatedAt patch) (Post.updatedAt p)).

(** [UPDATE posts SET ... WHERE id = i RETURNING *]: every matching row is
    rewritten and re-checked against the rows that do not match; a failed
    check aborts the statement and leaves the table as it was. *)
Definition updatePostById (i : nat) (patch : PostPatch) (db : DB)
  : Outcome (list Post.t * DB) :=
  let hit := filter (fun p => Post.id p =? i) (posts db) in
  let others := filter (fun p => negb (Post.id p =? i)) (posts db) in
  let updated := map (applyPatch patch) hit in
  match firstViolation (flat_map (postRowChecks others) updated) with
  | Some e => Raised e
  | None =>
      Done (updated,
            mkDB (users db)
                 (map (fun p => if Post.id p =? i then applyPatch patch p else p)
                      (posts db))
                 (categories db) (postCategories db) (postsSeq db)
                 (categoriesSeq db) (postCategoriesSeq db))
  end.

(** [DELETE FROM posts WHERE id = i RETURNING *]; the junction rows that
    reference a deleted post go with it ([post_categories_post_fk],
    [ON DELETE CASCADE]). *)
Definition deletePostById (i : nat) (db : DB) : list Post.t * DB :=
  let hit := filter (fun p => Post.id p =? i) (posts db) in
  (hit,
   mkDB (users db)
        (filter (fun p => negb (Post.id p =? i)) (posts db))
        (categories db)
        (filter (fun r => negb (existsb (fun p => Post.id p =? PostCategory.postId r) hit))
                (postCategories db))
        (postsSeq db) (categoriesSeq db) (postCategoriesSeq db)).

(** [DELETE FROM post_categories WHERE post_id = i]. *)
Definition deletePostCategoriesByPost (i : nat) (db : DB) : DB :=
  mkDB (users db) (posts db) (categories db)
       (filter (fun r => negb (PostCategory.postId r =? i)) (postCategories db))
       (postsSeq db) (categoriesSeq db) (postCategoriesSeq db).

(** Whether [l] has no element twice. *)
Fixpoint distinctPairs (l : list (nat * nat)) : bool :=
  match l with
  | [] => true
  | x :: rest => negb (existsb (pairEqb x) rest) && distinctPairs rest
  end.

(** The rows a multi-row insert builds, numbered from the sequence. *)
Fixpoint junctionRows (seq : nat) (now : Timestamp) (values : list (nat * nat))
  : list PostCategory.t :=
  match values with
  | [] => []
  | (p, c) :: rest =>
      PostCategory.mk (S seq) p c now :: junctionRows (S seq) now rest
  end.

(** [INSERT INTO post_categories (post_id, category_id) VALUES (...), ...]
    as one statement: the unique index [post_categories_unique_idx] is
    checked as each row goes in, the two foreign keys when the statement
    ends; any failure leaves the table as it was. *)
Definition insertPostCategories (values : list (nat * nat)) (now : Timestamp)
    (db : DB) : Outcome DB :=
  let existing := map PostCategory.pair (postCategories db) in
  match firstViolation
          [ (distinctPairs values, unique_violation);
            (negb (existsb (fun v => existsb (pairEqb v) existing) values),
             unique_violation);
            (forallb (fun v => hasPost db (fst v)) values, foreign_key_violation);
            (forallb (fun v => hasCategory db (snd v)) values,
             foreign_key_violation) ] with
  | Some e => Raised e
  | None =>
      Done (mkDB (users db) (posts db) (categories db)
                 (postCategories db
                  ++ junctionRows (postCategoriesSeq db) now values)
                 (postsSeq db) (categoriesSeq db)
                 (postCategoriesSeq db + List.length values))
  end.

(** Column types, check constraints and unique indexes of [categories]
    for a new row: [varchar(100)] and [varchar(120)],
    [category_name_min_length], [category_slug_min_length],
    [categories_name_idx] and [categories_slug_idx]. *)
Definition categoryRowChecks (others : list Category.t) (c : Category.t)
  : list (bool * PgError) :=
  [ (String.length (Category.name c) <=? 100, string_data_right_truncation);
    (String.length (Category.slug c) <=? 120, string_data_right_truncation);
    (2 <=? String.length (Category.name c), check_violation);
    (2 <=? String.length (Category.slug c), check_violation);
    (negb (existsb (fun q => Category.id q =? Category.id c) others),
     unique_violation);
    (negb (existsb (fun q => String.eqb (Category.name q) (Category.name c)) others),
     unique_violation);
    (negb (existsb (fun q => String.eqb (Category.slug q) (Category.slug c)) others),
     unique_violation) ].

(** [INSERT INTO categories (name, description, slug) VALUES (...)
    RETURNING *]. *)
Definition insertCategory (name : string) (description : option string)
    (slug : string) (now : Timestamp) (db : DB) : Outcome (Category.t * DB) :=
  let c := Category.mk (S (categoriesSeq db)) name description slug None None
             None true 0 0 now now in
  match firstViolation (categoryRowChecks (categories db) c) with
  | Some e => Raised e
  | None =>
      Done (c, mkDB (users db) (posts db) (categories db ++ [c])
                    (postCategories db) (postsSeq db) (S (categoriesSeq db))
                    (postCategoriesSeq db))
  end.

(** *** Queries *)

(** One row of [posts LEFT JOIN post_categories LEFT JOIN categories]:
    the junction and category sides are null when nothing matches. *)
Record JoinedRow := mkJoined {
  jPost : Post.t;
  jPostCategory : option PostCategory.t;
  jCategory : option Category.t }.

Definition leftJoinCategory (db : DB) (p : Post.t) (pc : PostCategory.t)
  : list JoinedRow :=
  match filter (fun c => PostCategory.categoryId pc =? Category.id c)
               (categories db) with
  | [] => [mkJoined p (Some pc) None]
  | cs => map (fun c => mkJoined p (Some pc) (Some c)) cs
  end.

Definition leftJoinPost (db : DB) (p : Post.t) : list JoinedRow :=
  match filter (fun pc => Post.id p =? PostCategory.postId pc)
               (postCategories db) with
  | [] => [mkJoined p None None]
  | pcs => flat_map (leftJoinCategory db p) pcs
  end.

(** [FROM posts LEFT JOIN post_categories ON posts.id = post_id
    LEFT JOIN categories ON category_id = categories.id]. *)
Definition joinedRows (db : DB) : list JoinedRow :=
  flat_map (leftJoinPost db) (posts db).

(** [s LIKE pattern] with the default escape character: [%] matches any
    sequence, [_] any one character, a backslash makes the next pattern
    character literal.  (A pattern that ends in a lone backslash is
    refused by the engine; the routers always append [%].) *)
Fixpoint like (pattern : string) : string -> bool :=
  match pattern with
  | EmptyString => fun s => Utils.isEmpty s
  | String pc rest =>
      if Ascii.eqb pc "%" then
        (fix anySuffix (s : string) : bool :=
           like rest s ||
           match s with
           | EmptyString => false
           | String _ s' => anySuffix s'
           end)
      else if Ascii.eqb pc "_" then
        fun s => match s with
                 | EmptyString => false
                 | String _ s' => like rest s'
                 end
      else if Ascii.eqb pc "\" then
        match rest with
        | EmptyString => fun _ => false
        | String lit rest' =>
            fun s => match s with
                     | EmptyString => false
                     | String c s' => Ascii.eqb c lit && like rest' s'
                     end
        end
      else
        fun s => match s with
                 | EmptyString => false
                 | String c s' => Ascii.eqb c pc && like rest s'
                 end
  end.

(** [s ILIKE pattern]: [LIKE] up to letter case. *)
Definition ilike (pattern s : string) : bool :=
  like (Utils.toLowerCase pattern) (Utils.toLowerCase s).

(** The predicates the routers build with the ORM's [eq], [like], [ilike]
    and [or].  A comparison with a null column is not true. *)
Inductive Condition :=
  | EqPublished (b : bool)
  | EqAuthorId (i : nat)
  | EqCategoryId (i : nat)
  | LikeTitle (pattern : string)
  | ILikeTitle (pattern : string)
  | ILikeContent (pattern : string)
  | Or (a b : Condition).

Fixpoint holds (c : Condition) (r : JoinedRow) : bool :=
  match c with
  | EqPublished b => Bool.eqb (Post.published (jPost r)) b
  | EqAuthorId i => Post.authorId (jPost r) =? i
  | EqCategoryId i =>
      match jPostCategory r with
      | Some pc => PostCategory.categoryId pc =? i
      | None => false
      end
  | LikeTitle pattern => like pattern (Post.title (jPost r))
  | ILikeTitle pattern => ilike pattern (Post.title (jPost r))
  | ILikeContent pattern =>
      match Post.content (jPost r) with
      | Some body => ilike pattern body
      | None => false
      end
  | Or a b => holds a r || holds b r
  end.

(** [.where(conditions.length > 0 ? and(...conditions) : undefined)]. *)
Definition where_ (conditions : list Condition) (rows : list JoinedRow)
  : list JoinedRow :=
  filter (fun r => forallb (fun c => holds c r) conditions) rows.

(** [ORDER BY posts.created_at DESC], as a stable insertion sort. *)
Fixpoint insertByCreatedAtDesc (r : JoinedRow) (sorted : list JoinedRow)
  : list JoinedRow :=
  match sorted with
  | [] => [r]
  | x :: rest =>
      if Post.createdAt (jPost x) <=? Post.createdAt (jPost r)
      then r :: sorted
      else x :: insertByCreatedAtDesc r rest
  end.

Definition orderByCreatedAtDesc (rows : list JoinedRow) : list JoinedRow :=
  fold_right insertByCreatedAtDesc [] rows.

(** [LIMIT limit OFFSET offset]. *)
Definition limitOffset (limit offset : nat) (rows : list JoinedRow)
  : list JoinedRow :=
  firstn limit (skipn offset rows).

(** *** The storage contract *)

Fixpoint distinctNats (l : list nat) : bool :=
  match l with
  | [] => true
  | x :: rest => negb (existsb (Nat.eqb x) rest) && distinctNats rest
  end.

Fixpoint distinctStrings (l : list string) : bool :=
  match l with
  | [] => true
  | x :: rest => negb (existsb (String.eqb x) rest) && distinctStrings rest
  end.

(** The constraints the schema declares, as they hold between statements:
    primary keys and unique indexes, the check constraints on titles,
    names and slugs, the foreign keys, and keys issued by the sequences. *)
Definition consistent (db : DB) : bool :=
  distinctNats (map User.id (users db))
  && distinctNats (map Post.id (posts db))
  && distinctStrings (map Post.slug (posts db))
  && forallb (fun p => (5 <=? String.length (Post.title p))
                       && (3 <=? String.length (Post.slug p))
                       && hasUser db (Post.authorId p)
                       && (Post.id p <=? postsSeq db)) (posts db)
  && distinctNats (map Category.id (categories db))
  && distinctStrings (map Category.name (categories db))
  && distinctStrings (map Category.slug (categories db))
  && forallb (fun c => (2 <=? String.length (Category.name c))
                       && (2 <=? String.length (Category.slug c))
                       && (Category.id c <=? categoriesSeq db)) (categories db)
  && distinctNats (map PostCategory.id (postCategories db))
  && distinctPairs (map PostCategory.pair (postCategories db))
  && forallb (fun r => hasPost db (PostCategory.postId r)
                       && hasCategory db (PostCategory.categoryId r)
                       && (PostCategory.id r <=? postCategoriesSeq db))
             (postCategories db).

(** The junction rows of a post, and the categories they name. *)
Definition junctionOfPost (db : DB) (postId : nat) : list PostCategory.t :=
  filter (fun r => PostCategory.postId r =? postId) (postCategories db).

Definition categoryIdsOfPost (db : DB) (postId : nat) : list nat :=
  map PostCategory.categoryId (junctionOfPost db postId).

(** *** Statements on [categories] *)

(** The columns an [UPDATE categories SET ...] statement assigns; [None]
    leaves the column out of the [SET] clause. *)
Record CategoryPatch := mkCategoryPatch {
  setCategoryName : option string;
  setCategoryDescription : option string;
  setCategorySlug : option string;
  setCategoryUpdatedAt : option Timestamp }.

Definition applyCategoryPatch (patch : CategoryPatch) (c : Category.t)
  : Category.t :=
  Category.mk (Category.id c)
    (orElse (setCategoryName patch) (Category.name c))
    (match setCategoryDescription patch with
     | Some d => Some d
     | None => Category.description c
     end)
    (orElse (setCategorySlug patch) (Category.slug c))
    (Category.parentId c) (Category.color c) (Category.icon c)
    (Category.isActive c) (Category.sortOrder c) (Category.postCount c)
    (Category.createdAt c)
    (orElse (setCategoryUpdatedAt patch) (Category.updatedAt c)).

(** [UPDATE categories SET ... WHERE id = i RETURNING *]: every matching
    row is rewritten and re-checked against the rows that do not match; a
    failed check aborts the statement and leaves the table as it was. *)
Definition updateCategoryById (i : nat) (patch : CategoryPatch) (db : DB)
  : Outcome (list Category.t * DB) :=
  let hit := filter (fun c => Category.id c =? i) (categories db) in
  let others := filter (fun c => negb (Category.id c =? i)) (categories db) in
  let updated := map (applyCategoryPatch patch) hit in
  match firstViolation (flat_map (categoryRowChecks others) updated) with
  | Some e => Raised e
  | None =>
      Done (updated,
            mkDB (users db) (posts db)
                 (map (fun c => if Category.id c =? i
                                then applyCategoryPatch patch c else c)
                      (categories db))
                 (postCategories db) (postsSeq db) (categoriesSeq db)
                 (postCategoriesSeq db))
  end.

(** What [categories_parent_fk] ([ON DELETE SET NULL]) does to a row that
    stays when the rows [deleted] go. *)
Definition clearParent (deleted : list Category.t) (c : Category.t)
  : Category.t :=
  match Category.parentId c with
  | Some k =>
      if existsb (fun d => Category.id d =? k) deleted
      then Category.mk (Category.id c) (Category.name c)
             (Category.description c) (Category.slug c) None
             (Category.color c) (Category.icon c) (Category.isActive c)
             (Category.sortOrder c) (Category.postCount c)
             (Category.createdAt c) (Category.updatedAt c)
      else c
  | None => c
  end.

(** [DELETE FROM categories WHERE id = i RETURNING *]; the junction rows
    that reference a deleted category go with it
    ([post_categories_category_fk], [ON DELETE CASCADE]), and the
    categories below it lose their parent. *)
Definition deleteCategoryById (i : nat) (db : DB) : list Category.t * DB :=
  let hit := filter (fun c => Category.id c =? i) (categories db) in
  (hit,
   mkDB (users db) (posts db)
        (map (clearParent hit)
             (filter (fun c => negb (Category.id c =? i)) (categories db)))
        (filter (fun r => negb (existsb (fun c => Category.id c =? PostCategory.categoryId r) hit))
                (postCategories db))
        (postsSeq db) (categoriesSeq db) (postCategoriesSeq db)).

(** [SELECT * FROM categories ORDER BY created_at DESC], as a stable
    insertion sort. *)
Fixpoint insertCategoryByCreatedAtDesc (c : Category.t) (sorted : list Category.t)
  : list Category.t :=
  match sorted with
  | [] => [c]
  | x :: rest =>
      if Category.createdAt x <=? Category.createdAt c
      then c :: sorted
      else x :: insertCategoryByCreatedAtDesc c rest
  end.

Definition orderCategoriesByCreatedAtDesc (rows : list Category.t)
  : list Category.t :=
  fold_right insertCategoryByCreatedAtDesc [] rows.

(** [UPDATE posts SET view_count = view_count + 1, updated_at = now
    WHERE id = i]: the two columns have no constraint that a larger
    count or a later time can break. *)
Definition incrementViewCount (i : nat) (now : Timestamp) (db : DB) : DB :=
  mkDB (users db)
       (map (fun p =>
               if Post.id p =? i
               then Post.mk (Post.id p) (Post.title p) (Post.content p)
                      (Post.excerpt p) (Post.authorId p) (Post.slug p)
                      (Post.published p) (Post.featured p)
                      (S (Post.viewCount p)) (Post.readingTime p)
                      (Post.seoTitle p) (Post.seoDescription p)
                      (Post.publishedAt p) (Post.createdAt p) now
               else p)
            (posts db))
       (categories db) (postCategories db) (postsSeq db) (categoriesSeq db)
       (postCategoriesSeq db).

End Storage.

(* ===================================================================== *)
(** ** src/lib/validations.ts and src/server/api/trpc.ts *)
(* ===================================================================== *)

Module Validations.

(** [z.number().int().positive()]. *)
Definition idSchema (i : nat) : bool := 0 <? i.

(** [z.string().min(1).max(255)]. *)
Definition titleSchema (s : string) : bool :=
  (1 <=? String.length s) && (String.length s <=? 255).

(** [z.string().min(1)]. *)
Definition contentSchema (s : string) : bool := 1 <=? String.length s.

(** [z.string().max(500).optional()]. *)
Definition descriptionSchema (o : option string) : bool :=
  match o with Some s => String.length s <=? 500 | None => true end.

Definition optional {A : Type} (schema : A -> bool) (o : option A) : bool :=
  match o with Some a => schema a | None => true end.

Definition default {A : Type} (d : A) (o : option A) : A :=
  match o with Some a => a | None => d end.

(** What a client sends to [post.create]. *)
Record CreatePostRequest := mkCreateRequest {
  reqTitle : string;
  reqContent : string;
  reqPublished : option bool;
  reqAuthorId : option nat;
  reqCategoryIds : option (list nat) }.

(** [z.infer<typeof createPostSchema>]. *)
Record CreatePostInput := mkCreateInput {
  title : string;
  content : string;
  published : bool;
  authorId : option nat;
  categoryIds : list nat }.

Definition createPostSchema (r : CreatePostRequest) : option CreatePostInput :=
  if titleSchema (reqTitle r) && contentSchema (reqContent r)
     && optional idSchema (reqAuthorId r)
     && optional (forallb idSchema) (reqCategoryIds r)
  then Some (mkCreateInput (reqTitle r) (reqContent r)
               (default false (reqPublished r)) (reqAuthorId r)
               (default [] (reqCategoryIds r)))
  else None.

(** [z.infer<typeof updatePostSchema>]; the schema has no defaults. *)
Record UpdatePostInput := mkUpdateInput {
  updId : nat;
  updTitle : option string;
  updContent : option string;
  updPublished : option bool;
  updCategoryIds : option (list nat) }.

Definition updatePostSchema (r : UpdatePostInput) : option UpdatePostInput :=
  if idSchema (updId r) && optional titleSchema (updTitle r)
     && optional contentSchema (updContent r)
     && optional (forallb idSchema) (updCategoryIds r)
  then Some r else None.

(** [z.string().min(1)]. *)
Definition getPostBySlugSchema (s : string) : option string :=
  if 1 <=? String.length s then Some s else None.

(** What a client sends to [post.getAll]. *)
Record PostFiltersRequest := mkFiltersRequest {
  reqSearch : option string;
  reqCategoryId : option nat;
  reqFilterPublished : option bool;
  reqFilterAuthorId : option nat;
  reqLimit : option nat;
  reqOffset : option nat }.

(** [z.infer<typeof postFiltersSchema>]. *)
Record PostFilters := mkFilters {
  search : option string;
  categoryId : option nat;
  filterPublished : option bool;
  filterAuthorId : option nat;
  limit : nat;
  offset : nat }.

Definition limitSchema (n : nat) : bool := (1 <=? n) && (n <=? 100).

Definition postFiltersSchema (r : PostFiltersRequest) : option PostFilters :=
  if optional idSchema (reqCategoryId r)
     && optional idSchema (reqFilterAuthorId r)
     && limitSchema (default 10 (reqLimit r))
  then Some (mkFilters (reqSearch r) (reqCategoryId r) (reqFilterPublished r)
               (reqFilterAuthorId r) (default 10 (reqLimit r))
               (default 0 (reqOffset r)))
  else None.

(** [z.infer<typeof createCategorySchema>]. *)
Record CreateCategoryInput := mkCreateCategory {
  catName : string;
  catDescription : option string }.

Definition createCategorySchema (r : CreateCategoryInput)
  : option CreateCategoryInput :=
  if (1 <=? String.length (catName r)) && (String.length (catName r) <=? 100)
     && descriptionSchema (catDescription r)
  then Some r else None.

(** [z.infer<typeof updateCategorySchema>]. *)
Record UpdateCategoryInput := mkUpdateCategory {
  updCatId : nat;
  updCatName : option string;
  updCatDescription : option string }.

Definition updateCategorySchema (r : UpdateCategoryInput)
  : option UpdateCategoryInput :=
  if idSchema (updCatId r)
     && optional (fun n => (1 <=? String.length n) && (String.length n <=? 100))
          (updCatName r)
     && descriptionSchema (updCatDescription r)
  then Some r else None.

(** [z.string().min(1)]. *)
Definition getCategoryBySlugSchema (s : string) : option string :=
  if 1 <=? String.length s then Some s else None.

End Validations.

Module TRPC.

Inductive Code :=
  | BAD_REQUEST
  | UNAUTHORIZED
  | NOT_FOUND
  | CONFLICT
  | INTERNAL_SERVER_ERROR.

(** A [TRPCError]: either the one the input parser raises for a value its
    schema rejects, or one a procedure throws with a code and a message. *)
Inductive Error :=
  | InputRejected
  | Thrown (code : Code) (message : string).

Definition codeOf (e : Error) : Code :=
  match e with
  | InputRejected => BAD_REQUEST
  | Thrown c _ => c
  end.

Definition isConflict (e : Error) : bool :=
  match codeOf e with CONFLICT => true | _ => false end.

Inductive Result (A : Type) :=
  | Ok (a : A)
  | Err (e : Error).
Arguments Ok {A} a.
Arguments Err {A} e.

(** The request context: the identity provider's user and session ids,
    null when nobody is signed in. *)
Record Context := mkContext {
  userId : option string;
  sessionId : option string }.

(** JavaScript truthiness of the values these procedures test. *)
Definition truthyString (s : string) : bool := negb (Utils.isEmpty s).
Definition truthyNat (n : nat) : bool := negb (n =? 0).
Definition truthyOpt {A : Type} (truthy : A -> bool) (o : option A) : bool :=
  match o with Some a => truthy a | None => false end.

(** Both ids of the session are there. *)
Definition isSignedIn (ctx : Context) : bool :=
  truthyOpt truthyString (userId ctx) && truthyOpt truthyString (sessionId ctx).

(** [publicProcedure.input(schema)]: the handler runs on the parsed
    input. *)
Definition publicProcedure {Raw In Out : Type} (schema : Raw -> option In)
    (handler : In -> Out) (reject : Error -> Out) (raw : Raw) : Out :=
  match schema raw with
  | Some input => handler input
  | None => reject InputRejected
  end.

(** [protectedProcedure.input(schema)]: the session check runs first. *)
Definition protectedProcedure {Raw In Out : Type} (schema : Raw -> option In)
    (handler : Context -> In -> Out) (reject : Error -> Out)
    (ctx : Context) (raw : Raw) : Out :=
  if negb (truthyOpt truthyString (userId ctx))
     || negb (truthyOpt truthyString (sessionId ctx))
  then reject (Thrown UNAUTHORIZED "You must be signed in to perform this action")
  else publicProcedure schema (handler ctx) reject raw.

End TRPC.

(* ===================================================================== *)
(** ** src/server/api/routers/post.ts *)
(* ===================================================================== *)

(** A JavaScript [Map] keyed by numbers: entries are kept in insertion
    order, which is the order [values()] yields them in. *)
Module JsMap.
Section WithValue.
Context {V : Type}.

Definition t := list (nat * V).

Definition empty : t := [].

Definition has (k : nat) (m : t) : bool :=
  existsb (fun kv => fst kv =? k) m.

Fixpoint get (k : nat) (m : t) : option V :=
  match m with
  | [] => None
  | (k', v) :: rest => if k' =? k then Some v else get k rest
  end.

(** Rewrites the value stored under [k], in place. *)
Fixpoint modify (k : nat) (f : V -> V) (m : t) : t :=
  match m with
  | [] => []
  | (k', v) :: rest =>
      if k' =? k then (k', f v) :: rest else (k', v) :: modify k f rest
  end.

Definition set (k : nat) (v : V) (m : t) : t :=
  if has k m then modify k (fun _ => v) m else m ++ [(k, v)].

Definition values (m : t) : list V := map snd m.

End WithValue.
Arguments t V : clear implicits.
End JsMap.

Module PostRouter.
Import Storage Validations TRPC.

(** A row of the select: the fifteen post columns, and the joined category
    or null ([const { categories, ...postData } = result]). *)
Record RawPostQueryResult := mkRaw {
  postData : Post.t;
  categories : option Category.t }.

(** [PostWithCategories]: the post columns and the category array. *)
Record PostWithCategories := mkPostWithCategories {
  post : Post.t;
  postCategories : list Category.t }.

Definition pushCategory (c : Category.t) (p : PostWithCategories)
  : PostWithCategories :=
  mkPostWithCategories (post p) (postCategories p ++ [c]).

(** The body of the [forEach] callback, on the map it mutates. *)
Definition transformStep (postsMap : JsMap.t PostWithCategories)
    (result : RawPostQueryResult) : JsMap.t PostWithCategories :=
  let key := Post.id (postData result) in
  let postsMap :=
    if negb (JsMap.has key postsMap)
    then JsMap.set key (mkPostWithCategories (postData result) []) postsMap
    else postsMap in
  match categories result with
  | Some c =>
      match JsMap.get key postsMap with
      | Some _ => JsMap.modify key (pushCategory c) postsMap
      | None => postsMap
      end
  | None => postsMap
  end.

Definition transformPostQueryResults (results : list RawPostQueryResult)
  : list PostWithCategories :=
  JsMap.values (fold_left transformStep results JsMap.empty).

Definition selectRow (r : JoinedRow) : RawPostQueryResult :=
  mkRaw (jPost r) (jCategory r).

(** The [conditions] array [getAll] builds. *)
Definition getAllConditions (input : PostFilters) : list Condition :=
  let conditions := [] in
  let conditions :=
    match filterPublished input with
    | Some b => conditions ++ [EqPublished b]
    | None => conditions
    end in
  let conditions :=
    match search input with
    | Some s =>
        if truthyString s then conditions ++ [LikeTitle ("%" ++ s ++ "%")%string]
        else conditions
    | None => conditions
    end in
  let conditions :=
    match categoryId input with
    | Some c => if truthyNat c then conditions ++ [EqCategoryId c] else conditions
    | None => conditions
    end in
  conditions.

(** The rows the query of [getAll] returns. *)
Definition getAllRows (input : PostFilters) (db : DB) : list JoinedRow :=
  limitOffset (limit input) (offset input)
    (orderByCreatedAtDesc (where_ (getAllConditions input) (joinedRows db))).

Definition getAllHandler (db : DB) (input : PostFilters)
  : Result (list PostWithCategories) :=
  Ok (transformPostQueryResults (map selectRow (getAllRows input db))).

(** [post.getAll]. *)
Definition getAll (db : DB) (request : PostFiltersRequest)
  : Result (list PostWithCategories) :=
  publicProcedure postFiltersSchema (getAllHandler db) Err request.

Definition getBySlugRows (input : string) (db : DB) : list JoinedRow :=
  filter (fun r => String.eqb (Post.slug (jPost r)) input) (joinedRows db).

(** [post.getBySlug]; the result is [transformedPosts[0]], which an empty
    array would leave undefined. *)
Definition getBySlugHandler (db : DB) (input : string)
  : Result (option PostWithCategories) :=
  let results := getBySlugRows input db in
  if List.length results =? 0 then Err (Thrown NOT_FOUND "Post not found")
  else Ok (hd_error (transformPostQueryResults (map selectRow results))).

Definition getBySlug (db : DB) (request : string)
  : Result (option PostWithCategories) :=
  publicProcedure getPostBySlugSchema (getBySlugHandler db) Err request.

Definition junctionValues (postId : nat) (categoryIds : list nat)
  : list (nat * nat) :=
  map (fun categoryId => (postId, categoryId)) categoryIds.

(** [post.create]: every exception of the body is rethrown as the same
    internal error. *)
Definition createHandler (now : Timestamp) (db : DB) (ctx : Context)
    (input : CreatePostInput) : Result Post.t * DB :=
  let failed := Err (Thrown INTERNAL_SERVER_ERROR "Failed to create post") in
  let slug := Utils.generateSlug (title input) in
  let dbUserId := 1 in
  match insertPost (title input) (Some (content input)) slug (published input)
          dbUserId now db with
  | Raised _ => (failed, db)
  | Done (newPost, db1) =>
      if 0 <? List.length (categoryIds input) then
        match insertPostCategories
                (junctionValues (Post.id newPost) (categoryIds input)) now db1 with
        | Raised _ => (failed, db1)
        | Done db2 => (Ok newPost, db2)
        end
      else (Ok newPost, db1)
  end.

Definition create (now : Timestamp) (db : DB) (ctx : Context)
    (request : CreatePostRequest) : Result Post.t * DB :=
  protectedProcedure createPostSchema (createHandler now db)
    (fun e => (Err e, db)) ctx request.

(** The [set] payload of [update]: the supplied columns, the slug when a
    title is supplied, and [updatedAt]. *)
Definition updatePayload (now : Timestamp) (input : UpdatePostInput) : PostPatch :=
  mkPatch (updTitle input) (updContent input) (updPublished input)
    (match updTitle input with
     | Some t => if truthyString t then Some (Utils.generateSlug t) else None
     | None => None
     end)
    (Some now).

(** [post.update]. *)
Definition updateHandler (now : Timestamp) (db : DB) (ctx : Context)
    (input : UpdatePostInput) : Result Post.t * DB :=
  let failed := Err (Thrown INTERNAL_SERVER_ERROR "Failed to update post") in
  let id := updId input in
  match updatePostById id (updatePayload now input) db with
  | Raised _ => (failed, db)
  | Done ([], db1) => (Err (Thrown NOT_FOUND "Post not found"), db1)
  | Done (updatedPost :: _, db1) =>
      match updCategoryIds input with
      | Some categoryIds =>
          let db2 := deletePostCategoriesByPost id db1 in
          if 0 <? List.length categoryIds then
            match insertPostCategories (junctionValues id categoryIds) now db2 with
            | Raised _ => (failed, db2)
            | Done db3 => (Ok updatedPost, db3)
            end
          else (Ok updatedPost, db2)
      | None => (Ok updatedPost, db1)
      end
  end.

Definition update (now : Timestamp) (db : DB) (ctx : Context)
    (request : UpdatePostInput) : Result Post.t * DB :=
  protectedProcedure updatePostSchema (updateHandler now db)
    (fun e => (Err e, db)) ctx request.

(** [post.delete]. *)
Definition deleteHandler (db : DB) (ctx : Context) (input : nat)
  : Result Post.t * DB :=
  match deletePostById input db with
  | ([], db1) => (Err (Thrown NOT_FOUND "Post not found"), db1)
  | (deletedPost :: _, db1) => (Ok deletedPost, db1)
  end.

Definition delete (db : DB) (ctx : Context) (request : nat)
  : Result Post.t * DB :=
  protectedProcedure
    (fun i => if idSchema i then Some i else None)
    (deleteHandler db) (fun e => (Err e, db)) ctx request.

End PostRouter.

(* ===================================================================== *)
(** ** The second copy of the post router: the [catch] block of [create] *)
(* ===================================================================== *)

(** The second copy of the post router differs from the first in
    [create]: its body first makes sure a [users] row exists for the
    author, and its [catch] block reads the caught error's code.  The
    [catch] block is what this module embeds. *)
Module PostRouterAlt.
Import TRPC.

(** What the [catch] block reads of the caught value: [error.code],
    [error.cause.code] and [error.message]. *)
Record Caught := mkCaught {
  code : option string;
  causeCode : option string;
  message : option string }.

(** A constraint failure as the database driver throws it. *)
Definition ofPgError (e : Storage.PgError) (text : string) : Caught :=
  mkCaught (Some (Storage.sqlstate e)) None (Some text).

(** A [TRPCError] thrown inside the [try] block. *)
Definition codeName (c : Code) : string :=
  match c with
  | BAD_REQUEST => "BAD_REQUEST"
  | UNAUTHORIZED => "UNAUTHORIZED"
  | NOT_FOUND => "NOT_FOUND"
  | CONFLICT => "CONFLICT"
  | INTERNAL_SERVER_ERROR => "INTERNAL_SERVER_ERROR"
  end.

Definition ofThrown (c : Code) (text : string) : Caught :=
  mkCaught (Some (codeName c)) None (Some text).

(** [error?.code || (error?.cause && error.cause.code) || null]. *)
Definition errorCode (error : Caught) : option string :=
  if truthyOpt truthyString (code error) then code error
  else if truthyOpt truthyString (causeCode error) then causeCode error
  else None.

Definition codeIs (c : option string) (expected : string) : bool :=
  match c with Some s => String.eqb s expected | None => false end.

(** The [catch] block of [create]. *)
Definition createCatch (nodeEnv : string) (error : Caught) : Error :=
  let code := errorCode error in
  if codeIs code "23503" then
    Thrown BAD_REQUEST
      "Failed to create post: related record not found (author or category). Ensure your local DB has a matching user and categories."
  else if codeIs code "23505" then
    Thrown CONFLICT
      "Failed to create post: a post with the same slug already exists. Try changing the title."
  else
    Thrown INTERNAL_SERVER_ERROR
      (match message error with
       | Some m =>
           if String.eqb nodeEnv "development" && truthyString m
           then ("Failed to create post: " ++ m)%string
           else "Failed to create post"
       | None => "Failed to create post"
       end).

End PostRouterAlt.

(* ===================================================================== *)
(** ** src/server/api/routers/category.ts *)
(* ===================================================================== *)

Module CategoryRouter.
Import Storage Validations TRPC.

(** [category.create]. *)
Definition createHandler (now : Timestamp) (db : DB)
    (input : CreateCategoryInput) : Result Category.t * DB :=
  let slug := Utils.generateSlug (catName input) in
  match insertCategory (catName input) (catDescription input) slug now db with
  | Raised _ =>
      (Err (Thrown INTERNAL_SERVER_ERROR "Failed to create category"), db)
  | Done (newCategory, db1) => (Ok newCategory, db1)
  end.

Definition create (now : Timestamp) (db : DB) (request : CreateCategoryInput)
  : Result Category.t * DB :=
  publicProcedure createCategorySchema (createHandler now db)
    (fun e => (Err e, db)) request.

(** [category.getAll]: every category, newest first. *)
Definition getAll (db : DB) : Result (list Category.t) :=
  Ok (orderCategoriesByCreatedAtDesc (Storage.categories db)).

(** [category.getBySlug]: the first row the query returns. *)
Definition getBySlugHandler (db : DB) (input : string) : Result Category.t :=
  match filter (fun c => String.eqb (Category.slug c) input)
               (Storage.categories db) with
  | category :: _ => Ok category
  | [] => Err (Thrown NOT_FOUND "Category not found")
  end.

Definition getBySlug (db : DB) (request : string) : Result Category.t :=
  publicProcedure getCategoryBySlugSchema (getBySlugHandler db) Err request.

(** The [set] payload of [update]: the supplied columns, the slug when a
    name is supplied, and [updatedAt]. *)
Definition updatePayload (now : Timestamp) (input : UpdateCategoryInput)
  : CategoryPatch :=
  mkCategoryPatch (updCatName input) (updCatDescription input)
    (match updCatName input with
     | Some n => if truthyString n then Some (Utils.generateSlug n) else None
     | None => None
     end)
    (Some now).

(** [category.update]. *)
Definition updateHandler (now : Timestamp) (db : DB)
    (input : UpdateCategoryInput) : Result Category.t * DB :=
  match updateCategoryById (updCatId input) (updatePayload now input) db with
  | Raised _ =>
      (Err (Thrown INTERNAL_SERVER_ERROR "Failed to update category"), db)
  | Done ([], db1) => (Err (Thrown NOT_FOUND "Category not found"), db1)
  | Done (updatedCategory :: _, db1) => (Ok updatedCategory, db1)
  end.

Definition update (now : Timestamp) (db : DB) (request : UpdateCategoryInput)
  : Result Category.t * DB :=
  publicProcedure updateCategorySchema (updateHandler now db)
    (fun e => (Err e, db)) request.

(** [category.delete]. *)
Definition deleteHandler (db : DB) (input : nat) : Result Category.t * DB :=
  match deleteCategoryById input db with
  | ([], db1) => (Err (Thrown NOT_FOUND "Category not found"), db1)
  | (deletedCategory :: _, db1) => (Ok deletedCategory, db1)
  end.

Definition delete (db : DB) (request : nat) : Result Category.t * DB :=
  publicProcedure (fun i => if idSchema i then Some i else None)
    (deleteHandler db) (fun e => (Err e, db)) request.

End CategoryRouter.

(* ===================================================================== *)
(** ** src/lib/db-utils.ts: PostQueries.getPostsWithDetails *)
(* ===================================================================== *)

Module PostQueries.
Import Storage TRPC.

(** The arguments of [getPostsWithDetails], with their defaults applied. *)
Record Options := mkOptions {
  limit : nat;
  offset : nat;
  authorId : option nat;
  categoryId : option nat;
  published : option bool;
  search : option string }.

Definition conditions (o : Options) : list Condition :=
  let conditions := [] in
  let conditions :=
    if truthyOpt truthyNat (authorId o)
    then conditions ++ [EqAuthorId (orElse (authorId o) 0)] else conditions in
  let conditions :=
    match published o with
    | Some b => conditions ++ [EqPublished b]
    | None => conditions
    end in
  let conditions :=
    match search o with
    | Some s =>
        if truthyString s
        then conditions ++ [Or (ILikeTitle ("%" ++ s ++ "%")%string)
                               (ILikeContent ("%" ++ s ++ "%"))]
        else conditions
    | None => conditions
    end in
  let conditions :=
    if truthyOpt truthyNat (categoryId o)
    then conditions ++ [EqCategoryId (orElse (categoryId o) 0)] else conditions in
  conditions.

(** A row of the select: the post, its author, and the joined category's
    id, name and slug. *)
Record Row := mkRow {
  rowPost : Post.t;
  rowAuthor : option User.t;
  rowCategoryId : option nat;
  rowCategoryName : option string;
  rowCategorySlug : option string }.

(** An entry of [postCategories]: the junction fields and the category. *)
Record PostCategoryEntry := mkEntry {
  junction : PostCategory.t;
  category : Category.t }.

Record PostWithDetails := mkDetails {
  detailsPost : Post.t;
  author : option User.t;
  postCategories : list PostCategoryEntry }.

Definition entryFor (now : Timestamp) (postId categoryId : nat)
    (categoryName categorySlug : string) : PostCategoryEntry :=
  mkEntry (PostCategory.mk 0 postId categoryId now)
    (Category.mk categoryId categoryName None categorySlug None None None
       true 0 0 now now).

(** The body of the grouping loop. *)
Definition groupStep (now : Timestamp) (postsMap : JsMap.t PostWithDetails)
    (row : Row) : JsMap.t PostWithDetails :=
  let postId := Post.id (rowPost row) in
  let postsMap :=
    if negb (JsMap.has postId postsMap)
    then JsMap.set postId (mkDetails (rowPost row) (rowAuthor row) []) postsMap
    else postsMap in
  match JsMap.get postId postsMap, rowCategoryId row, rowCategoryName row with
  | Some post, Some categoryId, Some categoryName =>
      if truthyNat categoryId && truthyString categoryName
         && negb (existsb
                    (fun c => PostCategory.categoryId (junction c) =? categoryId)
                    (postCategories post))
      then JsMap.modify postId
             (fun p => mkDetails (detailsPost p) (author p)
                         (postCategories p
                          ++ [entryFor now postId categoryId categoryName
                                (orElse (rowCategorySlug row) "")]))
             postsMap
      else postsMap
  | _, _, _ => postsMap
  end.

Definition groupRows (now : Timestamp) (rows : list Row) : list PostWithDetails :=
  JsMap.values (fold_left (groupStep now) rows JsMap.empty).

Definition selectRow (db : DB) (r : JoinedRow) : Row :=
  mkRow (jPost r)
    (find (fun u => Post.authorId (jPost r) =? User.id u) (users db))
    (option_map PostCategory.categoryId (jPostCategory r))
    (option_map Category.name (jCategory r))
    (option_map Category.slug (jCategory r)).

Definition getPostsWithDetails (now : Timestamp) (db : DB) (o : Options)
  : list PostWithDetails :=
  groupRows now
    (map (selectRow db)
       (limitOffset (limit o) (offset o)
          (orderByCreatedAtDesc (where_ (conditions o) (joinedRows db))))).

(** [PostQueries.getPostBySlug]: the post is looked for among the results
    of [getPostsWithDetails({ limit: 1 })], and its view count is
    incremented, at a later time, when it is there. *)
Definition getPostBySlug (now later : Timestamp) (db : DB) (slug : string)
  : option PostWithDetails * DB :=
  let results := getPostsWithDetails now db (mkOptions 1 0 None None None None) in
  match find (fun p => String.eqb (Post.slug (detailsPost p)) slug) results with
  | Some post =>
      (Some post, incrementViewCount (Post.id (detailsPost post)) later db)
  | None => (None, db)
  end.

End PostQueries.

(* ===================================================================== *)
(** ** src/lib/db-utils.ts: CategoryQueries.getCategoryWithPosts *)
(* ===================================================================== *)

Module CategoryQueries.
Import Storage.



End CategoryQueries.

(* ===================================================================== *)
(** ** src/server/api/routers/post.ts, second half: the tag router *)
(* ===================================================================== *)

(** Rows of the [tags] table. *)
Module Tag.
Record t := mk {
  id : nat;
  name : string;
  slug : string;
  description : option string;
  color : option string;
  usageCount : nat;
  createdAt : Timestamp;
  updatedAt : Timestamp }.
End Tag.

(** Rows of the [post_tags] junction table. *)
Module PostTag.
Record t := mk {
  id : nat;
  postId : nat;
  tagId : nat;
  createdAt : Timestamp }.
End PostTag.

Module TagStorage.
Import Storage.

(** The two tables the tag router writes and reads besides [posts], and
    the sequence behind the key of [tags]. *)
Record TagDB := mkTagDB {
  tags : list Tag.t;
  postTags : list PostTag.t;
  tagsSeq : nat }.

Definition isHexDigit (c : ascii) : bool :=
  Utils.inRange 48 57 c || Utils.inRange 65 70 c || Utils.inRange 97 102 c.

(** [/^#[0-9A-Fa-f]{6}$/], which is also the pattern of the check
    constraint [tag_color_hex_format]. *)
Definition isHexColor (s : string) : bool :=
  match s with
  | String c digits =>
      Ascii.eqb c "#" && (String.length digits =? 6)
      && Utils.allChars isHexDigit digits
  | EmptyString => false
  end.


(** Column types, check constraints and unique indexes of [tags] for a
    row a statement writes: [varchar(50)], [varchar(60)] and
    [varchar(7)], [tag_name_min_length], [tag_color_hex_format], the
    primary key, [tags_name_idx] and [tags_slug_idx] against the [others]
    rows of the table. *)
Definition tagRowChecks (others : list Tag.t) (t : Tag.t)
  : list (bool * PgError) :=
  [ (String.length (Tag.name t) <=? 50, string_data_right_truncation);
    (String.length (Tag.slug t) <=? 60, string_data_right_truncation);
    (match Tag.color t with
     | Some c => String.length c <=? 7
     | None => true
     end, string_data_right_truncation);
    (2 <=? String.length (Tag.name t), check_violation);
    (match Tag.color t with
     | Some c => isHexColor c
     | None => true
     end, check_violation);
    (negb (existsb (fun q => Tag.id q =? Tag.id t) others), unique_violation);
    (negb (existsb (fun q => String.eqb (Tag.name q) (Tag.name t)) others),
     unique_violation);
    (negb (existsb (fun q => String.eqb (Tag.slug q) (Tag.slug t)) others),
     unique_violation) ].

(** [INSERT INTO tags (name, slug, description, color, usage_count)
    VALUES (..., 0) RETURNING *]. *)
Definition insertTag (name slug : string) (description color : option string)
    (now : Timestamp) (db : TagDB) : Outcome (Tag.t * TagDB) :=
  let t := Tag.mk (S (tagsSeq db)) name slug description color 0 now now in
  match firstViolation (tagRowChecks (tags db) t) with
  | Some e => Raised e
  | None => Done (t, mkTagDB (tags db ++ [t]) (postTags db) (S (tagsSeq db)))
  end.

(** The columns an [UPDATE tags SET ...] statement assigns; [None] leaves
    the column out of the [SET] clause, [Some None] sets it to null. *)
Record TagPatch := mkTagPatch {
  setTagName : option string;
  setTagSlug : option string;
  setTagDescription : option (option string);
  setTagColor : option (option string);
  setTagUpdatedAt : Timestamp }.

Definition applyTagPatch (patch : TagPatch) (t : Tag.t) : Tag.t :=
  Tag.mk (Tag.id t)
    (orElse (setTagName patch) (Tag.name t))
    (orElse (setTagSlug patch) (Tag.slug t))
    (orElse (setTagDescription patch) (Tag.description t))
    (orElse (setTagColor patch) (Tag.color t))
    (Tag.usageCount t) (Tag.createdAt t) (setTagUpdatedAt patch).

(** [UPDATE tags SET ... WHERE id = i RETURNING *]. *)
Definition updateTagById (i : nat) (patch : TagPatch) (db : TagDB)
  : Outcome (list Tag.t * TagDB) :=
  let hit := filter (fun t => Tag.id t =? i) (tags db) in
  let others := filter (fun t => negb (Tag.id t =? i)) (tags db) in
  let updated := map (applyTagPatch patch) hit in
  match firstViolation (flat_map (tagRowChecks others) updated) with
  | Some e => Raised e
  | None =>
      Done (updated,
            mkTagDB (map (fun t => if Tag.id t =? i then applyTagPatch patch t else t)
                         (tags db))
                    (postTags db) (tagsSeq db))
  end.

(** [DELETE FROM tags WHERE id = i]; the junction rows that reference a
    deleted tag go with it ([post_tags_tag_fk], [ON DELETE CASCADE]). *)
Definition deleteTagById (i : nat) (db : TagDB) : TagDB :=
  let hit := filter (fun t => Tag.id t =? i) (tags db) in
  mkTagDB (filter (fun t => negb (Tag.id t =? i)) (tags db))
          (filter (fun r => negb (existsb (fun t => Tag.id t =? PostTag.tagId r) hit))
                  (postTags db))
          (tagsSeq db).

(** [ORDER BY usage_count DESC], as a stable insertion sort. *)
Fixpoint insertByUsageCountDesc (t : Tag.t) (sorted : list Tag.t) : list Tag.t :=
  match sorted with
  | [] => [t]
  | x :: rest =>
      if Tag.usageCount x <=? Tag.usageCount t
      then t :: sorted
      else x :: insertByUsageCountDesc t rest
  end.

Definition orderByUsageCountDesc (rows : list Tag.t) : list Tag.t :=
  fold_right insertByUsageCountDesc [] rows.

(** The rows of [post_tags LEFT JOIN posts ON post_id = posts.id AND
    posts.published = true] for one junction row: one per matching post,
    or one with the post side null. *)
Definition leftJoinPublishedPost (posts : list Post.t) (r : PostTag.t)
  : list (PostTag.t * option Post.t) :=
  match filter (fun p => (PostTag.postId r =? Post.id p)
                         && Bool.eqb (Post.published p) true) posts with
  | [] => [(r, None)]
  | ps => map (fun p => (r, Some p)) ps
  end.

End TagStorage.

Module TagRouter.
Import Storage TagStorage Validations TRPC.

(** [.replace(/^-+|-+$/g, "")]: every hyphen at the start and every
    hyphen at the end is removed. *)
Fixpoint dropLeadingHyphens (s : string) : string :=
  match s with
  | EmptyString => EmptyString
  | String c s' => if Ascii.eqb c "-" then dropLeadingHyphens s' else s
  end.

Fixpoint dropTrailingHyphens (s : string) : string :=
  match s with
  | EmptyString => EmptyString
  | String c s' =>
      let r := dropTrailingHyphens s' in
      if Ascii.eqb c "-" && Utils.isEmpty r then EmptyString else String c r
  end.

(** The slug [create] and [update] generate from a tag name. *)
Definition tagSlug (name : string) : string :=
  dropTrailingHyphens
    (dropLeadingHyphens (Utils.replaceNonAlnum (Utils.toLowerCase name))).

(** What a client sends to [tag.create]; a description or colour that is
    null or left out is stored as null. *)
Record CreateTagInput := mkCreateTag {
  tagName : string;
  tagDescription : option string;
  tagColor : option string }.

(** [createTagSchema]: the length checks of the name run on the text as
    sent, the trim after them. *)
Definition createTagSchema (r : CreateTagInput) : option CreateTagInput :=
  if (2 <=? String.length (tagName r)) && (String.length (tagName r) <=? 50)
     && optional (fun d => String.length d <=? 200) (tagDescription r)
     && optional isHexColor (tagColor r)
  then Some (mkCreateTag (Utils.trim (tagName r)) (tagDescription r) (tagColor r))
  else None.

(** [tag.create]. *)
Definition createHandler (now : Timestamp) (db : TagDB) (ctx : Context)
    (input : CreateTagInput) : Result Tag.t * TagDB :=
  let existing :=
    firstn 1 (filter (fun t => String.eqb (Tag.name t) (tagName input)) (tags db)) in
  if 0 <? List.length existing
  then (Err (Thrown CONFLICT "A tag with this name already exists"), db)
  else
    let slug := tagSlug (tagName input) in
    let existingSlug :=
      firstn 1 (filter (fun t => String.eqb (Tag.slug t) slug) (tags db)) in
    if 0 <? List.length existingSlug
    then (Err (Thrown CONFLICT "A tag with this slug already exists"), db)
    else
      match insertTag (tagName input) slug (tagDescription input)
              (tagColor input) now db with
      | Raised _ => (Err (Thrown INTERNAL_SERVER_ERROR "Failed to create tag"), db)
      | Done (newTag, db1) => (Ok newTag, db1)
      end.

Definition create (now : Timestamp) (db : TagDB) (ctx : Context)
    (request : CreateTagInput) : Result Tag.t * TagDB :=
  protectedProcedure createTagSchema (createHandler now db)
    (fun e => (Err e, db)) ctx request.

(** What a client sends to [tag.update]: a field left out is [None], a
    description or colour sent as null is [Some None]. *)
Record UpdateTagInput := mkUpdateTag {
  updTagId : nat;
  updTagName : option string;
  updTagDescription : option (option string);
  updTagColor : option (option string) }.

Definition isSome {A : Type} (o : option A) : bool :=
  match o with Some _ => true | None => false end.

(** [updateTagSchema], with its refinement: at least one field besides
    the id is there. *)
Definition updateTagSchema (r : UpdateTagInput) : option UpdateTagInput :=
  if (0 <? updTagId r)
     && optional (fun n => (2 <=? String.length n) && (String.length n <=? 50))
          (updTagName r)
     && optional (optional (fun d => String.length d <=? 200)) (updTagDescription r)
     && optional (optional isHexColor) (updTagColor r)
     && (isSome (updTagName r) || isSome (updTagDescription r)
         || isSome (updTagColor r))
  then Some (mkUpdateTag (updTagId r) (option_map Utils.trim (updTagName r))
               (updTagDescription r) (updTagColor r))
  else None.

(** [tag.update]. *)
Definition updateHandler (now : Timestamp) (db : TagDB) (ctx : Context)
    (input : UpdateTagInput) : Result Tag.t * TagDB :=
  let id := updTagId input in
  match firstn 1 (filter (fun t => Tag.id t =? id) (tags db)) with
  | [] => (Err (Thrown NOT_FOUND "Tag not found"), db)
  | existing :: _ =>
      let renamed :=
        match updTagName input with
        | Some n =>
            if truthyString n && negb (String.eqb n (Tag.name existing))
            then Some n else None
        | None => None
        end in
      let nameConflict :=
        match renamed with
        | Some n =>
            firstn 1 (filter (fun t => String.eqb (Tag.name t) n && (Tag.id t =? id))
                             (tags db))
        | None => []
        end in
      if 0 <? List.length nameConflict
      then (Err (Thrown CONFLICT "A tag with this name already exists"), db)
      else
        let payloadToUpdate :=
          mkTagPatch (updTagName input) (option_map tagSlug renamed)
            (updTagDescription input) (updTagColor input) now in
        match updateTagById id payloadToUpdate db with
        | Raised _ => (Err (Thrown INTERNAL_SERVER_ERROR "Failed to update tag"), db)
        | Done ([], db1) =>
            (Err (Thrown INTERNAL_SERVER_ERROR "Failed to update tag"), db1)
        | Done (updatedTag :: _, db1) => (Ok updatedTag, db1)
        end
  end.

Definition update (now : Timestamp) (db : TagDB) (ctx : Context)
    (request : UpdateTagInput) : Result Tag.t * TagDB :=
  protectedProcedure updateTagSchema (updateHandler now db)
    (fun e => (Err e, db)) ctx request.

(** The columns [getPopular] selects. *)
Record PopularTag := mkPopularTag {
  popularId : nat;
  popularName : string;
  popularSlug : string;
  popularColor : option string;
  popularUsageCount : nat }.

Definition selectPopular (t : Tag.t) : PopularTag :=
  mkPopularTag (Tag.id t) (Tag.name t) (Tag.slug t) (Tag.color t)
    (Tag.usageCount t).

(** [z.object({ limit: z.number().min(1).max(50).default(10) })]. *)
Definition popularSchema (limit : option nat) : option nat :=
  let l := default 10 limit in
  if (1 <=? l) && (l <=? 50) then Some l else None.

(** [tag.getPopular]: [WHERE usage_count = 0 ORDER BY usage_count DESC
    LIMIT limit]. *)
Definition getPopularHandler (db : TagDB) (limit : nat)
  : Result (list PopularTag) :=
  Ok (map selectPopular
        (firstn limit
           (orderByUsageCountDesc
              (filter (fun t => Tag.usageCount t =? 0) (tags db))))).

Definition getPopular (db : TagDB) (request : option nat)
  : Result (list PopularTag) :=
  publicProcedure popularSchema (getPopularHandler db) Err request.

(** What [tag.getBySlug] takes and returns: the tag, with the post count
    when it was asked for. *)
Record GetTagInput := mkGetTag {
  getSlug : string;
  includePostCount : option bool }.

Record TagWithCount := mkTagWithCount {
  tag : Tag.t;
  postCount : option nat }.

Definition getTagSchema (r : GetTagInput) : option (string * bool) :=
  if 1 <=? String.length (getSlug r)
  then Some (getSlug r, default false (includePostCount r)) else None.

(** [tag.getBySlug]; [count()] counts the rows of the join. *)
Definition getBySlugHandler (posts : list Post.t) (db : TagDB)
    (input : string * bool) : Result TagWithCount :=
  match firstn 1 (filter (fun t => String.eqb (Tag.slug t) (fst input)) (tags db)) with
  | [] => Err (Thrown NOT_FOUND "Tag not found")
  | result :: _ =>
      if snd input then
        let rows :=
          flat_map (leftJoinPublishedPost posts)
            (filter (fun r => PostTag.tagId r =? Tag.id result) (postTags db)) in
        Ok (mkTagWithCount result (Some (List.length rows)))
      else Ok (mkTagWithCount result None)
  end.

Definition getBySlug (posts : list Post.t) (db : TagDB) (request : GetTagInput)
  : Result TagWithCount :=
  publicProcedure getTagSchema (getBySlugHandler posts db) Err request.

(** An error of [tag.delete]: a [TRPCError] of one of the codes above, or
    one with the code [PRECONDITION_FAILED]. *)
Inductive DeleteError :=
  | Failed (e : Error)
  | PreconditionFailed (message : string).

Inductive DeleteResult :=
  | Deleted (success : bool) (message : string)
  | NotDeleted (e : DeleteError).

(** [tag.delete]. *)
Definition deleteHandler (db : TagDB) (ctx : Context) (id : nat)
  : DeleteResult * TagDB :=
  match firstn 1 (filter (fun t => Tag.id t =? id) (tags db)) with
  | [] => (NotDeleted (Failed (Thrown NOT_FOUND "Tag not found")), db)
  | _ :: _ =>
      let usage :=
        List.length (filter (fun r => PostTag.tagId r =? id) (postTags db)) in
      if 0 <? usage
      then (NotDeleted
              (PreconditionFailed
                 "Cannot delete tag that is currently in use by posts"), db)
      else (Deleted true "Tag deleted successfully", deleteTagById id db)
  end.

Definition delete (db : TagDB) (ctx : Context) (request : nat)
  : DeleteResult * TagDB :=
  protectedProcedure (fun i => if 0 <? i then Some i else None)
    (deleteHandler db) (fun e => (NotDeleted (Failed e), db)) ctx request.

End TagRouter.

(* ===================================================================== *)
(** ** The specification's description of slugs *)
(* ===================================================================== *)

(** Slug generation as the specification words it: the lowercase form of
    the text, every maximal run of non-alphanumeric characters collapsed
    to a single hyphen, leading and trailing hyphens trimmed.
    Alphanumeric characters are the letters a-z and the digits. *)
Module SlugSpec.

(** A character outside the class is the last of its run when the next
    character is in the class or the text ends there: the run's hyphen
    stands in its place, the run's other characters disappear. *)
Fixpoint collapseRuns (s : string) : string :=
  match s with
  | EmptyString => EmptyString
  | String c s' =>
      if Utils.isLowerAlnum c then String c (collapseRuns s')
      else
        match s' with
        | EmptyString => String "-" EmptyString
        | String d _ =>
            if Utils.isLowerAlnum d then String "-" (collapseRuns s')
            else collapseRuns s'
        end
  end.

Fixpoint trimLeadingHyphens (s : string) : string :=
  match s with
  | EmptyString => EmptyString
  | String c s' => if Ascii.eqb c "-" then trimLeadingHyphens s' else s
  end.

Fixpoint trimTrailingHyphens (s : string) : string :=
  match s with
  | EmptyString => EmptyString
  | String c s' =>
      let r := trimTrailingHyphens s' in
      if Ascii.eqb c "-" && Utils.isEmpty r then EmptyString else String c r
  end.

Definition slug (text : string) : string :=
  trimTrailingHyphens
    (trimLeadingHyphens (collapseRuns (Utils.toLowerCase text))).

(** The text cut at every character outside the class: the pieces between
    two cuts, empty ones included. *)
Fixpoint fields (s : string) : list string :=
  match s with
  | EmptyString => [EmptyString]
  | String c s' =>
      if Utils.isLowerAlnum c then
        match fields s' with
        | f :: fs => String c f :: fs
        | [] => [String c EmptyString]
        end
      else EmptyString :: fields s'
  end.

(** An ASCII letter or digit. *)
Definition isAsciiAlnum (c : ascii) : bool :=
  Utils.inRange 97 122 c || Utils.inRange 65 90 c || Utils.inRange 48 57 c.

Definition nonEmpty (f : string) : bool := negb (Utils.isEmpty f).

(** The maximal alphanumeric runs of the text, in order. *)
Definition words (s : string) : list string :=
  filter nonEmpty (fields s).

(** A word: non-empty, of characters of the class only. *)
Definition isWord (w : string) : Prop :=
  Utils.isEmpty w = false /\ Utils.allChars Utils.isLowerAlnum w = true.

(** What follows the first word of a hyphen-joined list. *)
Definition joinTail (ws : list string) : string :=
  match ws with
  | [] => ""
  | _ :: _ => String "-" (String.concat "-" ws)
  end.

End SlugSpec.

(* ===================================================================== *)
(** ** What the shape-transformer computes, row by row *)
(* ===================================================================== *)

Module Grouping.
Import PostRouter.

Definition rowId (r : RawPostQueryResult) : nat := Post.id (postData r).

Definition memNat (k : nat) (l : list nat) : bool := existsb (Nat.eqb k) l.

(** The non-null categories of the rows of post [k], in row order, one per
    row. *)
Definition categoriesOf (k : nat) (rows : list RawPostQueryResult)
  : list Category.t :=
  flat_map (fun r => if rowId r =? k
                     then match categories r with Some c => [c] | None => [] end
                     else [])
           rows.

Definition extend (cs : list Category.t) (p : PostWithCategories)
  : PostWithCategories :=
  mkPostWithCategories (post p) (postCategories p ++ cs).

Definition extendEntry (rows : list RawPostQueryResult)
    (kv : nat * PostWithCategories) : nat * PostWithCategories :=
  (fst kv, extend (categoriesOf (fst kv) rows) (snd kv)).

(** The records of the posts that first appear in [rows] and are not among
    [seen], in order of first appearance: each has the columns of its
    first row and the categories of all its rows. *)
Fixpoint firstAppearances (seen : list nat) (rows : list RawPostQueryResult)
  : list (nat * PostWithCategories) :=
  match rows with
  | [] => []
  | r :: rest =>
      if memNat (rowId r) seen then firstAppearances seen rest
      else (rowId r, mkPostWithCategories (postData r) (categoriesOf (rowId r) rows))
           :: firstAppearances (seen ++ [rowId r]) rest
  end.

Definition postId (p : PostWithCategories) : nat := Post.id (post p).

(** Descending order of creation time. *)
Definition newerFirst (a b : Post.t) : Prop := Post.createdAt b <= Post.createdAt a.

End Grouping.

(** A record of the sibling grouping loop lists no category twice. *)
Definition distinctCategories (p : PostQueries.PostWithDetails) : Prop :=
  NoDup (map (fun c => PostCategory.categoryId (PostQueries.junction c))
             (PostQueries.postCategories p)).

(* ===================================================================== *)
(** ** The paths through [post.update] *)
(* ===================================================================== *)

Module UpdatePaths.
Import Storage Validations TRPC.

(** The six ways the handler of [post.update] ends, each with the
    statements that ran and the answer and database it leaves. *)
Inductive Path (now : Timestamp) (db : DB) (input : UpdatePostInput)
  : Result Post.t * DB -> Prop :=
  | PostRejected e :
      updatePostById (updId input) (PostRouter.updatePayload now input) db
      = Raised e ->
      Path now db input
        (Err (Thrown INTERNAL_SERVER_ERROR "Failed to update post"), db)
  | NoSuchPost :
      updatePostById (updId input) (PostRouter.updatePayload now input) db
      = Done ([], db) ->
      Path now db input (Err (Thrown NOT_FOUND "Post not found"), db)
  | CategoriesKept p rest db1 :
      updatePostById (updId input) (PostRouter.updatePayload now input) db
      = Done (p :: rest, db1) ->
      updCategoryIds input = None ->
      Path now db input (Ok p, db1)
  | CategoriesCleared p rest db1 cs :
      updatePostById (updId input) (PostRouter.updatePayload now input) db
      = Done (p :: rest, db1) ->
      updCategoryIds input = Some cs ->
      (0 <? List.length cs) = false ->
      Path now db input (Ok p, deletePostCategoriesByPost (updId input) db1)
  | InsertRejected p rest db1 cs e :
      updatePostById (updId input) (PostRouter.updatePayload now input) db
      = Done (p :: rest, db1) ->
      updCategoryIds input = Some cs ->
      (0 <? List.length cs) = true ->
      insertPostCategories (PostRouter.junctionValues (updId input) cs) now
        (deletePostCategoriesByPost (updId input) db1) = Raised e ->
      Path now db input
        (Err (Thrown INTERNAL_SERVER_ERROR "Failed to update post"),
         deletePostCategoriesByPost (updId input) db1)
  | CategoriesReplaced p rest db1 cs db3 :
      updatePostById (updId input) (PostRouter.updatePayload now input) db
      = Done (p :: rest, db1) ->
      updCategoryIds input = Some cs ->
      (0 <? List.length cs) = true ->
      insertPostCategories (PostRouter.junctionValues (updId input) cs) now
        (deletePostCategoriesByPost (updId input) db1) = Done db3 ->
      Path now db input (Ok p, db3).

(** The (post, category) pairs of the junction table. *)
Definition pairs (db : DB) : list (nat * nat) :=
  map PostCategory.pair (postCategories db).

Definition otherPost (i : nat) (r : PostCategory.t) : bool :=
  negb (PostCategory.postId r =? i).

End UpdatePaths.

Module Frame.
Import Storage Validations.

(** What an update may change in a row of [posts]: the row keeps its id;
    a row of another post is untouched; a column differs only when the
    request supplies it, the slug only when the request supplies a title,
    from which it is generated; [updatedAt] is kept or set to the time of
    the update. *)
Definition rowFrame (now : Timestamp) (request : UpdatePostInput)
    (p p' : Post.t) : Prop :=
  Post.id p' = Post.id p
  /\ (Post.id p <> updId request -> p' = p)
  /\ (updTitle request = None ->
      Post.title p' = Post.title p /\ Post.slug p' = Post.slug p)
  /\ (Post.title p' <> Post.title p -> updTitle request = Some (Post.title p'))
  /\ (Post.slug p' <> Post.slug p ->
      exists t, updTitle request = Some t /\ Post.slug p' = Utils.generateSlug t)
  /\ (updContent request = None -> Post.content p' = Post.content p)
  /\ (Post.content p' <> Post.content p -> updContent request = Post.content p')
  /\ (updPublished request = None -> Post.published p' = Post.published p)
  /\ (Post.published p' <> Post.published p ->
      updPublished request = Some (Post.published p'))
  /\ Post.excerpt p' = Post.excerpt p
  /\ Post.authorId p' = Post.authorId p
  /\ Post.featured p' = Post.featured p
  /\ Post.viewCount p' = Post.viewCount p
  /\ Post.readingTime p' = Post.readingTime p
  /\ Post.seoTitle p' = Post.seoTitle p
  /\ Post.seoDescription p' = Post.seoDescription p
  /\ Post.publishedAt p' = Post.publishedAt p
  /\ Post.createdAt p' = Post.createdAt p
  /\ (Post.updatedAt p' = Post.updatedAt p \/ Post.updatedAt p' = now).

End Frame.

(* ===================================================================== *)
(** ** The storage contract, as propositions *)
(* ===================================================================== *)

Module Invariant.
Import Storage.

Definition postRowOk (db : DB) (p : Post.t) : Prop :=
  5 <= String.length (Post.title p) /\ 3 <= String.length (Post.slug p)
  /\ hasUser db (Post.authorId p) = true /\ Post.id p <= postsSeq db.

Definition categoryRowOk (db : DB) (c : Category.t) : Prop :=
  2 <= String.length (Category.name c) /\ 2 <= String.length (Category.slug c)
  /\ Category.id c <= categoriesSeq db.

Definition junctionRowOk (db : DB) (r : PostCategory.t) : Prop :=
  hasPost db (PostCategory.postId r) = true
  /\ hasCategory db (PostCategory.categoryId r) = true
  /\ PostCategory.id r <= postCategoriesSeq db.

(** What [consistent] decides. *)
Record Consistent (db : DB) : Prop := mkConsistent {
  userIds : NoDup (map User.id (users db));
  postIds : NoDup (map Post.id (posts db));
  postSlugs : NoDup (map Post.slug (posts db));
  postRows : Forall (postRowOk db) (posts db);
  categoryIds : NoDup (map Category.id (categories db));
  categoryNames : NoDup (map Category.name (categories db));
  categorySlugs : NoDup (map Category.slug (categories db));
  categoryRows : Forall (categoryRowOk db) (categories db);
  junctionIds : NoDup (map PostCategory.id (postCategories db));
  junctionPairs : NoDup (map PostCategory.pair (postCategories db));
  junctionRowsOk : Forall (junctionRowOk db) (postCategories db) }.

End Invariant.

(* ===================================================================== *)
(** ** A small database for the scenarios *)
(* ===================================================================== *)

Module Sample.
Import Storage Validations TRPC.

Definition alice : User.t := User.mk 1 "alice" "alice@example.org" true true 0 0.
Definition bob : User.t := User.mk 2 "bob" "bob@example.org" true true 0 0.

Definition news : Category.t :=
  Category.mk 1 "News" None "news" None None None true 0 0 5 5.
Definition tech : Category.t :=
  Category.mk 2 "Tech & Science" None "tech-science" None None None true 0 0 5 5.
Definition science : Category.t :=
  Category.mk 3 "Science" None "science" None None None true 0 0 5 5.

Definition firstPost : Post.t :=
  Post.mk 1 "My First Post" (Some "Some content here") None 1 "my-first-post"
    false false 0 (Some 1) None None None 10 10.
Definition sameTitle : Post.t :=
  Post.mk 2 "Same Title" (Some "Written by Bob") None 2 "same-title"
    true false 0 (Some 1) None None None 20 20.

(** Alice's post is filed under News and Tech & Science, Bob's under
    nothing. *)
Definition db : DB :=
  mkDB [alice; bob] [firstPost; sameTitle] [news; tech; science]
       [PostCategory.mk 1 1 1 10; PostCategory.mk 2 1 2 10] 2 3 2.

(** The same database without the user whose id [create] writes as the
    author. *)
Definition dbWithoutAuthor : DB :=
  mkDB [bob] [sameTitle] [news; tech; science] [] 2 3 2.

Definition signedIn : Context := mkContext (Some "user_2NNEqL2nrIRdJ194") (Some "sess_1").

Definition byAuthor (a : nat) : PostFiltersRequest :=
  mkFiltersRequest None None None (Some a) None None.

Definition createRequest (title : string) : CreatePostRequest :=
  mkCreateRequest title "Some content here" None None None.

Definition setCategories (postId : nat) (categoryIds : list nat) : UpdatePostInput :=
  mkUpdateInput postId None None None (Some categoryIds).

End Sample.

(* ===================================================================== *)
(** ** Orders and shapes the further properties are stated with *)
(* ===================================================================== *)

Module ArraySpec.

(** The order [sortBy] is asked to establish on the keys. *)
Definition ordered {T : Type} (key : T -> nat) (direction : Utils.Direction)
    (a b : T) : Prop :=
  match direction with
  | Utils.asc => key a <= key b
  | Utils.desc => key b <= key a
  end.

End ArraySpec.

Module SearchSpec.

(** A character that stands for itself in a [LIKE] pattern. *)
Definition isLiteral (c : ascii) : bool :=
  negb (Ascii.eqb c "%") && negb (Ascii.eqb c "_") && negb (Ascii.eqb c "\").

(** [text] has [piece] somewhere in it, letter case included. *)
Definition contains (piece text : string) : Prop :=
  exists before after, text = (before ++ piece ++ after)%string.

End SearchSpec.

Module GroupingSpec.
Import PostQueries.

(** What the grouping loop of [getPostsWithDetails] keeps true of its
    map, for the rows [rs] processed so far: keys are distinct; an entry
    is keyed by the id of its post, which is the post of a processed row;
    each listed category is the category id of a processed row of that
    post. *)
Definition invariant (rs : list Row) (m : JsMap.t PostWithDetails) : Prop :=
  NoDup (map fst m)
  /\ forall k d, In (k, d) m ->
       k = Post.id (detailsPost d)
       /\ (exists row, In row rs /\ rowPost row = detailsPost d)
       /\ forall e, In e (postCategories d) ->
            exists row, In row rs /\ Post.id (rowPost row) = k
                        /\ rowCategoryId row
                           = Some (PostCategory.categoryId (junction e)).

End GroupingSpec.

(* ===================================================================== *)
(** * Properties *)
(* ===================================================================== *)

(** ** Slug generation *)

Section SlugFacts.
Import Utils SlugSpec.

Example generateSlug_hello : generateSlug "Hello World!!" = "hello-world".
Proof. reflexivity. Qed.

Example generateSlug_tech : generateSlug "Tech & Science" = "tech-science".
Proof. reflexivity. Qed.

Example generateSlug_padded :
  generateSlug "  --My  First__Post--  " = "my-first-post".
Proof. reflexivity. Qed.

Example generateSlug_symbols : generateSlug " !?#-- " = "".
Proof. reflexivity. Qed.

Lemma alnum_not_hyphen c : isLowerAlnum c = true -> Ascii.eqb c "-" = false.
Proof.
  intros H. destruct (Ascii.eqb c "-") eqn:E; [|reflexivity].
  apply Ascii.eqb_eq in E. subst c. discriminate H.
Qed.

Lemma whiteSpace_not_alnum c : isWhiteSpace c = true -> isLowerAlnum c = false.
Proof.
  unfold isWhiteSpace, isLowerAlnum, inRange. intros H.
  repeat (apply orb_prop in H; destruct H as [H|H]);
    try (apply andb_prop in H; destruct H as [H1 H2];
         apply Nat.leb_le in H1; apply Nat.leb_le in H2);
    try apply Nat.eqb_eq in H;
    apply orb_false_intro; apply andb_false_iff;
    rewrite !Nat.leb_gt; lia.
Qed.

Lemma isEmpty_true s : isEmpty s = true -> s = "".
Proof. destruct s; [reflexivity|discriminate]. Qed.

Lemma isEmpty_false s : isEmpty s = false -> s <> "".
Proof. destruct s; [discriminate|]. intros _ H; discriminate H. Qed.

(** Inside a run the scan emits what it emits outside one, without the
    run's hyphen. *)
Lemma replaceRuns_true s :
  replaceRuns true s = dropLeadingHyphen (replaceRuns false s).
Proof.
  destruct s as [|c s]; simpl; [reflexivity|].
  destruct (isLowerAlnum c) eqn:E; simpl; [|reflexivity].
  now rewrite (alnum_not_hyphen _ E).
Qed.

Lemma replaceRuns_true_empty s :
  replaceRuns true s = "" <-> anyChar isLowerAlnum s = false.
Proof.
  induction s as [|c s IH]; simpl; [tauto|].
  destruct (isLowerAlnum c); simpl; [|exact IH].
  split; intros H; discriminate H.
Qed.

Lemma dropTrailingHyphen_cons c s :
  Ascii.eqb c "-" = false ->
  dropTrailingHyphen (String c s) = String c (dropTrailingHyphen s).
Proof.
  intros H. simpl. destruct s; [now rewrite H|reflexivity].
Qed.

Lemma dropTrailingHyphen_hyphen s :
  dropTrailingHyphen (String "-" s) =
  if isEmpty s then "" else String "-" (dropTrailingHyphen s).
Proof. destruct s; reflexivity. Qed.


Lemma fields_eta s : fields s = hd "" (fields s) :: tl (fields s).
Proof.
  destruct s as [|c s]; simpl; [reflexivity|].
  destruct (isLowerAlnum c); [|reflexivity].
  destruct (fields s); reflexivity.
Qed.

Lemma fields_cons_alnum c s :
  isLowerAlnum c = true ->
  fields (String c s) = String c (hd "" (fields s)) :: tl (fields s).
Proof.
  intros H. simpl. rewrite H. rewrite (fields_eta s) at 1. reflexivity.
Qed.

Lemma fields_cons_other c s :
  isLowerAlnum c = false -> fields (String c s) = "" :: fields s.
Proof. intros H. simpl. now rewrite H. Qed.

Lemma words_cons_other c s :
  isLowerAlnum c = false -> words (String c s) = words s.
Proof. intros H. unfold words. now rewrite (fields_cons_other _ _ H). Qed.

Lemma words_cons_alnum c s :
  isLowerAlnum c = true ->
  words (String c s) =
  String c (hd "" (fields s)) :: filter nonEmpty (tl (fields s)).
Proof. intros H. unfold words. now rewrite (fields_cons_alnum _ _ H). Qed.

Lemma words_eta s :
  words s =
  (if isEmpty (hd "" (fields s)) then [] else [hd "" (fields s)])
  ++ filter nonEmpty (tl (fields s)).
Proof.
  unfold words. rewrite (fields_eta s) at 1. simpl. unfold nonEmpty at 1.
  destruct (isEmpty (hd "" (fields s))); reflexivity.
Qed.

Lemma words_nil s : words s = [] <-> anyChar isLowerAlnum s = false.
Proof.
  induction s as [|c s IH]; [simpl; tauto|].
  destruct (isLowerAlnum c) eqn:E.
  - rewrite (words_cons_alnum _ _ E). simpl. rewrite E. simpl.
    split; intros H; discriminate H.
  - rewrite (words_cons_other _ _ E). simpl. rewrite E. exact IH.
Qed.

Lemma append_empty_r s : (s ++ "")%string = s.
Proof. induction s as [|c s IH]; simpl; [reflexivity|now rewrite IH]. Qed.

Lemma concat_cons w ws :
  String.concat "-" (w :: ws) = (w ++ joinTail ws)%string.
Proof. destruct ws; simpl; [now rewrite append_empty_r|reflexivity]. Qed.

Lemma concat_words s :
  String.concat "-" (words s) =
  if isEmpty (hd "" (fields s))
  then String.concat "-" (filter nonEmpty (tl (fields s)))
  else (hd "" (fields s) ++ joinTail (filter nonEmpty (tl (fields s))))%string.
Proof.
  rewrite words_eta. destruct (isEmpty (hd "" (fields s))); simpl app.
  - reflexivity.
  - apply concat_cons.
Qed.

(** The scan, less a trailing hyphen, is the hyphen-joined list of the
    words; outside a run the first field comes first even when empty. *)
Lemma replaceRuns_fields s :
  dropTrailingHyphen (replaceRuns false s) =
    (hd "" (fields s) ++ joinTail (filter nonEmpty (tl (fields s))))%string
  /\ dropTrailingHyphen (replaceRuns true s) = String.concat "-" (words s).
Proof.
  induction s as [|c s [IHf IHt]]; [split; reflexivity|].
  destruct (isLowerAlnum c) eqn:E.
  - assert (Hf : dropTrailingHyphen (replaceRuns false (String c s)) =
                 (hd "" (fields (String c s))
                  ++ joinTail (filter nonEmpty (tl (fields (String c s)))))%string).
    { simpl replaceRuns. rewrite E.
      rewrite (dropTrailingHyphen_cons _ _ (alnum_not_hyphen _ E)), IHf.
      rewrite (fields_cons_alnum _ _ E). reflexivity. }
    split; [exact Hf|].
    rewrite replaceRuns_true. simpl replaceRuns. rewrite E. simpl dropLeadingHyphen.
    rewrite (alnum_not_hyphen _ E).
    simpl replaceRuns in Hf. rewrite E in Hf. rewrite Hf.
    rewrite concat_words, (fields_cons_alnum _ _ E). reflexivity.
  - simpl replaceRuns. rewrite E. rewrite (words_cons_other _ _ E).
    split; [|exact IHt].
    rewrite dropTrailingHyphen_hyphen, (fields_cons_other _ _ E).
    simpl hd. simpl tl. fold (words s).
    destruct (isEmpty (replaceRuns true s)) eqn:Em.
    + apply isEmpty_true in Em. apply replaceRuns_true_empty in Em.
      apply words_nil in Em. now rewrite Em.
    + rewrite IHt. destruct (words s) eqn:Ew; [|reflexivity].
      apply words_nil, replaceRuns_true_empty in Ew.
      rewrite Ew in Em. discriminate Em.
Qed.


(** [trim] removes no word. *)
Lemma words_trimStart s : words (trimStart s) = words s.
Proof.
  induction s as [|c s IH]; simpl; [reflexivity|].
  destruct (isWhiteSpace c) eqn:E; [|reflexivity].
  now rewrite IH, (words_cons_other _ _ (whiteSpace_not_alnum _ E)).
Qed.

Lemma fields_trimEnd s :
  hd "" (fields (trimEnd s)) = hd "" (fields s)
  /\ filter nonEmpty (tl (fields (trimEnd s))) = filter nonEmpty (tl (fields s)).
Proof.
  induction s as [|c s [IHh IHt]]; [split; reflexivity|].
  simpl trimEnd.
  destruct (isWhiteSpace c && isEmpty (trimEnd s)) eqn:E.
  - apply andb_prop in E. destruct E as [Ew Ee].
    apply isEmpty_true in Ee. rewrite Ee in IHh, IHt. simpl in IHh, IHt.
    rewrite (fields_cons_other _ _ (whiteSpace_not_alnum _ Ew)).
    simpl. rewrite (fields_eta s). simpl. rewrite <- IHh, <- IHt.
    split; reflexivity.
  - destruct (isLowerAlnum c) eqn:Ec.
    + rewrite !(fields_cons_alnum _ _ Ec). simpl. now rewrite IHh, IHt.
    + rewrite !(fields_cons_other _ _ Ec). simpl. split; [reflexivity|].
      rewrite (fields_eta s), (fields_eta (trimEnd s)). simpl.
      now rewrite IHh, IHt.
Qed.

Lemma words_trim s : words (trim s) = words s.
Proof.
  unfold trim. rewrite <- (words_trimStart s).
  rewrite !words_eta.
  destruct (fields_trimEnd (trimStart s)) as [Hh Ht]. now rewrite Hh, Ht.
Qed.

(** The slug is the hyphen-joined list of the words of the lower-cased
    text. *)
Lemma generateSlug_words text :
  generateSlug text = String.concat "-" (words (toLowerCase text)).
Proof.
  unfold generateSlug, stripEdgeHyphens, replaceNonAlnum.
  rewrite <- replaceRuns_true.
  rewrite (proj2 (replaceRuns_fields _)). now rewrite words_trim.
Qed.


(** *** Shape of a hyphen-joined list of words *)

Lemma allChars_app p a b :
  allChars p (a ++ b)%string = allChars p a && allChars p b.
Proof.
  induction a as [|c a IH]; simpl; [reflexivity|].
  now rewrite IH, andb_assoc.
Qed.

Lemma lastChar_cons c s : isEmpty s = false -> lastChar (String c s) = lastChar s.
Proof. destruct s; [discriminate|reflexivity]. Qed.

Lemma lastChar_app a b :
  isEmpty b = false -> lastChar (a ++ b)%string = lastChar b.
Proof.
  intros Hb. induction a as [|c a IH]; [reflexivity|].
  change (String c a ++ b)%string with (String c (a ++ b)%string).
  rewrite lastChar_cons; [exact IH|].
  destruct a; [exact Hb|reflexivity].
Qed.

Lemma allChars_weaken (p q : ascii -> bool) s :
  (forall c, p c = true -> q c = true) ->
  allChars p s = true -> allChars q s = true.
Proof.
  intros Hpq. induction s as [|c s IH]; simpl; [reflexivity|].
  intros H. apply andb_prop in H. destruct H as [Hc Hs].
  now rewrite (Hpq _ Hc), (IH Hs).
Qed.

Lemma alnum_lastChar s :
  allChars isLowerAlnum s = true -> isHyphen (lastChar s) = false.
Proof.
  induction s as [|c s IH]; [reflexivity|]. simpl allChars. intros H.
  apply andb_prop in H. destruct H as [Hc Hs].
  destruct s as [|d s]; [exact (alnum_not_hyphen _ Hc)|].
  rewrite lastChar_cons; [now apply IH|reflexivity].
Qed.

Lemma fields_alnum s :
  Forall (fun f => allChars isLowerAlnum f = true) (fields s).
Proof.
  induction s as [|c s IH]; [repeat constructor|].
  destruct (isLowerAlnum c) eqn:E.
  - rewrite (fields_cons_alnum _ _ E). rewrite (fields_eta s) in IH.
    inversion IH as [|f fs Hf Hfs]; subst. constructor; [|exact Hfs].
    simpl. now rewrite E, Hf.
  - rewrite (fields_cons_other _ _ E). now constructor.
Qed.

Lemma words_isWord s : Forall isWord (words s).
Proof.
  unfold words. apply Forall_forall. intros w Hw.
  apply filter_In in Hw. destruct Hw as [Hin Hne]. split.
  - unfold nonEmpty in Hne. now apply negb_true_iff in Hne.
  - exact (proj1 (Forall_forall _ _) (fields_alnum s) w Hin).
Qed.

Lemma concat_isWord w ws :
  Forall isWord (w :: ws) ->
  let j := String.concat "-" (w :: ws) in
  isEmpty j = false /\ allChars isSlugChar j = true
  /\ isHyphen (firstChar j) = false /\ isHyphen (lastChar j) = false.
Proof.
  revert w. induction ws as [|w' ws IH]; intros w Hall j; subst j;
    inversion Hall as [|? ? [Hne Hal] Hrest]; subst.
  - simpl. repeat split.
    + exact Hne.
    + revert Hal. apply allChars_weaken. intros c Hc.
      unfold isSlugChar. now rewrite Hc.
    + destruct w as [|c w]; [discriminate Hne|]. simpl in *.
      apply andb_prop in Hal. exact (alnum_not_hyphen _ (proj1 Hal)).
    + now apply alnum_lastChar.
  - destruct (IH w' Hrest) as (Je & Ja & _ & Jl).
    rewrite concat_cons. unfold joinTail.
    set (j := String.concat "-" (w' :: ws)) in *.
    repeat split.
    + destruct w; [discriminate Hne|reflexivity].
    + rewrite allChars_app. simpl. rewrite Ja.
      rewrite (allChars_weaken isLowerAlnum isSlugChar w); [reflexivity| |exact Hal].
      intros c Hc. unfold isSlugChar. now rewrite Hc.
    + destruct w as [|c w]; [discriminate Hne|]. simpl in *.
      apply andb_prop in Hal. exact (alnum_not_hyphen _ (proj1 Hal)).
    + rewrite lastChar_app; [|reflexivity].
      rewrite lastChar_cons; [exact Jl|exact Je].
Qed.

Lemma concat_words_valid s :
  anyChar isLowerAlnum s = true ->
  isValidSlug (String.concat "-" (words s)) = true.
Proof.
  intros H. pose proof (words_isWord s) as Hw.
  destruct (words s) as [|w ws] eqn:E.
  - apply words_nil in E. rewrite E in H. discriminate H.
  - destruct (concat_isWord w ws Hw) as (Je & Ja & Jf & Jl).
    unfold isValidSlug, slugRegex, startsWithHyphen, endsWithHyphen.
    now rewrite Je, Ja, Jf, Jl.
Qed.

Lemma concat_words_no_trailing_hyphen s :
  endsWithHyphen (String.concat "-" (words s)) = false.
Proof.
  pose proof (words_isWord s) as Hw.
  destruct (words s) as [|w ws]; [reflexivity|].
  exact (proj2 (proj2 (proj2 (concat_isWord w ws Hw)))).
Qed.


(** *** The specification's wording and the regular expressions agree *)

Lemma collapseRuns_replaceRuns s : collapseRuns s = replaceRuns false s.
Proof.
  induction s as [|c s IH]; [reflexivity|].
  simpl. destruct (isLowerAlnum c) eqn:Ec; [now rewrite IH|].
  destruct s as [|d s]; [reflexivity|].
  rewrite IH. simpl. destruct (isLowerAlnum d); reflexivity.
Qed.

Lemma replaceRuns_true_first s : isHyphen (firstChar (replaceRuns true s)) = false.
Proof.
  induction s as [|c s IH]; [reflexivity|]. simpl.
  destruct (isLowerAlnum c) eqn:E; [|exact IH].
  exact (alnum_not_hyphen _ E).
Qed.

Lemma trimLeadingHyphens_id s :
  isHyphen (firstChar s) = false -> trimLeadingHyphens s = s.
Proof. destruct s as [|c s]; simpl; [reflexivity|]. now intros ->. Qed.

Lemma trimLeadingHyphens_replaceRuns s :
  trimLeadingHyphens (replaceRuns false s) = replaceRuns true s.
Proof.
  destruct s as [|c s]; [reflexivity|]. simpl.
  destruct (isLowerAlnum c) eqn:E; simpl.
  - now rewrite (alnum_not_hyphen _ E).
  - apply trimLeadingHyphens_id, replaceRuns_true_first.
Qed.

Lemma dropTrailingHyphen_empty s :
  isEmpty s = false -> isEmpty (dropTrailingHyphen s) = true -> s = "-".
Proof.
  destruct s as [|c [|d s]]; try discriminate; simpl.
  destruct (Ascii.eqb c "-") eqn:E; [|discriminate].
  apply Ascii.eqb_eq in E. now subst.
Qed.

(** Where dropping one trailing hyphen leaves none, it drops them all. *)
Lemma trimTrailingHyphens_drop s :
  endsWithHyphen (dropTrailingHyphen s) = false ->
  trimTrailingHyphens s = dropTrailingHyphen s.
Proof.
  unfold endsWithHyphen.
  induction s as [|c s IH]; [reflexivity|].
  destruct s as [|d s]; [simpl; destruct (Ascii.eqb c "-"); reflexivity|].
  change (dropTrailingHyphen (String c (String d s)))
    with (String c (dropTrailingHyphen (String d s))).
  change (trimTrailingHyphens (String c (String d s)))
    with (let r := trimTrailingHyphens (String d s) in
          if Ascii.eqb c "-" && isEmpty r then "" else String c r).
  intros H. cbv zeta.
  destruct (isEmpty (dropTrailingHyphen (String d s))) eqn:Ee.
  - assert (Hd : String d s = "-")
      by (apply dropTrailingHyphen_empty; [reflexivity|exact Ee]).
    rewrite Hd in *. simpl in H |- *. now rewrite H.
  - rewrite lastChar_cons in H by exact Ee.
    rewrite (IH H), Ee, andb_false_r. reflexivity.
Qed.

Lemma generateSlug_slug text : generateSlug text = SlugSpec.slug text.
Proof.
  rewrite generateSlug_words. unfold SlugSpec.slug.
  rewrite collapseRuns_replaceRuns, trimLeadingHyphens_replaceRuns.
  rewrite trimTrailingHyphens_drop; rewrite (proj2 (replaceRuns_fields _)).
  - reflexivity.
  - apply concat_words_no_trailing_hyphen.
Qed.


(** After lower-casing, the ASCII letters and digits are the characters
    of the class [[a-z0-9]]. *)
Lemma isAsciiAlnum_toLowerChar c :
  isAsciiAlnum (toLowerChar c) = isLowerAlnum (toLowerChar c).
Proof. destruct c as [[] [] [] [] [] [] [] []]; reflexivity. Qed.

Lemma anyChar_toLowerCase s :
  anyChar isAsciiAlnum (toLowerCase s) = anyChar isLowerAlnum (toLowerCase s).
Proof.
  induction s as [|c s IH]; [reflexivity|]. simpl.
  now rewrite IH, isAsciiAlnum_toLowerChar.
Qed.

(** C9: a text with an ASCII letter or digit after lower-casing has a
    non-empty slug made of the characters a-z, 0-9 and hyphen that neither
    starts nor ends with a hyphen, so [isValidSlug] accepts it; a text
    without such a character has the empty slug. *)
Theorem generateSlug_valid_or_empty (s : string) :
  (anyChar isAsciiAlnum (toLowerCase s) = true ->
     isEmpty (generateSlug s) = false
     /\ allChars isSlugChar (generateSlug s) = true
     /\ startsWithHyphen (generateSlug s) = false
     /\ endsWithHyphen (generateSlug s) = false
     /\ isValidSlug (generateSlug s) = true)
  /\ (anyChar isAsciiAlnum (toLowerCase s) = false -> generateSlug s = "").
Proof.
  rewrite anyChar_toLowerCase, generateSlug_words. split; intros H.
  - pose proof (concat_words_valid _ H) as Hv.
    unfold isValidSlug, slugRegex in Hv |- *.
    repeat (apply andb_prop in Hv; destruct Hv as [Hv ?]).
    repeat match goal with
           | E : negb _ = true |- _ => apply negb_true_iff in E
           end.
    repeat split; try assumption.
    now rewrite Hv, H2, H1, H0.
  - apply words_nil in H. now rewrite H.
Qed.

Lemma generateSlug_valid_or_empty_witness :
  isValidSlug (generateSlug "Hello World!!") = true
  /\ generateSlug " !?#-- " = "".
Proof.
  split.
  - apply (proj1 (generateSlug_valid_or_empty "Hello World!!")). reflexivity.
  - apply (proj2 (generateSlug_valid_or_empty " !?#-- ")). reflexivity.
Defined.

End SlugFacts.

(** ** The shape-transformer *)

Section JsMapFacts.
Context {V : Type}.
Implicit Types (m : JsMap.t V) (k : nat) (v : V).

Lemma JsMap_has_keys k m :
  JsMap.has k m = existsb (Nat.eqb k) (map fst m).
Proof.
  unfold JsMap.has. induction m as [|[k' v] m IH]; [reflexivity|].
  simpl. now rewrite IH, (Nat.eqb_sym k k').
Qed.

Lemma JsMap_has_In k m : JsMap.has k m = true <-> In k (map fst m).
Proof.
  rewrite JsMap_has_keys, existsb_exists. split.
  - intros (x & Hin & Heq). apply Nat.eqb_eq in Heq. now subst.
  - intros Hin. exists k. split; [exact Hin|apply Nat.eqb_refl].
Qed.

Lemma JsMap_set_fresh k v m :
  JsMap.has k m = false -> JsMap.set k v m = m ++ [(k, v)].
Proof. unfold JsMap.set. now intros ->. Qed.

Lemma JsMap_modify_fresh k (f : V -> V) m :
  JsMap.has k m = false -> JsMap.modify k f m = m.
Proof.
  unfold JsMap.has. induction m as [|[k' v] m IH]; [reflexivity|].
  simpl. intros H. apply orb_false_elim in H. destruct H as [Hk Hm].
  now rewrite Hk, (IH Hm).
Qed.

Lemma JsMap_modify_app k (f : V -> V) m v :
  JsMap.has k m = false ->
  JsMap.modify k f (m ++ [(k, v)]) = m ++ [(k, f v)].
Proof.
  unfold JsMap.has. induction m as [|[k' v'] m IH]; simpl.
  - now rewrite Nat.eqb_refl.
  - intros H. apply orb_false_elim in H. destruct H as [Hk Hm].
    now rewrite Hk, (IH Hm).
Qed.

Lemma JsMap_get_app k m v :
  JsMap.has k m = false -> JsMap.get k (m ++ [(k, v)]) = Some v.
Proof.
  unfold JsMap.has. induction m as [|[k' v'] m IH]; simpl.
  - now rewrite Nat.eqb_refl.
  - intros H. apply orb_false_elim in H. destruct H as [Hk Hm].
    now rewrite Hk, (IH Hm).
Qed.

Lemma JsMap_get_has k m : JsMap.has k m = true -> exists v, JsMap.get k m = Some v.
Proof.
  unfold JsMap.has. induction m as [|[k' v'] m IH]; simpl; [discriminate|].
  destruct (k' =? k); [now eauto|exact IH].
Qed.

Lemma JsMap_modify_keys k (f : V -> V) m :
  map fst (JsMap.modify k f m) = map fst m.
Proof.
  induction m as [|[k' v] m IH]; [reflexivity|]. simpl.
  destruct (k' =? k); simpl; [reflexivity|now rewrite IH].
Qed.

(** With distinct keys, [modify] is a map that touches the key's entry. *)
Lemma JsMap_modify_map k (f : V -> V) m :
  NoDup (map fst m) ->
  JsMap.modify k f m =
  map (fun kv => if fst kv =? k then (fst kv, f (snd kv)) else kv) m.
Proof.
  induction m as [|[k' v] m IH]; [reflexivity|]. simpl. intros Hnd.
  inversion Hnd as [|? ? Hnotin Hnd']; subst.
  destruct (k' =? k) eqn:E.
  - f_equal. apply Nat.eqb_eq in E. subst k'.
    rewrite <- (map_id m) at 1. apply map_ext_in. intros [k2 v2] Hin.
    simpl. destruct (k2 =? k) eqn:E2; [|reflexivity].
    apply Nat.eqb_eq in E2. subst k2. exfalso. apply Hnotin.
    now apply (in_map fst) in Hin.
  - now rewrite (IH Hnd').
Qed.

End JsMapFacts.

Section TransformFacts.
Import PostRouter Grouping.

Lemma categoriesOf_cons k r rows :
  categoriesOf k (r :: rows) =
  (if rowId r =? k
   then match categories r with Some c => [c] | None => [] end
   else []) ++ categoriesOf k rows.
Proof. reflexivity. Qed.

Lemma firstAppearances_cons seen r rest :
  firstAppearances seen (r :: rest) =
  if memNat (rowId r) seen then firstAppearances seen rest
  else (rowId r,
        mkPostWithCategories (postData r) (categoriesOf (rowId r) (r :: rest)))
       :: firstAppearances (seen ++ [rowId r]) rest.
Proof. reflexivity. Qed.

Lemma extend_nil p : extend [] p = p.
Proof. destruct p. unfold extend. simpl. now rewrite app_nil_r. Qed.

(** One callback step either appends a category to the entry of the row's
    post or appends a fresh entry for it. *)
Lemma transformStep_seen m r :
  NoDup (map fst m) ->
  JsMap.has (rowId r) m = true ->
  transformStep m r =
  map (fun kv => if fst kv =? rowId r
                 then (fst kv,
                       extend (match categories r with Some c => [c] | None => [] end)
                              (snd kv))
                 else kv) m.
Proof.
  intros Hnd Hhas. unfold transformStep. fold (rowId r). rewrite Hhas. simpl.
  destruct (categories r) as [c|].
  - destruct (JsMap_get_has _ _ Hhas) as [v ->].
    now rewrite (JsMap_modify_map _ _ _ Hnd).
  - rewrite <- (map_id m) at 1. apply map_ext. intros [k v]. simpl.
    destruct (k =? rowId r); [|reflexivity]. now rewrite extend_nil.
Qed.

Lemma transformStep_fresh m r :
  JsMap.has (rowId r) m = false ->
  transformStep m r =
  m ++ [(rowId r,
         mkPostWithCategories (postData r)
           (match categories r with Some c => [c] | None => [] end))].
Proof.
  intros Hhas. unfold transformStep. fold (rowId r). rewrite Hhas. simpl.
  rewrite (JsMap_set_fresh _ _ _ Hhas).
  destruct (categories r) as [c|]; [|reflexivity].
  rewrite (JsMap_get_app _ _ _ Hhas).
  now rewrite (JsMap_modify_app _ _ _ _ Hhas).
Qed.

(** The loop, from any map with distinct keys: the entries already there
    gain the categories of their rows, the posts not yet there follow in
    order of first appearance. *)
Lemma fold_transformStep rows : forall m,
  NoDup (map fst m) ->
  fold_left transformStep rows m =
  map (extendEntry rows) m ++ firstAppearances (map fst m) rows.
Proof.
  induction rows as [|r rows IH]; intros m Hnd.
  - simpl. rewrite app_nil_r. rewrite <- (map_id m) at 1.
    apply map_ext. intros [k v]. unfold extendEntry. simpl.
    now rewrite extend_nil.
  - simpl fold_left. rewrite firstAppearances_cons. unfold memNat.
    rewrite <- JsMap_has_keys.
    destruct (JsMap.has (rowId r) m) eqn:Hhas.
    + rewrite (transformStep_seen _ _ Hnd Hhas).
      rewrite IH.
      * rewrite !map_map. f_equal.
        -- apply map_ext. intros [k v]. unfold extendEntry. cbn [fst snd].
           rewrite (categoriesOf_cons k r rows). simpl.
           destruct (k =? rowId r) eqn:E; simpl.
           ++ apply Nat.eqb_eq in E. subst k. rewrite Nat.eqb_refl.
              unfold extend. simpl. now rewrite app_assoc.
           ++ rewrite Nat.eqb_sym, E. reflexivity.
        -- f_equal. apply map_ext. intros [k v]. simpl.
           now destruct (k =? rowId r).
      * rewrite map_map.
        replace (map _ m) with (map fst m); [exact Hnd|].
        apply map_ext. intros [k v]. simpl. now destruct (k =? rowId r).
    + rewrite (transformStep_fresh _ _ Hhas).
      assert (Hnotin : ~ In (rowId r) (map fst m)).
      { intros Hin. apply JsMap_has_In in Hin. congruence. }
      rewrite IH.
      * rewrite !map_app. simpl map. rewrite <- app_assoc. f_equal.
        -- apply map_ext_in. intros [k v] Hin. unfold extendEntry.
           cbn [fst snd]. rewrite (categoriesOf_cons k r rows). simpl.
           destruct (rowId r =? k) eqn:E; [|reflexivity].
           apply Nat.eqb_eq in E. subst k. exfalso. apply Hnotin.
           now apply (in_map fst) in Hin.
        -- simpl app. f_equal. unfold extendEntry, extend.
           cbn [fst snd post postCategories].
           rewrite (categoriesOf_cons (rowId r) r rows), Nat.eqb_refl.
           reflexivity.
      * rewrite map_app. simpl.
        apply NoDup_app_remove_l with (l := []). simpl.
        apply (Permutation_NoDup (l := rowId r :: map fst m)).
        -- apply Permutation_cons_append.
        -- now constructor.
Qed.

(** The transformer returns the records of the posts of [results] in
    order of first appearance. *)
Lemma transformPostQueryResults_firstAppearances results :
  transformPostQueryResults results = map snd (firstAppearances [] results).
Proof.
  unfold transformPostQueryResults, JsMap.values, JsMap.empty.
  rewrite fold_transformStep by constructor. reflexivity.
Qed.


Lemma memNat_In k l : memNat k l = true <-> In k l.
Proof.
  unfold memNat. rewrite existsb_exists. split.
  - intros (x & Hin & Heq). apply Nat.eqb_eq in Heq. now subst.
  - intros Hin. exists k. split; [exact Hin|apply Nat.eqb_refl].
Qed.

Lemma memNat_not_In k l : memNat k l = false <-> ~ In k l.
Proof.
  rewrite <- memNat_In. destruct (memNat k l); split; intros H.
  - discriminate H.
  - now exfalso.
  - intros H'. discriminate H'.
  - reflexivity.
Qed.

Lemma categoriesOf_other k r rows :
  rowId r <> k -> categoriesOf k (r :: rows) = categoriesOf k rows.
Proof.
  intros H. rewrite categoriesOf_cons.
  apply Nat.eqb_neq in H. now rewrite H.
Qed.

(** Every entry is for a post not seen before, keyed by the post's id,
    built from one of the rows, with the categories of the post's rows. *)
Lemma firstAppearances_entry rows : forall seen k p,
  In (k, p) (firstAppearances seen rows) ->
  ~ In k seen /\ postId p = k
  /\ postCategories p = categoriesOf k rows
  /\ exists r, In r rows /\ postData r = post p.
Proof.
  induction rows as [|r rows IH]; intros seen k p Hin; [destruct Hin|].
  rewrite firstAppearances_cons in Hin.
  destruct (memNat (rowId r) seen) eqn:Hmem.
  - destruct (IH _ _ _ Hin) as (Hseen & Hid & Hcats & r' & Hr' & Hpost).
    apply memNat_In in Hmem. repeat split; try assumption.
    + rewrite categoriesOf_other; [exact Hcats|]. intros E. apply Hseen.
      now rewrite <- E.
    + exists r'. split; [now right|exact Hpost].
  - apply memNat_not_In in Hmem. destruct Hin as [Heq|Hin].
    + inversion Heq; subst. repeat split; try assumption; try reflexivity.
      exists r. split; [now left|reflexivity].
    + destruct (IH _ _ _ Hin) as (Hseen & Hid & Hcats & r' & Hr' & Hpost).
      repeat split.
      * intros Hk. apply Hseen, in_or_app. now left.
      * exact Hid.
      * rewrite categoriesOf_other; [exact Hcats|]. intros E.
        apply Hseen, in_or_app. right. now left.
      * exists r'. split; [now right|exact Hpost].
Qed.





(** *** What the transformer guarantees *)


(** Each record has the columns of a row of its post and one category per
    row of that post that carries one, in row order. *)
Lemma transformPostQueryResults_categories results p :
  In p (transformPostQueryResults results) ->
  postCategories p = categoriesOf (postId p) results
  /\ exists r, In r results /\ postData r = post p.
Proof.
  rewrite transformPostQueryResults_firstAppearances. intros Hin.
  apply in_map_iff in Hin. destruct Hin as ([k q] & Hq & Hin). simpl in Hq. subst q.
  destruct (firstAppearances_entry _ _ _ _ Hin) as (_ & Hid & Hcats & Hr).
  rewrite Hid. now split.
Qed.



End TransformFacts.

(** *** The grouping loop of [PostQueries.getPostsWithDetails] *)

Section GroupRowsFacts.
Import PostQueries.

Lemma JsMap_modify_Forall {V : Type} (P : V -> Prop) k (f : V -> V)
    (m : JsMap.t V) v :
  JsMap.get k m = Some v -> P (f v) ->
  Forall (fun kv => P (snd kv)) m ->
  Forall (fun kv => P (snd kv)) (JsMap.modify k f m).
Proof.
  intros Hget Hf. induction m as [|[k' v'] m IH]; [constructor|].
  simpl in Hget |- *. intros Hall. inversion Hall as [|? ? Hv' Hm]; subst.
  destruct (k' =? k).
  - injection Hget as ->. now constructor.
  - constructor; [exact Hv'|now apply IH].
Qed.

Lemma groupStep_distinct now m row :
  Forall (fun kv => distinctCategories (snd kv)) m ->
  Forall (fun kv => distinctCategories (snd kv)) (groupStep now m row).
Proof.
  intros Hm. unfold groupStep.
  set (postId := Post.id (rowPost row)).
  set (m1 := if negb (JsMap.has postId m)
             then JsMap.set postId (mkDetails (rowPost row) (rowAuthor row) []) m
             else m).
  assert (Hm1 : Forall (fun kv => distinctCategories (snd kv)) m1).
  { subst m1. destruct (JsMap.has postId m) eqn:Hhas; simpl; [exact Hm|].
    rewrite (JsMap_set_fresh _ _ _ Hhas). apply Forall_app. split; [exact Hm|].
    repeat constructor. }
  destruct (JsMap.get postId m1) as [post|] eqn:Hget; [|exact Hm1].
  destruct (rowCategoryId row) as [categoryId|]; [|exact Hm1].
  destruct (rowCategoryName row) as [categoryName|]; [|exact Hm1].
  destruct (TRPC.truthyNat categoryId && TRPC.truthyString categoryName
            && negb (existsb _ (postCategories post))) eqn:Hcond; [|exact Hm1].
  apply andb_prop in Hcond. destruct Hcond as [_ Hnew].
  apply negb_true_iff in Hnew.
  apply (JsMap_modify_Forall distinctCategories _ _ _ post Hget); [|exact Hm1].
  assert (Hpost : distinctCategories post).
  { clear - Hget Hm1. induction m1 as [|[k v] m1 IH]; [discriminate|].
    simpl in Hget. inversion Hm1; subst.
    destruct (k =? postId); [injection Hget as <-; assumption|now apply IH]. }
  unfold distinctCategories in *. simpl. rewrite map_app. simpl.
  apply NoDup_app_remove_l with (l := []). simpl.
  apply (Permutation_NoDup
           (l := categoryId
                 :: map (fun c => PostCategory.categoryId (junction c))
                        (postCategories post)));
    [apply Permutation_cons_append|].
  constructor; [|exact Hpost].
  intros Hin. apply in_map_iff in Hin. destruct Hin as (c & Hc & Hin).
  assert (Hex : existsb (fun c => PostCategory.categoryId (junction c) =? categoryId)
                        (postCategories post) = true).
  { apply existsb_exists. exists c. split; [exact Hin|]. now apply Nat.eqb_eq. }
  rewrite Hex in Hnew. discriminate Hnew.
Qed.

(** The sibling loop never lists a category twice for a post, whatever
    rows it is given. *)
Lemma groupRows_distinct now rows p :
  In p (groupRows now rows) -> distinctCategories p.
Proof.
  unfold groupRows, JsMap.values.
  assert (H : forall m, Forall (fun kv => distinctCategories (snd kv)) m ->
                        Forall (fun kv => distinctCategories (snd kv))
                               (fold_left (groupStep now) rows m)).
  { induction rows as [|r rows IH]; intros m Hm; [exact Hm|].
    simpl. apply IH. now apply groupStep_distinct. }
  specialize (H JsMap.empty (Forall_nil _)).
  intros Hin. apply in_map_iff in Hin. destruct Hin as ([k q] & Hq & Hin).
  simpl in Hq. subst q.
  exact (proj1 (Forall_forall _ _) H _ Hin).
Qed.

End GroupRowsFacts.

Section RepeatedCategory.
Import PostRouter.


(** On the same two rows the grouping loop of
    [PostQueries.getPostsWithDetails] lists the category once. *)
Example groupRows_repeated_category :
  let row := PostQueries.mkRow Sample.firstPost (Some Sample.alice) (Some 1)
               (Some "News") (Some "news") in
  map (fun d => map (fun e => PostCategory.categoryId (PostQueries.junction e))
                    (PostQueries.postCategories d))
      (PostQueries.groupRows 0 [row; row])
  = [[1]].
Proof. reflexivity. Qed.

End RepeatedCategory.

(** ** The list-posts query *)

Section QueryFacts.
Import Storage Validations TRPC PostRouter Grouping.

(** *** Ordering and pagination *)

Lemma insertByCreatedAtDesc_perm r rows :
  Permutation (insertByCreatedAtDesc r rows) (r :: rows).
Proof.
  induction rows as [|x rows IH]; simpl; [reflexivity|].
  destruct (Post.createdAt (jPost x) <=? Post.createdAt (jPost r)); [reflexivity|].
  rewrite IH. apply perm_swap.
Qed.

Lemma orderByCreatedAtDesc_perm rows :
  Permutation (orderByCreatedAtDesc rows) rows.
Proof.
  induction rows as [|r rows IH]; simpl; [reflexivity|].
  rewrite insertByCreatedAtDesc_perm. now constructor.
Qed.

Lemma insertByCreatedAtDesc_sorted r rows :
  StronglySorted newerFirst (map jPost rows) ->
  StronglySorted newerFirst (map jPost (insertByCreatedAtDesc r rows)).
Proof.
  induction rows as [|x rows IH]; simpl; intros Hs; [repeat constructor|].
  apply StronglySorted_inv in Hs. destruct Hs as [Hs Hall].
  destruct (Post.createdAt (jPost x) <=? Post.createdAt (jPost r)) eqn:E; simpl.
  - apply Nat.leb_le in E. constructor; [now constructor|].
    constructor; [exact E|].
    revert Hall. apply Forall_impl. unfold newerFirst. intros y Hy. lia.
  - apply Nat.leb_gt in E. constructor; [now apply IH|].
    apply Forall_forall. intros y Hy. apply in_map_iff in Hy.
    destruct Hy as (row & <- & Hin).
    apply (Permutation_in _ (insertByCreatedAtDesc_perm r rows)) in Hin.
    destruct Hin as [<-|Hin]; [unfold newerFirst; lia|].
    exact (proj1 (Forall_forall _ _) Hall _ (in_map jPost _ _ Hin)).
Qed.

Lemma orderByCreatedAtDesc_sorted rows :
  StronglySorted newerFirst (map jPost (orderByCreatedAtDesc rows)).
Proof.
  induction rows as [|r rows IH]; simpl; [constructor|].
  now apply insertByCreatedAtDesc_sorted.
Qed.


Lemma In_firstn {A : Type} n : forall (l : list A) y,
  In y (firstn n l) -> In y l.
Proof.
  induction n as [|n IH]; intros [|x l] y; simpl; try tauto.
  intros [H|H]; [now left|right; now apply IH].
Qed.



Lemma limitOffset_length limit offset rows :
  List.length (limitOffset limit offset rows) <= limit.
Proof. unfold limitOffset. apply firstn_le_length. Qed.


(** *** Filters *)

(** The conditions of [getAll]: one for the published flag when it is
    given, one for a non-empty search string, one for a category id. *)
Lemma getAllConditions_parts input :
  getAllConditions input =
  (match filterPublished input with Some b => [EqPublished b] | None => [] end)
  ++ (match search input with
      | Some s => if truthyString s then [LikeTitle ("%" ++ s ++ "%")%string] else []
      | None => []
      end)
  ++ (match categoryId input with
      | Some c => if truthyNat c then [EqCategoryId c] else []
      | None => []
      end).
Proof.
  unfold getAllConditions.
  destruct (filterPublished input), (search input) as [s|], (categoryId input) as [c|];
    try destruct (truthyString s); try destruct (truthyNat c); reflexivity.
Qed.

(** The conditions are combined with AND: every row of the page satisfies
    each of them. *)
Lemma getAllRows_holds input db r c :
  In r (getAllRows input db) -> In c (getAllConditions input) -> holds c r = true.
Proof.
  unfold getAllRows, limitOffset, where_. intros Hin Hc.
  apply In_firstn in Hin.
  assert (Hin' : In r (orderByCreatedAtDesc
                         (filter (fun r => forallb (fun c => holds c r)
                                                   (getAllConditions input))
                                 (joinedRows db)))).
  { revert Hin. generalize (orderByCreatedAtDesc
                              (filter (fun r => forallb (fun c => holds c r)
                                                        (getAllConditions input))
                                      (joinedRows db))).
    generalize (offset input). intros n. induction n as [|n IH]; intros l Hl; [exact Hl|].
    destruct l as [|x l]; [destruct Hl|]. right. now apply IH. }
  apply (Permutation_in _ (orderByCreatedAtDesc_perm _)) in Hin'.
  apply filter_In in Hin'. destruct Hin' as [_ Hall].
  exact (proj1 (forallb_forall _ _) Hall _ Hc).
Qed.

(** The author id of the request is not read. *)
Lemma getAllHandler_ignores_authorId db s c p a a' l o :
  getAllHandler db (mkFilters s c p a l o) = getAllHandler db (mkFilters s c p a' l o).
Proof. reflexivity. Qed.

(** C2 (the author filter is not applied by [post.getAll]): a request
    with an author id is answered like the same request without one;
    asked for the posts of author 2 in the sample database, the operation
    returns the post of author 2 and the post of author 1. *)
Theorem getAll_authorId_not_applied :
  (forall db s c p a l o,
      getAll db (mkFiltersRequest s c p (Some (S a)) l o)
      = getAll db (mkFiltersRequest s c p None l o))
  /\ exists posts,
       getAll Sample.db (Sample.byAuthor 2) = Ok posts
       /\ map (fun p => Post.authorId (post p)) posts = [2; 1].
Proof.
  split.
  - intros db s c p a l o. unfold getAll, publicProcedure, postFiltersSchema.
    cbn [reqSearch reqCategoryId reqFilterPublished reqFilterAuthorId reqLimit
         reqOffset optional idSchema Nat.ltb Nat.leb].
    destruct (optional idSchema c && true && limitSchema (default 10 l));
      reflexivity.
  - eexists. split; reflexivity.
Qed.

(** The sibling query builder does build the author condition. *)
Lemma PostQueries_conditions_authorId a l o :
  TRPC.truthyNat a = true ->
  PostQueries.conditions (PostQueries.mkOptions l o (Some a) None None None)
  = [EqAuthorId a].
Proof. intros H. unfold PostQueries.conditions. simpl. now rewrite H. Qed.

(** *** Pagination *)




(** Limit 1, offset 0: the most recently created post. *)
Example getAll_newest :
  exists posts,
    getAll Sample.db (mkFiltersRequest None None None None (Some 1) None) = Ok posts
    /\ map postId posts = [2].
Proof. eexists. split; reflexivity. Qed.

(** Pagination counts joined rows: the second page of size one shows the
    post of the first page's successor row with one of its two
    categories. *)
Example getAll_second_row :
  exists posts,
    getAll Sample.db (mkFiltersRequest None None None None (Some 1) (Some 1))
    = Ok posts
    /\ map (fun p => (postId p, map Category.id (postCategories p))) posts
       = [(1, [1])].
Proof. eexists. split; reflexivity. Qed.

End QueryFacts.

(** ** The mutation handlers *)

Section ProcedureFacts.
Import Storage Validations TRPC.

Lemma protectedProcedure_signedIn {Raw In Out : Type}
    (schema : Raw -> option In) (handler : Context -> In -> Out)
    (reject : Error -> Out) ctx raw :
  isSignedIn ctx = true ->
  protectedProcedure schema handler reject ctx raw =
  publicProcedure schema (handler ctx) reject raw.
Proof.
  unfold isSignedIn, protectedProcedure. intros H.
  apply andb_prop in H. destruct H as [-> ->]. reflexivity.
Qed.

(** A protected procedure answers with its handler's result or with the
    rejection of the session or of the input. *)
Lemma protectedProcedure_cases {Raw In Out : Type}
    (schema : Raw -> option In) (handler : Context -> In -> Out)
    (reject : Error -> Out) ctx raw :
  (exists input, isSignedIn ctx = true /\ schema raw = Some input
                 /\ protectedProcedure schema handler reject ctx raw
                    = handler ctx input)
  \/ (exists e, (e = InputRejected \/ exists text, e = Thrown UNAUTHORIZED text)
                /\ protectedProcedure schema handler reject ctx raw = reject e).
Proof.
  unfold protectedProcedure, publicProcedure, isSignedIn.
  destruct (truthyOpt truthyString (userId ctx)); simpl;
    [|right; eexists; split; [right; eexists; reflexivity|reflexivity]].
  destruct (truthyOpt truthyString (sessionId ctx)); simpl;
    [|right; eexists; split; [right; eexists; reflexivity|reflexivity]].
  destruct (schema raw) as [input|].
  - left. exists input. repeat split.
  - right. exists InputRejected. split; [now left|reflexivity].
Qed.

Lemma firstViolation_app a b :
  firstViolation (a ++ b) =
  match firstViolation a with Some e => Some e | None => firstViolation b end.
Proof.
  induction a as [|[[] e] a IH]; simpl; [reflexivity|exact IH|reflexivity].
Qed.


End ProcedureFacts.

(** *** Create *)

Section CreateFacts.
Import Storage Validations TRPC.

Lemma insertPost_Done title content slug published authorId now db p db' :
  insertPost title content slug published authorId now db = Done (p, db') ->
  Post.title p = title /\ Post.slug p = slug /\ Post.id p = S (postsSeq db)
  /\ posts db' = posts db ++ [p]
  /\ users db' = users db /\ categories db' = categories db
  /\ postCategories db' = postCategories db.
Proof.
  unfold insertPost. destruct (firstViolation _); [discriminate|].
  intros H. injection H as <- <-. repeat split.
Qed.

Lemma insertPostCategories_Done values now db db' :
  insertPostCategories values now db = Done db' ->
  posts db' = posts db /\ users db' = users db /\ categories db' = categories db
  /\ postCategories db' =
     postCategories db ++ junctionRows (postCategoriesSeq db) now values
  /\ distinctPairs values = true
  /\ forallb (fun v => hasCategory db (snd v)) values = true.
Proof.
  unfold insertPostCategories.
  destruct (distinctPairs values) eqn:Hd; simpl; [|discriminate].
  destruct (negb _); simpl; [|discriminate].
  destruct (forallb (fun v => hasPost db (fst v)) values); simpl; [|discriminate].
  destruct (forallb (fun v => hasCategory db (snd v)) values); simpl; [|discriminate].
  intros H. injection H as <-. repeat split.
Qed.

Lemma insertCategory_Done name description slug now db c db' :
  insertCategory name description slug now db = Done (c, db') ->
  Category.name c = name /\ Category.slug c = slug
  /\ categories db' = categories db ++ [c].
Proof.
  unfold insertCategory. destruct (firstViolation _); [discriminate|].
  intros H. injection H as <- <-. repeat split.
Qed.

(** A post that [post.create] returns is stored with the slug generated
    from the requested title. *)
Lemma PostRouter_create_slug now db ctx request p db' :
  PostRouter.create now db ctx request = (Ok p, db') ->
  Post.slug p = Utils.generateSlug (reqTitle request) /\ In p (posts db').
Proof.
  unfold PostRouter.create.
  destruct (protectedProcedure_cases createPostSchema (PostRouter.createHandler now db)
              (fun e => (Err e, db)) ctx request)
    as [(input & _ & Hs & ->)|(e & _ & ->)]; [|discriminate].
  assert (Ht : title input = reqTitle request).
  { unfold createPostSchema in Hs. destruct (_ && _); [|discriminate].
    now injection Hs as <-. }
  unfold PostRouter.createHandler. rewrite Ht.
  destruct (insertPost _ _ _ _ _ _ _) as [[newPost db1]|] eqn:Hi; [|discriminate].
  apply insertPost_Done in Hi. destruct Hi as (_ & Hslug & _ & Hposts & _).
  destruct (0 <? List.length (categoryIds input)).
  - destruct (insertPostCategories _ _ _) as [db2|] eqn:Hj; [|discriminate].
    apply insertPostCategories_Done in Hj. destruct Hj as (Hp2 & _).
    intros H. injection H as <- <-. split; [exact Hslug|].
    rewrite Hp2, Hposts. apply in_or_app. right. now left.
  - intros H. injection H as <- <-. split; [exact Hslug|].
    rewrite Hposts. apply in_or_app. right. now left.
Qed.

Lemma CategoryRouter_create_slug now db request c db' :
  CategoryRouter.create now db request = (Ok c, db') ->
  Category.slug c = Utils.generateSlug (catName request) /\ In c (categories db').
Proof.
  unfold CategoryRouter.create, publicProcedure.
  destruct (createCategorySchema request) as [input|] eqn:Hs; [|discriminate].
  assert (Hn : input = request).
  { unfold createCategorySchema in Hs. destruct (_ && _); [|discriminate].
    now injection Hs as <-. }
  subst input. unfold CategoryRouter.createHandler.
  destruct (insertCategory _ _ _ _ _) as [[newCategory db1]|] eqn:Hi; [|discriminate].
  apply insertCategory_Done in Hi. destruct Hi as (_ & Hslug & Hcats).
  intros H. injection H as <- <-. split; [exact Hslug|].
  rewrite Hcats. apply in_or_app. right. now left.
Qed.

(** C8: the slug of a text is its lowercase form with every maximal run
    of non-alphanumeric characters collapsed to one hyphen and the leading
    and trailing hyphens trimmed; "Hello World!!" gives "hello-world" and
    "Tech & Science" gives "tech-science"; the post and the category that
    the create operations store carry the slug generated from the title
    and from the name. *)
Theorem generateSlug_spec_and_use :
  (forall text, Utils.generateSlug text = SlugSpec.slug text)
  /\ Utils.generateSlug "Hello World!!" = "hello-world"
  /\ Utils.generateSlug "Tech & Science" = "tech-science"
  /\ (forall now db ctx request p db',
        PostRouter.create now db ctx request = (Ok p, db') ->
        Post.slug p = Utils.generateSlug (reqTitle request) /\ In p (posts db'))
  /\ (forall now db request c db',
        CategoryRouter.create now db request = (Ok c, db') ->
        Category.slug c = Utils.generateSlug (catName request)
        /\ In c (categories db')).
Proof.
  split; [exact generateSlug_slug|].
  split; [reflexivity|]. split; [reflexivity|].
  split; [exact PostRouter_create_slug|exact CategoryRouter_create_slug].
Qed.

Lemma generateSlug_spec_and_use_witness :
  (exists p db',
     PostRouter.create 30 Sample.db Sample.signedIn
       (Sample.createRequest "Hello World!!") = (Ok p, db')
     /\ Post.slug p = "hello-world")
  /\ (exists c db',
        CategoryRouter.create 30 Sample.db (mkCreateCategory "Art & Design" None)
        = (Ok c, db')
        /\ Category.slug c = "art-design").
Proof.
  destruct generateSlug_spec_and_use as (_ & _ & _ & Hpost & Hcat).
  split.
  - eexists. eexists. split; [reflexivity|].
    exact (proj1 (Hpost 30 Sample.db Sample.signedIn
                    (Sample.createRequest "Hello World!!") _ _ eq_refl)).
  - eexists. eexists. split; [reflexivity|].
    exact (proj1 (Hcat 30 Sample.db (mkCreateCategory "Art & Design" None)
                    _ _ eq_refl)).
Defined.

(** [post.create] fails with an unauthorized, a bad-request or an internal
    error, whatever the storage engine reports. *)
Lemma PostRouter_create_error_codes now db ctx request e db' :
  PostRouter.create now db ctx request = (Err e, db') ->
  codeOf e = UNAUTHORIZED \/ codeOf e = BAD_REQUEST
  \/ e = Thrown INTERNAL_SERVER_ERROR "Failed to create post".
Proof.
  unfold PostRouter.create.
  destruct (protectedProcedure_cases createPostSchema (PostRouter.createHandler now db)
              (fun e => (Err e, db)) ctx request)
    as [(input & _ & _ & ->)|(e0 & [->|[text ->]] & ->)].
  - unfold PostRouter.createHandler.
    destruct (insertPost _ _ _ _ _ _ _) as [[newPost db1]|].
    + destruct (0 <? List.length (categoryIds input)); [|discriminate].
      destruct (insertPostCategories _ _ _); [discriminate|].
      intros H. injection H as <- _. now right; right.
    + intros H. injection H as <- _. now right; right.
  - intros H. injection H as <- _. now right; left.
  - intros H. injection H as <- _. now left.
Qed.

(** C4 (the router's [create] reports no conflict): [post.create] never
    answers with a conflict error; creating a post whose title gives the
    slug of an existing post makes the insert fail on the unique slug
    index, and creating a post when the author row is missing makes it
    fail on the author foreign key; [post.create] answers both with the
    internal error "Failed to create post". *)
Theorem create_reports_internal_error :
  (forall now db ctx request,
      match fst (PostRouter.create now db ctx request) with
      | Ok _ => true
      | Err e => negb (isConflict e)
      end = true)
  /\ insertPost "Same Title" (Some "Some content here")
    (Utils.generateSlug "Same Title") false 1 30 Sample.db
  = Raised unique_violation
  /\ PostRouter.create 30 Sample.db Sample.signedIn (Sample.createRequest "Same Title")
     = (Err (Thrown INTERNAL_SERVER_ERROR "Failed to create post"), Sample.db)
  /\ insertPost "Another Title" (Some "Some content here")
       (Utils.generateSlug "Another Title") false 1 30 Sample.dbWithoutAuthor
     = Raised foreign_key_violation
  /\ PostRouter.create 30 Sample.dbWithoutAuthor Sample.signedIn
       (Sample.createRequest "Another Title")
     = (Err (Thrown INTERNAL_SERVER_ERROR "Failed to create post"),
        Sample.dbWithoutAuthor).
Proof.
  split; [|repeat split; reflexivity].
  intros now db ctx request.
  destruct (PostRouter.create now db ctx request) as [[p|e] db'] eqn:Hc;
    [reflexivity|].
  destruct (PostRouter_create_error_codes _ _ _ _ _ _ Hc) as [H|[H| ->]];
    cbn [fst]; unfold isConflict; try rewrite H; reflexivity.
Qed.

(** The [catch] block of the second copy maps the two constraint failures
    to a conflict and to a bad request. *)
Lemma createCatch_unique_violation nodeEnv text :
  PostRouterAlt.createCatch nodeEnv (PostRouterAlt.ofPgError unique_violation text)
  = Thrown CONFLICT
      "Failed to create post: a post with the same slug already exists. Try changing the title.".
Proof. reflexivity. Qed.

Lemma createCatch_foreign_key_violation nodeEnv text :
  codeOf (PostRouterAlt.createCatch nodeEnv
            (PostRouterAlt.ofPgError foreign_key_violation text))
  = BAD_REQUEST.
Proof. reflexivity. Qed.

(** Any other failure becomes an internal error, with the underlying
    message in development only. *)
Lemma createCatch_other nodeEnv text :
  PostRouterAlt.createCatch nodeEnv (PostRouterAlt.ofPgError check_violation text)
  = Thrown INTERNAL_SERVER_ERROR
      (if String.eqb nodeEnv "development" && truthyString text
       then ("Failed to create post: " ++ text)%string
       else "Failed to create post").
Proof. reflexivity. Qed.

End CreateFacts.

(** *** Update *)

Section UpdateFacts.
Import Storage Validations TRPC.

Lemma applyPatch_id patch p : Post.id (applyPatch patch p) = Post.id p.
Proof. reflexivity. Qed.

Lemma updatePostById_Done i patch db hits db1 :
  updatePostById i patch db = Done (hits, db1) ->
  hits = map (applyPatch patch) (filter (fun p => Post.id p =? i) (posts db))
  /\ posts db1 =
     map (fun p => if Post.id p =? i then applyPatch patch p else p) (posts db)
  /\ users db1 = users db /\ categories db1 = categories db
  /\ postCategories db1 = postCategories db
  /\ postCategoriesSeq db1 = postCategoriesSeq db
  /\ postsSeq db1 = postsSeq db /\ categoriesSeq db1 = categoriesSeq db.
Proof.
  unfold updatePostById. destruct (firstViolation _); [discriminate|].
  intros H. injection H as <- <-. repeat split.
Qed.

Lemma updatePostById_ids i patch db hits db1 :
  updatePostById i patch db = Done (hits, db1) ->
  map Post.id (posts db1) = map Post.id (posts db).
Proof.
  intros H. apply updatePostById_Done in H. destruct H as (_ & -> & _).
  rewrite map_map. apply map_ext. intros p.
  now destruct (Post.id p =? i).
Qed.

(** An update that matches no row changes no row. *)
Lemma updatePostById_no_hit i patch db db1 :
  updatePostById i patch db = Done ([], db1) -> db1 = db.
Proof.
  intros H. apply updatePostById_Done in H.
  destruct H as (Hhits & Hposts & Hu & Hc & Hj & Hs & Hps & Hcs).
  assert (Hp : posts db1 = posts db).
  { rewrite Hposts. rewrite <- (map_id (posts db)) at 2.
    apply map_ext_in. intros p Hin.
    destruct (Post.id p =? i) eqn:E; [|reflexivity].
    exfalso. symmetry in Hhits. apply map_eq_nil in Hhits.
    assert (Hf : In p (filter (fun p => Post.id p =? i) (posts db)))
      by (apply filter_In; now split).
    rewrite Hhits in Hf. destruct Hf. }
  destruct db, db1; simpl in *. congruence.
Qed.

(** Whether the statement fails, and how many rows it matches, does not
    depend on the time written to [updatedAt]. *)
Lemma updatePostById_time i now now' input db :
  match updatePostById i (PostRouter.updatePayload now input) db,
        updatePostById i (PostRouter.updatePayload now' input) db with
  | Raised e, Raised e' => e = e'
  | Done (hits, _), Done (hits', _) => List.length hits = List.length hits'
  | _, _ => False
  end.
Proof.
  unfold updatePostById.
  set (hit := filter (fun p => Post.id p =? i) (posts db)).
  set (others := filter (fun p => negb (Post.id p =? i)) (posts db)).
  assert (Hc : flat_map (postRowChecks others) (map (applyPatch (PostRouter.updatePayload now input)) hit)
               = flat_map (postRowChecks others)
                          (map (applyPatch (PostRouter.updatePayload now' input)) hit)).
  { induction hit as [|p hit IH]; [reflexivity|]. simpl. now rewrite IH. }
  rewrite Hc. destruct (firstViolation _); [reflexivity|].
  now rewrite !length_map.
Qed.

Lemma hasPost_ids a b i :
  map Post.id (posts a) = map Post.id (posts b) -> hasPost a i = hasPost b i.
Proof.
  unfold hasPost. intros H.
  assert (E : forall l, existsb (fun p => Post.id p =? i) l
                        = existsb (fun k => k =? i) (map Post.id l)).
  { induction l as [|p l IH]; [reflexivity|]. simpl. now rewrite IH. }
  now rewrite !E, H.
Qed.

Lemma hasCategory_categories a b i :
  categories a = categories b -> hasCategory a i = hasCategory b i.
Proof. unfold hasCategory. now intros ->. Qed.

Lemma junctionRows_pairs seq now values :
  map PostCategory.pair (junctionRows seq now values) = values.
Proof.
  revert seq. induction values as [|[p c] values IH]; intros seq; [reflexivity|].
  simpl. now rewrite IH.
Qed.

Lemma forallb_pointwise {A : Type} (f g : A -> bool) l :
  (forall x, f x = g x) -> forallb f l = forallb g l.
Proof.
  intros H. induction l as [|x l IH]; [reflexivity|]. simpl. now rewrite H, IH.
Qed.

(** The outcome of the junction insert is decided by the pairs already
    there, the post ids and the categories. *)
Lemma insertPostCategories_outcome values now now' a b :
  map PostCategory.pair (postCategories a) = map PostCategory.pair (postCategories b) ->
  map Post.id (posts a) = map Post.id (posts b) ->
  categories a = categories b ->
  match insertPostCategories values now a, insertPostCategories values now' b with
  | Raised e, Raised e' => e = e'
  | Done a', Done b' =>
      map PostCategory.pair (postCategories a')
      = map PostCategory.pair (postCategories a) ++ values
      /\ map PostCategory.pair (postCategories b')
         = map PostCategory.pair (postCategories b) ++ values
  | _, _ => False
  end.
Proof.
  intros Hj Hp Hc. unfold insertPostCategories. rewrite Hj.
  rewrite (forallb_pointwise (fun v => hasPost a (fst v))
             (fun v => hasPost b (fst v)))
    by (intros v; now apply hasPost_ids).
  rewrite (forallb_pointwise (fun v => hasCategory a (snd v))
             (fun v => hasCategory b (snd v)))
    by (intros v; now apply hasCategory_categories).
  destruct (firstViolation _); [reflexivity|]. simpl.
  rewrite !map_app, !junctionRows_pairs, ?Hj. split; reflexivity.
Qed.


Import UpdatePaths.

Lemma updateHandler_path now db ctx input :
  Path now db input (PostRouter.updateHandler now db ctx input).
Proof.
  unfold PostRouter.updateHandler.
  destruct (updatePostById _ _ db) as [[[|p rest] db1]|e] eqn:Hu.
  - pose proof (updatePostById_no_hit _ _ _ _ Hu) as E. subst db1.
    now apply NoSuchPost.
  - destruct (updCategoryIds input) as [cs|] eqn:Hc.
    + destruct (0 <? List.length cs) eqn:Hl.
      * destruct (insertPostCategories _ _ _) as [db3|e] eqn:Hi.
        -- now apply (CategoriesReplaced now db input p rest db1 cs db3).
        -- now apply (InsertRejected now db input p rest db1 cs e).
      * now apply (CategoriesCleared now db input p rest db1 cs).
    + now apply (CategoriesKept now db input p rest db1).
  - now apply (PostRejected now db input e).
Qed.

(** [post.update] either rejects the call and leaves the database as it
    is, or follows one of the paths of its handler. *)
Lemma update_path now db ctx request :
  (exists e, PostRouter.update now db ctx request = (Err e, db)
             /\ forall now' db', PostRouter.update now' db' ctx request = (Err e, db'))
  \/ (isSignedIn ctx = true
      /\ forall now' db', Path now' db' request (PostRouter.update now' db' ctx request)).
Proof.
  unfold PostRouter.update, protectedProcedure, publicProcedure, isSignedIn.
  destruct (truthyOpt truthyString (userId ctx)); simpl;
    [|left; eexists; split; [reflexivity|reflexivity]].
  destruct (truthyOpt truthyString (sessionId ctx)); simpl;
    [|left; eexists; split; [reflexivity|reflexivity]].
  destruct (updatePostSchema request) as [input|] eqn:Hs.
  - right. split; [reflexivity|]. intros now' db'.
    assert (input = request) as ->.
    { unfold updatePostSchema in Hs. destruct (_ && _); [|discriminate].
      now injection Hs. }
    apply updateHandler_path.
  - left. eexists. split; reflexivity.
Qed.


Lemma filter_idempotent {A : Type} (f : A -> bool) l :
  filter f (filter f l) = filter f l.
Proof.
  induction l as [|x l IH]; [reflexivity|]. simpl.
  destruct (f x) eqn:E; simpl; [now rewrite E, IH|exact IH].
Qed.

Lemma filter_none {A : Type} (f : A -> bool) l :
  (forall x, In x l -> f x = false) -> filter f l = [].
Proof.
  induction l as [|x l IH]; [reflexivity|]. intros H. simpl.
  rewrite (H x (or_introl eq_refl)). apply IH. intros y Hy. apply H. now right.
Qed.

Lemma filter_all {A : Type} (f : A -> bool) l :
  (forall x, In x l -> f x = true) -> filter f l = l.
Proof.
  induction l as [|x l IH]; [reflexivity|]. intros H. simpl.
  rewrite (H x (or_introl eq_refl)). f_equal. apply IH. intros y Hy. apply H.
  now right.
Qed.

Lemma junctionRows_postId i seq now cs r :
  In r (junctionRows seq now (PostRouter.junctionValues i cs)) ->
  PostCategory.postId r = i.
Proof.
  revert seq. induction cs as [|c cs IH]; intros seq; simpl; [tauto|].
  intros [<-|H]; [reflexivity|]. exact (IH _ H).
Qed.

Lemma otherPost_junctionRows i seq now cs :
  filter (otherPost i) (junctionRows seq now (PostRouter.junctionValues i cs)) = [].
Proof.
  apply filter_none. intros r Hr. unfold otherPost.
  now rewrite (junctionRows_postId _ _ _ _ _ Hr), Nat.eqb_refl.
Qed.

Lemma samePost_junctionRows i seq now cs :
  filter (fun r => PostCategory.postId r =? i)
         (junctionRows seq now (PostRouter.junctionValues i cs))
  = junctionRows seq now (PostRouter.junctionValues i cs).
Proof.
  apply filter_all. intros r Hr.
  now rewrite (junctionRows_postId _ _ _ _ _ Hr), Nat.eqb_refl.
Qed.

Lemma samePost_otherPost i l :
  filter (fun r => PostCategory.postId r =? i) (filter (otherPost i) l) = [].
Proof.
  apply filter_none. intros r Hr. apply filter_In in Hr.
  destruct Hr as [_ Hr]. unfold otherPost in Hr.
  now apply negb_true_iff in Hr.
Qed.

Lemma junctionValues_categoryIds i cs :
  map snd (PostRouter.junctionValues i cs) = cs.
Proof.
  unfold PostRouter.junctionValues. rewrite map_map. simpl. apply map_id.
Qed.

(** What each path leaves in the tables the handler does not write, and in
    the junction rows of the other posts. *)
Lemma path_frame now db input r :
  Path now db input r ->
  users (snd r) = users db /\ categories (snd r) = categories db
  /\ map Post.id (posts (snd r)) = map Post.id (posts db)
  /\ filter (otherPost (updId input)) (postCategories (snd r))
     = filter (otherPost (updId input)) (postCategories db).
Proof.
  intros [e Hu|Hu|p rest db1 Hu Hc|p rest db1 cs Hu Hc Hl
          |p rest db1 cs e Hu Hc Hl Hi|p rest db1 cs db3 Hu Hc Hl Hi];
    simpl; try (repeat split; reflexivity);
    pose proof (updatePostById_ids _ _ _ _ _ Hu) as Hids;
    apply updatePostById_Done in Hu;
    destruct Hu as (_ & _ & Husers & Hcats & Hj & _).
  - repeat split; try assumption. now rewrite Hj.
  - repeat split; try assumption. fold (otherPost (updId input)).
    now rewrite filter_idempotent, Hj.
  - repeat split; try assumption. fold (otherPost (updId input)).
    now rewrite filter_idempotent, Hj.
  - apply insertPostCategories_Done in Hi.
    destruct Hi as (Hp3 & Hu3 & Hc3 & Hj3 & _). simpl in *.
    rewrite Hp3, Hu3, Hc3, Hj3. repeat split; try assumption.
    fold (otherPost (updId input)).
    now rewrite filter_app, filter_idempotent, otherPost_junctionRows, app_nil_r, Hj.
Qed.

(** C5, as amended: an update that supplies a category id list (the empty
    list included) and succeeds leaves the post with exactly the supplied
    categories, in the supplied order, and leaves the junction rows of the
    other posts as they were. *)
Theorem update_replaces_categories now db ctx request categoryIds p db' :
  updCategoryIds request = Some categoryIds ->
  PostRouter.update now db ctx request = (Ok p, db') ->
  categoryIdsOfPost db' (updId request) = categoryIds
  /\ (forall c, In c (categoryIdsOfPost db' (updId request)) <-> In c categoryIds)
  /\ filter (otherPost (updId request)) (postCategories db')
     = filter (otherPost (updId request)) (postCategories db).
Proof.
  intros Hcs Hup.
  assert (Hpath : Path now db request (Ok p, db')).
  { destruct (update_path now db ctx request) as [(e & He & _)|[_ H]].
    - rewrite Hup in He. discriminate He.
    - rewrite <- Hup. apply H. }
  assert (Hids : categoryIdsOfPost db' (updId request) = categoryIds).
  { unfold categoryIdsOfPost, junctionOfPost.
    inversion Hpath as [| |? ? ? Hu Hc|? ? db1 cs Hu Hc Hl
                        |? ? ? ? ? Hu Hc Hl Hi|? ? db1 cs ? Hu Hc Hl Hi]; subst.
    - congruence.
    - rewrite Hcs in Hc. injection Hc as <-. simpl.
      fold (otherPost (updId request)). rewrite samePost_otherPost.
      destruct categoryIds; [reflexivity|discriminate Hl].
    - rewrite Hcs in Hc. injection Hc as <-.
      apply insertPostCategories_Done in Hi. destruct Hi as (_ & _ & _ & -> & _).
      simpl. fold (otherPost (updId request)).
      rewrite filter_app, samePost_otherPost, samePost_junctionRows. simpl.
      rewrite <- (junctionValues_categoryIds (updId request) categoryIds) at 2.
      rewrite <- (junctionRows_pairs
                    (postCategoriesSeq (deletePostCategoriesByPost (updId request) db1))
                    now (PostRouter.junctionValues (updId request) categoryIds)) at 2.
      rewrite map_map. reflexivity. }
  split; [exact Hids|]. split; [now rewrite Hids|].
  exact (proj2 (proj2 (proj2 (path_frame _ _ _ _ Hpath)))).
Qed.

(** From categories 1 and 2 to category 3. *)
Lemma update_replaces_categories_witness :
  categoryIdsOfPost Sample.db 1 = [1; 2]
  /\ exists p db',
       PostRouter.update 40 Sample.db Sample.signedIn (Sample.setCategories 1 [3])
       = (Ok p, db')
       /\ categoryIdsOfPost db' 1 = [3].
Proof.
  split; [reflexivity|]. eexists. eexists. split; [reflexivity|].
  exact (proj1 (update_replaces_categories 40 Sample.db Sample.signedIn
                  (Sample.setCategories 1 [3]) [3] _ _ eq_refl eq_refl)).
Defined.

(** C5 as stated fails: a list that names a category twice (or a category
    that does not exist) makes the insert fail after the delete has run,
    and the post is left with no category. *)
Lemma update_categories_left_empty :
  ~ (forall now db ctx request categoryIds,
       consistent db = true -> isSignedIn ctx = true ->
       updatePostSchema request = Some request ->
       hasPost db (updId request) = true ->
       updCategoryIds request = Some categoryIds ->
       forall c,
         In c (categoryIdsOfPost (snd (PostRouter.update now db ctx request))
                 (updId request))
         <-> In c categoryIds).
Proof.
  intros H.
  specialize (H 40 Sample.db Sample.signedIn (Sample.setCategories 1 [3; 3]) [3; 3]
                eq_refl eq_refl eq_refl eq_refl eq_refl 3).
  apply proj2 in H. apply H. now left.
Qed.

Example update_duplicate_category :
  PostRouter.update 40 Sample.db Sample.signedIn (Sample.setCategories 1 [3; 3])
  = (Err (Thrown INTERNAL_SERVER_ERROR "Failed to update post"),
     deletePostCategoriesByPost 1
       (mkDB (users Sample.db)
             [applyPatch (mkPatch None None None None (Some 40)) Sample.firstPost;
              Sample.sameTitle]
             (categories Sample.db) (postCategories Sample.db) 2 3 2)).
Proof. reflexivity. Qed.


(** *** Applying the same update twice *)

(** The delete of the second update finds what the delete of the first
    left, and the two inserts see the same posts and categories. *)
Lemma second_delete_same now now' db input r1 p rest db1 p' rest' d1 :
  Path now db input r1 ->
  updatePostById (updId input) (PostRouter.updatePayload now input) db
  = Done (p :: rest, db1) ->
  updatePostById (updId input) (PostRouter.updatePayload now' input) (snd r1)
  = Done (p' :: rest', d1) ->
  postCategories (deletePostCategoriesByPost (updId input) d1)
  = postCategories (deletePostCategoriesByPost (updId input) db1)
  /\ map Post.id (posts (deletePostCategoriesByPost (updId input) d1))
     = map Post.id (posts (deletePostCategoriesByPost (updId input) db1))
  /\ categories (deletePostCategoriesByPost (updId input) d1)
     = categories (deletePostCategoriesByPost (updId input) db1).
Proof.
  intros P1 Hu1 Hu2.
  destruct (path_frame _ _ _ _ P1) as (_ & Hc & Hids & Hj).
  pose proof (updatePostById_ids _ _ _ _ _ Hu1) as Hids1.
  pose proof (updatePostById_ids _ _ _ _ _ Hu2) as Hids2.
  apply updatePostById_Done in Hu1. destruct Hu1 as (_ & _ & _ & Hc1 & Hj1 & _).
  apply updatePostById_Done in Hu2. destruct Hu2 as (_ & _ & _ & Hc2 & Hj2 & _).
  simpl. fold (otherPost (updId input)).
  rewrite Hj1, Hj2, Hj, Hids1, Hids2, Hids, Hc1, Hc2, Hc. repeat split.
Qed.

(** The first update did not get past its statement on [posts]; then the
    second does not either. *)
Lemma second_update_no_hit now now' db input p rest d :
  updatePostById (updId input) (PostRouter.updatePayload now' input) db
  = Done (p :: rest, d) ->
  (exists e,
     updatePostById (updId input) (PostRouter.updatePayload now input) db = Raised e)
  \/ updatePostById (updId input) (PostRouter.updatePayload now input) db
     = Done ([], db) ->
  False.
Proof.
  intros H2 H1.
  pose proof (updatePostById_time (updId input) now now' input db) as Ht.
  rewrite H2 in Ht. destruct H1 as [[e H1]|H1]; rewrite H1 in Ht;
    [exact Ht|discriminate Ht].
Qed.

Lemma path_twice now now' db input r1 r2 :
  Path now db input r1 -> Path now' (snd r1) input r2 ->
  pairs (snd r2) = pairs (snd r1).
Proof.
  intros P1 P2. unfold pairs.
  destruct P2 as [e2 Hu2|Hu2|p2 rest2 d1 Hu2 Hc2|p2 rest2 d1 cs2 Hu2 Hc2 Hl2
                  |p2 rest2 d1 cs2 e2 Hu2 Hc2 Hl2 Hi2
                  |p2 rest2 d1 cs2 d3 Hu2 Hc2 Hl2 Hi2];
    try reflexivity.
  - apply updatePostById_Done in Hu2. destruct Hu2 as (_ & _ & _ & _ & Hj & _).
    simpl. now rewrite Hj.
  - destruct P1 as [e1 Hu1|Hu1|p1 rest1 db1 Hu1 Hc1|p1 rest1 db1 cs1 Hu1 Hc1 Hl1
                    |p1 rest1 db1 cs1 e1 Hu1 Hc1 Hl1 Hi1
                    |p1 rest1 db1 cs1 db3 Hu1 Hc1 Hl1 Hi1];
      try (exfalso; eapply second_update_no_hit; [exact Hu2|eauto]; fail);
      try congruence.
    destruct (second_delete_same _ _ _ _ _ _ _ _ _ _ _
                (CategoriesCleared _ _ _ _ _ _ _ Hu1 Hc1 Hl1) Hu1 Hu2) as (Hj & _).
    cbn [snd]. now rewrite Hj.
  - destruct P1 as [e1 Hu1|Hu1|p1 rest1 db1 Hu1 Hc1|p1 rest1 db1 cs1 Hu1 Hc1 Hl1
                    |p1 rest1 db1 cs1 e1 Hu1 Hc1 Hl1 Hi1
                    |p1 rest1 db1 cs1 db3 Hu1 Hc1 Hl1 Hi1];
      try (exfalso; eapply second_update_no_hit; [exact Hu2|eauto]; fail);
      try congruence.
    + destruct (second_delete_same _ _ _ _ _ _ _ _ _ _ _
                  (InsertRejected _ _ _ _ _ _ _ _ Hu1 Hc1 Hl1 Hi1) Hu1 Hu2) as (Hj & _).
      cbn [snd]. now rewrite Hj.
    + exfalso.
      destruct (second_delete_same _ _ _ _ _ _ _ _ _ _ _
                  (CategoriesReplaced _ _ _ _ _ _ _ _ Hu1 Hc1 Hl1 Hi1) Hu1 Hu2)
        as (Hj & Hp & Hc).
      assert (cs2 = cs1) as -> by congruence.
      pose proof (insertPostCategories_outcome
                    (PostRouter.junctionValues (updId input) cs1) now' now _ _
                    (f_equal (map PostCategory.pair) Hj) Hp Hc) as Ho.
      cbn [snd] in Hi2. rewrite Hi1, Hi2 in Ho. exact Ho.
  - destruct P1 as [e1 Hu1|Hu1|p1 rest1 db1 Hu1 Hc1|p1 rest1 db1 cs1 Hu1 Hc1 Hl1
                    |p1 rest1 db1 cs1 e1 Hu1 Hc1 Hl1 Hi1
                    |p1 rest1 db1 cs1 db3 Hu1 Hc1 Hl1 Hi1];
      try (exfalso; eapply second_update_no_hit; [exact Hu2|eauto]; fail);
      try congruence.
    + exfalso.
      destruct (second_delete_same _ _ _ _ _ _ _ _ _ _ _
                  (InsertRejected _ _ _ _ _ _ _ _ Hu1 Hc1 Hl1 Hi1) Hu1 Hu2)
        as (Hj & Hp & Hc).
      assert (cs2 = cs1) as -> by congruence.
      pose proof (insertPostCategories_outcome
                    (PostRouter.junctionValues (updId input) cs1) now' now _ _
                    (f_equal (map PostCategory.pair) Hj) Hp Hc) as Ho.
      cbn [snd] in Hi2. rewrite Hi1, Hi2 in Ho. exact Ho.
    + destruct (second_delete_same _ _ _ _ _ _ _ _ _ _ _
                  (CategoriesReplaced _ _ _ _ _ _ _ _ Hu1 Hc1 Hl1 Hi1) Hu1 Hu2)
        as (Hj & Hp & Hc).
      assert (cs2 = cs1) as -> by congruence.
      pose proof (insertPostCategories_outcome
                    (PostRouter.junctionValues (updId input) cs1) now' now _ _
                    (f_equal (map PostCategory.pair) Hj) Hp Hc) as Ho.
      cbn [snd] in Hi2. rewrite Hi1, Hi2 in Ho. cbn [snd].
      destruct Ho as [-> ->]. now rewrite Hj.
Qed.

(** The same update applied twice leaves the junction table with the
    pairs it had after the first application. *)
Lemma update_twice now now' db ctx request :
  pairs (snd (PostRouter.update now'
                (snd (PostRouter.update now db ctx request)) ctx request))
  = pairs (snd (PostRouter.update now db ctx request)).
Proof.
  destruct (update_path now db ctx request) as [(e & He & Hall)|[_ Hpath]].
  - rewrite He. cbn [snd]. now rewrite Hall.
  - exact (path_twice now now' db request _ _ (Hpath now db) (Hpath now' _)).
Qed.


Lemma categoryIdsOfPost_pairs db i :
  categoryIdsOfPost db i = map snd (filter (fun x => fst x =? i) (pairs db)).
Proof.
  unfold categoryIdsOfPost, junctionOfPost, pairs.
  induction (postCategories db) as [|r l IH]; [reflexivity|]. simpl.
  destruct (PostCategory.postId r =? i); simpl; now rewrite IH.
Qed.

(** C6: for an existing post and a category id list, applying the same
    update a second time leaves the junction table with the same
    (post, category) pairs as applying it once, hence with the same set of
    pairs and the same categories for the post. *)
Theorem update_idempotent_categories now now' db ctx request categoryIds :
  hasPost db (updId request) = true ->
  updCategoryIds request = Some categoryIds ->
  let once := snd (PostRouter.update now db ctx request) in
  let twice := snd (PostRouter.update now' once ctx request) in
  pairs twice = pairs once
  /\ (forall x, In x (pairs twice) <-> In x (pairs once))
  /\ categoryIdsOfPost twice (updId request) = categoryIdsOfPost once (updId request).
Proof.
  intros _ _ once twice.
  assert (H : pairs twice = pairs once) by apply update_twice.
  split; [exact H|]. split; [now rewrite H|].
  now rewrite !categoryIdsOfPost_pairs, H.
Qed.

Lemma update_idempotent_categories_witness :
  pairs (snd (PostRouter.update 50
                (snd (PostRouter.update 40 Sample.db Sample.signedIn
                        (Sample.setCategories 1 [3])))
                Sample.signedIn (Sample.setCategories 1 [3])))
  = [(1, 3)].
Proof.
  rewrite (proj1 (update_idempotent_categories 40 50 Sample.db Sample.signedIn
                    (Sample.setCategories 1 [3]) [3] eq_refl eq_refl)).
  reflexivity.
Defined.

(** *** What an update leaves alone *)

Lemma rowFrame_refl now request p : Frame.rowFrame now request p p.
Proof.
  unfold Frame.rowFrame. repeat split; try reflexivity; try tauto.
Qed.

Lemma rowFrame_applyPatch now request p :
  Frame.rowFrame now request p
    (if Post.id p =? updId request
     then applyPatch (PostRouter.updatePayload now request) p else p).
Proof.
  destruct (Post.id p =? updId request) eqn:E; [|apply rowFrame_refl].
  apply Nat.eqb_eq in E. unfold Frame.rowFrame, applyPatch, PostRouter.updatePayload.
  destruct request as [i [t|] [c|] [b|] cs]; cbn [updId updTitle updContent
    updPublished setTitle setContent setPublished setSlug setUpdatedAt orElse
    Post.id Post.title Post.slug Post.content Post.published Post.excerpt
    Post.authorId Post.featured Post.viewCount Post.readingTime Post.seoTitle
    Post.seoDescription Post.publishedAt Post.createdAt Post.updatedAt] in *;
    try destruct (truthyString t);
    repeat split; try reflexivity; try discriminate;
    try (intros H; exfalso; now apply H);
    try (intros _; eexists; split; reflexivity);
    now right.
Qed.

Lemma Forall2_map_same {A : Type} (R : A -> A -> Prop) (f : A -> A) l :
  (forall x, R x (f x)) -> Forall2 R l (map f l).
Proof. intros H. induction l; simpl; constructor; auto. Qed.

Lemma rowFrame_all now request l : Forall2 (Frame.rowFrame now request) l l.
Proof. induction l; constructor; [apply rowFrame_refl|assumption]. Qed.

Lemma path_posts now db input r :
  Path now db input r ->
  Forall2 (Frame.rowFrame now input) (posts db) (posts (snd r)).
Proof.
  assert (Hsame : Forall2 (Frame.rowFrame now input) (posts db) (posts db))
    by apply rowFrame_all.
  assert (Hupd : forall hits db1,
             updatePostById (updId input) (PostRouter.updatePayload now input) db
             = Done (hits, db1) ->
             Forall2 (Frame.rowFrame now input) (posts db) (posts db1)).
  { intros hits db1 Hu. apply updatePostById_Done in Hu.
    destruct Hu as (_ & -> & _). apply Forall2_map_same.
    apply rowFrame_applyPatch. }
  intros [e Hu|Hu|p rest db1 Hu Hc|p rest db1 cs Hu Hc Hl
          |p rest db1 cs e Hu Hc Hl Hi|p rest db1 cs db3 Hu Hc Hl Hi];
    cbn [snd]; try exact Hsame; try exact (Hupd _ _ Hu).
  apply insertPostCategories_Done in Hi. destruct Hi as (-> & _).
  exact (Hupd _ _ Hu).
Qed.

Lemma path_keeps_categories now db input r :
  Path now db input r -> updCategoryIds input = None ->
  postCategories (snd r) = postCategories db.
Proof.
  intros [e Hu|Hu|p rest db1 Hu Hc|p rest db1 cs Hu Hc Hl
          |p rest db1 cs e Hu Hc Hl Hi|p rest db1 cs db3 Hu Hc Hl Hi] Hnone;
    try reflexivity; try congruence.
  cbn [snd]. apply updatePostById_Done in Hu.
  now destruct Hu as (_ & _ & _ & _ & -> & _).
Qed.

Lemma path_returned_slug now db input p db' t :
  Path now db input (Ok p, db') -> updTitle input = Some t ->
  truthyString t = true ->
  Post.title p = t /\ Post.slug p = Utils.generateSlug t.
Proof.
  intros Hpath Ht Htruthy.
  assert (Hhit : forall rest db1,
             updatePostById (updId input) (PostRouter.updatePayload now input) db
             = Done (p :: rest, db1) ->
             Post.title p = t /\ Post.slug p = Utils.generateSlug t).
  { intros rest db1 Hu. apply updatePostById_Done in Hu. destruct Hu as (Hhits & _).
    destruct (filter _ (posts db)) as [|q l]; [discriminate Hhits|].
    injection Hhits as -> _. unfold applyPatch, PostRouter.updatePayload. simpl.
    rewrite Ht, Htruthy. now split. }
  inversion Hpath; subst; eauto.
Qed.

(** C10: an update changes, in the row of its post, only the columns the
    request supplies, [updatedAt], and the slug when a title is supplied,
    which is then generated from the new title; it changes no other row
    and no other table; without a title the slug stays, and without a
    category id list the junction rows stay. *)
Theorem update_frame now db ctx request :
  let result := PostRouter.update now db ctx request in
  users (snd result) = users db
  /\ categories (snd result) = categories db
  /\ Forall2 (Frame.rowFrame now request) (posts db) (posts (snd result))
  /\ (forall p t, fst result = Ok p -> updTitle request = Some t ->
                  Post.title p = t /\ Post.slug p = Utils.generateSlug t)
  /\ (updCategoryIds request = None ->
      postCategories (snd result) = postCategories db)
  /\ filter (otherPost (updId request)) (postCategories (snd result))
     = filter (otherPost (updId request)) (postCategories db).
Proof.
  cbv zeta.
  destruct (update_path now db ctx request) as [(e & He & _)|[_ Hpath]].
  - rewrite He. cbn [fst snd]. repeat split; try discriminate.
    apply rowFrame_all.
  - specialize (Hpath now db).
    destruct (path_frame _ _ _ _ Hpath) as (Hu & Hc & _ & Hj).
    split; [exact Hu|]. split; [exact Hc|].
    split; [now apply path_posts|].
    split; [|split; [exact (path_keeps_categories now db request _ Hpath)|exact Hj]].
    intros p t Hok Ht.
    destruct (PostRouter.update now db ctx request) as [r db'] eqn:Hup.
    cbn [fst] in Hok. subst r.
    apply (path_returned_slug now db request p db' t Hpath Ht).
    unfold PostRouter.update, protectedProcedure, publicProcedure in Hup.
    destruct (_ || _); [discriminate|].
    unfold updatePostSchema in Hup. rewrite Ht in Hup.
    destruct (idSchema (updId request)); [|discriminate].
    cbn [andb optional] in Hup. unfold titleSchema in Hup.
    destruct t; [discriminate|reflexivity].
Qed.


Lemma update_frame_witness :
  postCategories
    (snd (PostRouter.update 40 Sample.db Sample.signedIn
            (mkUpdateInput 1 None (Some "A new body") None None)))
  = postCategories Sample.db.
Proof.
  apply (proj1 (proj2 (proj2 (proj2 (proj2
           (update_frame 40 Sample.db Sample.signedIn
              (mkUpdateInput 1 None (Some "A new body") None None))))))).
  reflexivity.
Defined.

(** An update without a title keeps every slug. *)
Example update_keeps_slugs :
  map Post.slug
    (posts (snd (PostRouter.update 40 Sample.db Sample.signedIn
                   (mkUpdateInput 1 None (Some "A new body") None None))))
  = map Post.slug (posts Sample.db).
Proof. reflexivity. Qed.

End UpdateFacts.

(** *** Delete *)

Section DeleteFacts.
Import Storage Validations TRPC UpdatePaths.



Lemma joinedRows_post db r : In r (joinedRows db) -> In (jPost r) (posts db).
Proof.
  unfold joinedRows. intros H. apply in_flat_map in H.
  destruct H as (p & Hp & Hr).
  assert (jPost r = p) as ->; [|exact Hp].
  unfold leftJoinPost in Hr.
  destruct (filter _ (postCategories db)) as [|pc pcs].
  - destruct Hr as [<-|[]]. reflexivity.
  - apply in_flat_map in Hr. destruct Hr as (pc' & _ & Hr).
    unfold leftJoinCategory in Hr.
    destruct (filter _ (categories db)) as [|c cs].
    + destruct Hr as [<-|[]]. reflexivity.
    + apply in_map_iff in Hr. now destruct Hr as (c' & <- & _).
Qed.







End DeleteFacts.

(** ** The storage contract is an invariant of the mutations *)

Section Reflection.
Import Storage Invariant.

Lemma existsb_eqb_In {A : Type} (eqb : A -> A -> bool)
    (eqb_eq : forall a b, eqb a b = true <-> a = b) x l :
  existsb (eqb x) l = true <-> In x l.
Proof.
  rewrite existsb_exists. split.
  - intros (y & Hy & E). apply eqb_eq in E. now subst.
  - intros H. exists x. split; [exact H|now apply eqb_eq].
Qed.

Lemma distinct_NoDup {A : Type} (eqb : A -> A -> bool)
    (eqb_eq : forall a b, eqb a b = true <-> a = b)
    (distinct : list A -> bool)
    (distinct_nil : distinct [] = true)
    (distinct_cons : forall x l,
        distinct (x :: l) = negb (existsb (eqb x) l) && distinct l) l :
  distinct l = true <-> NoDup l.
Proof.
  induction l as [|x l IH].
  - rewrite distinct_nil. split; [constructor|reflexivity].
  - rewrite distinct_cons, andb_true_iff, negb_true_iff, IH.
    rewrite <- not_true_iff_false, (existsb_eqb_In eqb eqb_eq). split.
    + intros [H1 H2]. now constructor.
    + intros H. inversion H. now split.
Qed.

Lemma distinctNats_NoDup l : distinctNats l = true <-> NoDup l.
Proof.
  apply (distinct_NoDup Nat.eqb Nat.eqb_eq); reflexivity.
Qed.

Lemma distinctStrings_NoDup l : distinctStrings l = true <-> NoDup l.
Proof.
  apply (distinct_NoDup String.eqb String.eqb_eq); reflexivity.
Qed.

Lemma pairEqb_eq a b : pairEqb a b = true <-> a = b.
Proof.
  destruct a as [a1 a2], b as [b1 b2]. unfold pairEqb. simpl.
  rewrite andb_true_iff, !Nat.eqb_eq. split; [intros [-> ->]; reflexivity|].
  intros H. injection H as -> ->. now split.
Qed.

Lemma distinctPairs_NoDup l : distinctPairs l = true <-> NoDup l.
Proof.
  apply (distinct_NoDup pairEqb pairEqb_eq); reflexivity.
Qed.

Lemma forallb_Forall {A : Type} (f : A -> bool) (P : A -> Prop) l :
  (forall x, f x = true <-> P x) -> forallb f l = true <-> Forall P l.
Proof.
  intros H. rewrite forallb_forall, Forall_forall.
  split; intros Hall x Hx; apply H, Hall, Hx.
Qed.

(** [consistent] decides [Consistent]. *)
Lemma consistent_Consistent db : consistent db = true <-> Consistent db.
Proof.
  unfold consistent. rewrite !andb_true_iff.
  rewrite !distinctNats_NoDup, !distinctStrings_NoDup, distinctPairs_NoDup.
  rewrite (forallb_Forall _ (postRowOk db)), (forallb_Forall _ (categoryRowOk db)),
    (forallb_Forall _ (junctionRowOk db)).
  - split.
    + intros H. decompose [and] H. now constructor.
    + intros []. repeat split; assumption.
  - intros r. unfold junctionRowOk. now rewrite !andb_true_iff, Nat.leb_le.
  - intros c. unfold categoryRowOk. now rewrite !andb_true_iff, !Nat.leb_le.
  - intros p. unfold postRowOk. rewrite !andb_true_iff, !Nat.leb_le. tauto.
Qed.

End Reflection.

Section Preservation.
Import Storage Validations TRPC Invariant.

Lemma firstViolation_None checks :
  firstViolation checks = None -> Forall (fun c => fst c = true) checks.
Proof.
  induction checks as [|[[] e] checks IH]; simpl; intros H;
    [constructor|constructor; [reflexivity|now apply IH]|discriminate].
Qed.

Lemma NoDup_map_filter {A B : Type} (f : A -> B) (g : A -> bool) l :
  NoDup (map f l) -> NoDup (map f (filter g l)).
Proof.
  induction l as [|x l IH]; [intros; constructor|]. simpl. intros H.
  inversion H as [|? ? Hnotin Hnd]; subst.
  destruct (g x); [|now apply IH]. simpl. constructor; [|now apply IH].
  intros Hin. apply Hnotin. apply in_map_iff in Hin.
  destruct Hin as (y & Hy & Hin). apply filter_In in Hin.
  apply in_map_iff. exists y. now split.
Qed.

Lemma NoDup_map_injective {A B : Type} (f : A -> B) l x y :
  NoDup (map f l) -> In x l -> In y l -> f x = f y -> x = y.
Proof.
  induction l as [|a l IH]; [intros _ []|]. simpl. intros Hnd Hx Hy Hf.
  inversion Hnd as [|? ? Hnotin Hnd']; subst.
  destruct Hx as [<-|Hx], Hy as [<-|Hy]; try reflexivity.
  - exfalso. apply Hnotin. rewrite Hf. now apply in_map.
  - exfalso. apply Hnotin. rewrite <- Hf. now apply in_map.
  - now apply IH.
Qed.

Lemma NoDup_map_on {A B : Type} (g : A -> B) l :
  NoDup l -> (forall x y, In x l -> In y l -> g x = g y -> x = y) ->
  NoDup (map g l).
Proof.
  induction l as [|a l IH]; [intros; constructor|]. intros Hnd Hinj.
  inversion Hnd as [|? ? Hnotin Hnd']; subst. simpl. constructor.
  - intros Hin. apply in_map_iff in Hin. destruct Hin as (y & Hy & Hin).
    apply Hnotin. rewrite <- (Hinj y a); [exact Hin|now right|now left|exact Hy].
  - apply IH; [exact Hnd'|]. intros x y Hx Hy. apply Hinj; now right.
Qed.

Lemma hasUser_In db i : hasUser db i = true <-> In i (map User.id (users db)).
Proof.
  unfold hasUser. rewrite existsb_exists, in_map_iff.
  split; intros (u & H1 & H2); exists u.
  - apply Nat.eqb_eq in H2. now split.
  - split; [exact H2|now apply Nat.eqb_eq].
Qed.

Lemma hasPost_In db i : hasPost db i = true <-> In i (map Post.id (posts db)).
Proof.
  unfold hasPost. rewrite existsb_exists, in_map_iff.
  split; intros (u & H1 & H2); exists u.
  - apply Nat.eqb_eq in H2. now split.
  - split; [exact H2|now apply Nat.eqb_eq].
Qed.

Lemma hasCategory_In db i :
  hasCategory db i = true <-> In i (map Category.id (categories db)).
Proof.
  unfold hasCategory. rewrite existsb_exists, in_map_iff.
  split; intros (u & H1 & H2); exists u.
  - apply Nat.eqb_eq in H2. now split.
  - split; [exact H2|now apply Nat.eqb_eq].
Qed.

(** The row conditions look at the ids of the referenced tables and at
    the sequences only. *)
Lemma postRowOk_mono db db' p :
  incl (map User.id (users db)) (map User.id (users db')) ->
  postsSeq db <= postsSeq db' ->
  postRowOk db p -> postRowOk db' p.
Proof.
  intros Hu Hs (H1 & H2 & H3 & H4). repeat split; try assumption.
  - apply hasUser_In, Hu, hasUser_In, H3.
  - lia.
Qed.

Lemma categoryRowOk_mono db db' c :
  categoriesSeq db <= categoriesSeq db' ->
  categoryRowOk db c -> categoryRowOk db' c.
Proof. intros Hs (H1 & H2 & H3). repeat split; try assumption. lia. Qed.

Lemma junctionRowOk_mono db db' r :
  (hasPost db (PostCategory.postId r) = true ->
   hasPost db' (PostCategory.postId r) = true) ->
  incl (map Category.id (categories db)) (map Category.id (categories db')) ->
  postCategoriesSeq db <= postCategoriesSeq db' ->
  junctionRowOk db r -> junctionRowOk db' r.
Proof.
  intros Hp Hc Hs (H1 & H2 & H3). repeat split.
  - now apply Hp.
  - apply hasCategory_In, Hc, hasCategory_In, H2.
  - lia.
Qed.


Lemma Consistent_insertPost title content slug published authorId now db p db' :
  Consistent db ->
  insertPost title content slug published authorId now db = Done (p, db') ->
  Consistent db'.
Proof.
  intros [] H. unfold insertPost in H.
  destruct (firstViolation _) eqn:Hv; [discriminate|]. injection H as <- <-.
  rewrite firstViolation_app in Hv.
  destruct (firstViolation (postRowChecks _ _)) eqn:Hrow; [discriminate|].
  apply firstViolation_None in Hv, Hrow.
  inversion Hv as [|? ? Huser _]; subst. cbn [fst] in Huser.
  unfold postRowChecks in Hrow. cbn [Post.title Post.slug Post.id] in Hrow.
  repeat match goal with
         | F : Forall _ (_ :: _) |- _ =>
             let H1 := fresh "Hck" in
             apply Forall_cons_iff in F; destruct F as [H1 F]; cbn [fst] in H1
         end.
  repeat match goal with
         | H : (_ <=? _) = true |- _ => apply Nat.leb_le in H
         | H : negb _ = true |- _ => apply negb_true_iff in H
         end.
  assert (Hfresh : forall q, In q (posts db) -> Post.id q <= postsSeq db).
  { intros q Hq. exact (proj2 (proj2 (proj2 (proj1 (Forall_forall _ _) postRows0 q Hq)))). }
  constructor; cbn [users posts categories postCategories]; try assumption.
  - rewrite map_app. apply NoDup_app; [assumption|repeat constructor; intros []|].
    intros a Ha [<-|[]]. apply in_map_iff in Ha. destruct Ha as (q & Hq & Hin).
    specialize (Hfresh q Hin). simpl in Hq. lia.
  - rewrite map_app. apply NoDup_app; [assumption|repeat constructor; intros []|].
    intros a Ha [<-|[]]. apply in_map_iff in Ha. destruct Ha as (q & Hq & Hin).
    assert (Hex : existsb (fun q => String.eqb (Post.slug q) slug) (posts db) = true).
    { apply existsb_exists. exists q. split; [exact Hin|]. now apply String.eqb_eq. }
    simpl in *. congruence.
  - apply Forall_app. split.
    + revert postRows0. apply Forall_impl. intros q.
      apply postRowOk_mono; [apply incl_refl|simpl; lia].
    + repeat constructor; simpl; try assumption.
  - revert junctionRowsOk0. apply Forall_impl. intros r.
    apply junctionRowOk_mono; [|apply incl_refl|reflexivity].
    rewrite !hasPost_In. cbn [posts]. rewrite map_app. intros Hin.
    apply in_or_app. now left.
Qed.

Lemma Consistent_insertCategory name description slug now db c db' :
  Consistent db ->
  insertCategory name description slug now db = Done (c, db') ->
  Consistent db'.
Proof.
  intros [] H. unfold insertCategory in H.
  destruct (firstViolation _) eqn:Hrow; [discriminate|]. injection H as <- <-.
  apply firstViolation_None in Hrow.
  unfold categoryRowChecks in Hrow.
  cbn [Category.name Category.slug Category.id] in Hrow.
  repeat match goal with
         | F : Forall _ (_ :: _) |- _ =>
             let H1 := fresh "Hck" in
             apply Forall_cons_iff in F; destruct F as [H1 F]; cbn [fst] in H1
         end.
  repeat match goal with
         | H : (_ <=? _) = true |- _ => apply Nat.leb_le in H
         | H : negb _ = true |- _ => apply negb_true_iff in H
         end.
  assert (Hfresh : forall q, In q (categories db) -> Category.id q <= categoriesSeq db).
  { intros q Hq. exact (proj2 (proj2 (proj1 (Forall_forall _ _) categoryRows0 q Hq))). }
  constructor; cbn [users posts categories postCategories]; try assumption.
  - rewrite map_app. apply NoDup_app; [assumption|repeat constructor; intros []|].
    intros a Ha [<-|[]]. apply in_map_iff in Ha. destruct Ha as (q & Hq & Hin).
    specialize (Hfresh q Hin). simpl in Hq. lia.
  - rewrite map_app. apply NoDup_app; [assumption|repeat constructor; intros []|].
    intros a Ha [<-|[]]. apply in_map_iff in Ha. destruct Ha as (q & Hq & Hin).
    assert (Hex : existsb (fun q => String.eqb (Category.name q) name) (categories db)
                  = true).
    { apply existsb_exists. exists q. split; [exact Hin|]. now apply String.eqb_eq. }
    simpl in *. congruence.
  - rewrite map_app. apply NoDup_app; [assumption|repeat constructor; intros []|].
    intros a Ha [<-|[]]. apply in_map_iff in Ha. destruct Ha as (q & Hq & Hin).
    assert (Hex : existsb (fun q => String.eqb (Category.slug q) slug) (categories db)
                  = true).
    { apply existsb_exists. exists q. split; [exact Hin|]. now apply String.eqb_eq. }
    simpl in *. congruence.
  - apply Forall_app. split.
    + revert categoryRows0. apply Forall_impl. intros q.
      apply categoryRowOk_mono. simpl. lia.
    + repeat constructor; simpl; assumption.
  - revert junctionRowsOk0. apply Forall_impl. intros r.
    apply junctionRowOk_mono; [tauto| |reflexivity].
    cbn [categories]. rewrite map_app. apply incl_appl, incl_refl.
Qed.


Lemma Forall_filter_weaken {A : Type} (P : A -> Prop) (g : A -> bool) l :
  Forall P l -> Forall P (filter g l).
Proof.
  intros H. apply Forall_forall. intros x Hx. apply filter_In in Hx.
  exact (proj1 (Forall_forall _ _) H x (proj1 Hx)).
Qed.

Lemma Consistent_deletePostCategoriesByPost i db :
  Consistent db -> Consistent (deletePostCategoriesByPost i db).
Proof.
  intros []. constructor; cbn [users posts categories postCategories];
    try assumption; try (now apply NoDup_map_filter).
  now apply Forall_filter_weaken.
Qed.

Lemma junctionRows_ids seq now values :
  map PostCategory.id (junctionRows seq now values)
  = List.seq (S seq) (List.length values).
Proof.
  revert seq. induction values as [|[p c] values IH]; intros seq; [reflexivity|].
  simpl. now rewrite IH.
Qed.

Lemma Consistent_insertPostCategories values now db db' :
  Consistent db -> insertPostCategories values now db = Done db' -> Consistent db'.
Proof.
  intros [] H. unfold insertPostCategories in H.
  destruct (firstViolation _) eqn:Hrow; [discriminate|]. injection H as <-.
  apply firstViolation_None in Hrow.
  repeat match goal with
         | F : Forall _ (_ :: _) |- _ =>
             let H1 := fresh "Hck" in
             apply Forall_cons_iff in F; destruct F as [H1 F]; cbn [fst] in H1
         end.
  apply distinctPairs_NoDup in Hck.
  apply negb_true_iff in Hck0.
  constructor; cbn [users posts categories postCategories]; try assumption.
  - rewrite map_app, junctionRows_ids.
    apply NoDup_app; [assumption|apply seq_NoDup|].
    intros a Ha Hseq. apply in_seq in Hseq. apply in_map_iff in Ha.
    destruct Ha as (r & Hr & Hin).
    pose proof (proj2 (proj2 (proj1 (Forall_forall _ _) junctionRowsOk0 r Hin))). lia.
  - rewrite map_app, junctionRows_pairs.
    apply NoDup_app; [assumption|assumption|].
    intros a Ha Hv.
    assert (Hex : existsb (fun v => existsb (pairEqb v)
                                      (map PostCategory.pair (postCategories db)))
                          values = true).
    { apply existsb_exists. exists a. split; [exact Hv|].
      apply (existsb_eqb_In pairEqb pairEqb_eq). exact Ha. }
    congruence.
  - apply Forall_app. split.
    + revert junctionRowsOk0. apply Forall_impl. intros r.
      apply junctionRowOk_mono; [tauto|apply incl_refl|simpl; lia].
    + apply Forall_forall. intros r Hr.
      assert (Hpair : In (PostCategory.pair r) values).
      { rewrite <- (junctionRows_pairs (postCategoriesSeq db) now values).
        now apply in_map. }
      assert (Hid : In (PostCategory.id r)
                       (List.seq (S (postCategoriesSeq db)) (List.length values))).
      { rewrite <- (junctionRows_ids (postCategoriesSeq db) now values).
        now apply in_map. }
      apply in_seq in Hid.
      repeat split.
      * exact (proj1 (forallb_forall _ _) Hck1 _ Hpair).
      * exact (proj1 (forallb_forall _ _) Hck2 _ Hpair).
      * simpl. lia.
Qed.

Lemma Consistent_deletePostById i db :
  Consistent db -> Consistent (snd (deletePostById i db)).
Proof.
  intros []. unfold deletePostById. cbn [snd].
  constructor; cbn [users posts categories postCategories];
    try assumption; try (now apply NoDup_map_filter).
  - now apply Forall_filter_weaken.
  - apply Forall_forall. intros r Hr. apply filter_In in Hr.
    destruct Hr as [Hin Hkeep]. apply negb_true_iff in Hkeep.
    destruct (proj1 (Forall_forall _ _) junctionRowsOk0 r Hin) as (Hp & Hc & Hs).
    repeat split; try assumption.
    apply hasPost_In in Hp. apply in_map_iff in Hp. destruct Hp as (q & Hq & Hqin).
    apply hasPost_In. cbn [posts]. apply in_map_iff. exists q.
    split; [exact Hq|]. apply filter_In. split; [exact Hqin|].
    apply negb_true_iff. destruct (Post.id q =? i) eqn:E; [|reflexivity].
    assert (Hex : existsb (fun p => Post.id p =? PostCategory.postId r)
                          (filter (fun p => Post.id p =? i) (posts db)) = true).
    { apply existsb_exists. exists q. split; [now apply filter_In|].
      now apply Nat.eqb_eq. }
    congruence.
Qed.


(** What the checks of a passing [UPDATE] say of each rewritten row. *)
Lemma updatePostById_checks i patch db hits db1 p :
  updatePostById i patch db = Done (hits, db1) ->
  In p (posts db) -> Post.id p = i ->
  5 <= String.length (Post.title (applyPatch patch p))
  /\ 3 <= String.length (Post.slug (applyPatch patch p))
  /\ forall q, In q (posts db) -> Post.id q <> i ->
               Post.slug q <> Post.slug (applyPatch patch p).
Proof.
  unfold updatePostById. destruct (firstViolation _) eqn:Hv; [discriminate|].
  intros _ Hin Hid. apply firstViolation_None in Hv.
  assert (Hrow : Forall (fun c => fst c = true)
                   (postRowChecks (filter (fun p => negb (Post.id p =? i)) (posts db))
                                  (applyPatch patch p))).
  { apply Forall_forall. intros c Hc.
    apply (proj1 (Forall_forall _ _) Hv). apply in_flat_map.
    exists (applyPatch patch p). split; [|exact Hc].
    apply in_map, filter_In. split; [exact Hin|now apply Nat.eqb_eq]. }
  unfold postRowChecks in Hrow.
  repeat match goal with
         | F : Forall _ (_ :: _) |- _ =>
             let H1 := fresh "Hck" in
             apply Forall_cons_iff in F; destruct F as [H1 F]; cbn [fst] in H1
         end.
  repeat match goal with
         | H : (_ <=? _) = true |- _ => apply Nat.leb_le in H
         | H : negb _ = true |- _ => apply negb_true_iff in H
         end.
  repeat split; try assumption.
  intros q Hq Hqid Hslug.
  assert (Hex : existsb (fun q => String.eqb (Post.slug q)
                                    (Post.slug (applyPatch patch p)))
                        (filter (fun p => negb (Post.id p =? i)) (posts db)) = true).
  { apply existsb_exists. exists q. split.
    - apply filter_In. split; [exact Hq|]. apply negb_true_iff.
      now apply Nat.eqb_neq.
    - now apply String.eqb_eq. }
  congruence.
Qed.

Lemma Consistent_updatePostById i patch db hits db1 :
  Consistent db -> updatePostById i patch db = Done (hits, db1) -> Consistent db1.
Proof.
  intros Hcons Hu.
  pose proof (updatePostById_checks i patch db hits db1) as Hchecks.
  pose proof (updatePostById_ids _ _ _ _ _ Hu) as Hids.
  pose proof Hu as Hdone. apply updatePostById_Done in Hdone.
  destruct Hdone as (_ & Hposts & Husers & Hcats & Hj & Hjs & Hps & Hcs).
  destruct Hcons.
  assert (Hrows : forall db' p, users db' = users db -> postsSeq db' = postsSeq db ->
                                postRowOk db p -> postRowOk db' p).
  { intros db' p Hu' Hs'. apply postRowOk_mono; [rewrite Hu'; apply incl_refl|lia]. }
  constructor.
  - now rewrite Husers.
  - now rewrite Hids.
  - rewrite Hposts, map_map. apply NoDup_map_on.
    + exact (NoDup_map_inv _ _ postIds0).
    + intros x y Hx Hy Hslug.
      destruct (Post.id x =? i) eqn:Ex, (Post.id y =? i) eqn:Ey.
      * apply Nat.eqb_eq in Ex, Ey.
        apply (NoDup_map_injective Post.id (posts db)); congruence.
      * apply Nat.eqb_eq in Ex. apply Nat.eqb_neq in Ey. exfalso.
        exact (proj2 (proj2 (Hchecks x Hu Hx Ex)) y Hy Ey (eq_sym Hslug)).
      * apply Nat.eqb_eq in Ey. apply Nat.eqb_neq in Ex. exfalso.
        exact (proj2 (proj2 (Hchecks y Hu Hy Ey)) x Hx Ex Hslug).
      * now apply (NoDup_map_injective Post.slug (posts db)).
  - rewrite Hposts. apply Forall_forall. intros p' Hp'.
    apply in_map_iff in Hp'. destruct Hp' as (p & <- & Hp).
    pose proof (proj1 (Forall_forall _ _) postRows0 p Hp) as Hok.
    apply (Hrows db1) in Hok; [|assumption|assumption].
    destruct (Post.id p =? i) eqn:E; [|exact Hok].
    apply Nat.eqb_eq in E. destruct (Hchecks p Hu Hp E) as (Ht & Hs & _).
    destruct Hok as (_ & _ & Hauthor & Hseq). repeat split; assumption.
  - now rewrite Hcats.
  - now rewrite Hcats.
  - now rewrite Hcats.
  - rewrite Hcats. revert categoryRows0. apply Forall_impl. intros c.
    apply categoryRowOk_mono. lia.
  - now rewrite Hj.
  - now rewrite Hj.
  - rewrite Hj. revert junctionRowsOk0. apply Forall_impl. intros r.
    apply junctionRowOk_mono.
    + rewrite !hasPost_In. now rewrite Hids.
    + rewrite Hcats. apply incl_refl.
    + lia.
Qed.

(** *** The procedures keep the contract *)

Theorem create_keeps_contract now db ctx request :
  Consistent db -> Consistent (snd (PostRouter.create now db ctx request)).
Proof.
  intros Hcons. unfold PostRouter.create.
  destruct (protectedProcedure_cases createPostSchema (PostRouter.createHandler now db)
              (fun e => (Err e, db)) ctx request)
    as [(input & _ & _ & ->)|(e & _ & ->)]; [|exact Hcons].
  unfold PostRouter.createHandler.
  destruct (insertPost _ _ _ _ _ _ _) as [[newPost db1]|] eqn:Hi; [|exact Hcons].
  apply (Consistent_insertPost _ _ _ _ _ _ _ _ _ Hcons) in Hi.
  destruct (0 <? List.length (Validations.categoryIds input)); [|exact Hi].
  destruct (insertPostCategories _ _ _) as [db2|] eqn:Hj; [|exact Hi].
  exact (Consistent_insertPostCategories _ _ _ _ Hi Hj).
Qed.

Theorem update_keeps_contract now db ctx request :
  Consistent db -> Consistent (snd (PostRouter.update now db ctx request)).
Proof.
  intros Hcons.
  destruct (update_path now db ctx request) as [(e & -> & _)|[_ Hpath]];
    [exact Hcons|].
  destruct (Hpath now db)
    as [e Hu|Hu|p rest db1 Hu Hc|p rest db1 cs Hu Hc Hl
        |p rest db1 cs e Hu Hc Hl Hi|p rest db1 cs db3 Hu Hc Hl Hi];
    cbn [snd]; try exact Hcons;
    apply (Consistent_updatePostById _ _ _ _ _ Hcons) in Hu; try exact Hu;
    try (now apply Consistent_deletePostCategoriesByPost).
  apply (Consistent_insertPostCategories _ _ _ _
           (Consistent_deletePostCategoriesByPost _ _ Hu) Hi).
Qed.

Theorem delete_keeps_contract db ctx id :
  Consistent db -> Consistent (snd (PostRouter.delete db ctx id)).
Proof.
  intros Hcons. unfold PostRouter.delete.
  destruct (protectedProcedure_cases (fun i => if idSchema i then Some i else None)
              (PostRouter.deleteHandler db) (fun e => (Err e, db)) ctx id)
    as [(input & _ & _ & ->)|(e & _ & ->)]; [|exact Hcons].
  unfold PostRouter.deleteHandler.
  pose proof (Consistent_deletePostById input db Hcons) as Hd.
  destruct (deletePostById input db) as [[|p l] db1]; exact Hd.
Qed.

Theorem category_create_keeps_contract now db request :
  Consistent db -> Consistent (snd (CategoryRouter.create now db request)).
Proof.
  intros Hcons. unfold CategoryRouter.create, publicProcedure.
  destruct (createCategorySchema request) as [input|]; [|exact Hcons].
  unfold CategoryRouter.createHandler.
  destruct (insertCategory _ _ _ _ _) as [[c db1]|] eqn:Hi; [|exact Hcons].
  exact (Consistent_insertCategory _ _ _ _ _ _ _ Hcons Hi).
Qed.

End Preservation.

(* ===================================================================== *)
(** ** More of src/lib/utils.ts *)
(* ===================================================================== *)

Section SlugAgain.
Import Utils SlugSpec.

Lemma slugChar_toLowerChar c : isSlugChar c = true -> toLowerChar c = c.
Proof. destruct c as [[] [] [] [] [] [] [] []]; (reflexivity || discriminate). Qed.

Lemma toLowerCase_slugChars s :
  allChars isSlugChar s = true -> toLowerCase s = s.
Proof.
  induction s as [|c s IH]; [reflexivity|]. simpl. intros H.
  apply andb_prop in H. destruct H as [Hc Hs].
  now rewrite (slugChar_toLowerChar _ Hc), (IH Hs).
Qed.

Lemma fields_app_word w rest :
  allChars isLowerAlnum w = true ->
  fields (w ++ rest)%string
  = (w ++ hd "" (fields rest))%string :: tl (fields rest).
Proof.
  induction w as [|c w IH]; intros H.
  - simpl. apply fields_eta.
  - simpl in H. apply andb_prop in H. destruct H as [Hc Hw].
    change (String c w ++ rest)%string with (String c (w ++ rest)%string).
    rewrite (fields_cons_alnum _ _ Hc), (IH Hw). reflexivity.
Qed.

Lemma fields_concat w ws :
  Forall isWord (w :: ws) -> fields (String.concat "-" (w :: ws)) = w :: ws.
Proof.
  revert w. induction ws as [|w' ws IH]; intros w Hall;
    inversion Hall as [|? ? [Hne Hal] Hrest]; subst.
  - simpl. rewrite <- (append_empty_r w) at 1.
    rewrite (fields_app_word _ _ Hal). simpl. now rewrite append_empty_r.
  - rewrite concat_cons. unfold joinTail.
    rewrite (fields_app_word _ _ Hal).
    rewrite (fields_cons_other "-" _ eq_refl). cbn [hd tl].
    now rewrite append_empty_r, (IH _ Hrest).
Qed.

Lemma filter_nonEmpty_words ws :
  Forall isWord ws -> filter nonEmpty ws = ws.
Proof.
  induction 1 as [|w ws [Hne _] _ IH]; [reflexivity|]. simpl.
  unfold nonEmpty at 1. now rewrite Hne, IH.
Qed.

Lemma words_concat ws :
  Forall isWord ws -> words (String.concat "-" ws) = ws.
Proof.
  intros Hall. destruct ws as [|w ws]; [reflexivity|].
  unfold words. rewrite (fields_concat _ _ Hall).
  now apply filter_nonEmpty_words.
Qed.

(** X1: a slug is its own slug: generating a slug from a generated slug
    gives the same slug back. *)
Theorem generateSlug_idempotent (text : string) :
  generateSlug (generateSlug text) = generateSlug text.
Proof.
  rewrite (generateSlug_words (generateSlug text)), (generateSlug_words text).
  pose proof (words_isWord (toLowerCase text)) as Hw.
  destruct (words (toLowerCase text)) as [|w ws] eqn:E; [reflexivity|].
  destruct (concat_isWord w ws Hw) as (_ & Ha & _ & _).
  rewrite (toLowerCase_slugChars _ Ha). now rewrite words_concat.
Qed.

End SlugAgain.

Section TextFacts.
Import Utils.


Lemma length_trimStart s : String.length (trimStart s) <= String.length s.
Proof.
  induction s as [|c s IH]; simpl; [lia|].
  destruct (isWhiteSpace c); simpl; lia.
Qed.

Lemma length_trimEnd s : String.length (trimEnd s) <= String.length s.
Proof.
  induction s as [|c s IH]; simpl; [lia|].
  destruct (isWhiteSpace c && isEmpty (trimEnd s)); simpl; lia.
Qed.

Lemma length_trim s : String.length (trim s) <= String.length s.
Proof.
  unfold trim. pose proof (length_trimEnd (trimStart s)).
  pose proof (length_trimStart s). lia.
Qed.





(** *** Post statistics *)

Lemma length_stripTags b s : String.length (stripTags b s) <= String.length s.
Proof.
  revert b. induction s as [|c s IH]; intros b; simpl; [lia|].
  destruct b.
  - destruct (Ascii.eqb c ">"); [specialize (IH false)|specialize (IH true)]; lia.
  - destruct (Ascii.eqb c "<" && hasChar ">" s); simpl;
      [specialize (IH true)|specialize (IH false)]; lia.
Qed.

Lemma length_replaceEntities b s :
  String.length (replaceEntities b s) <= String.length s.
Proof.
  revert b. induction s as [|c s IH]; intros b; simpl; [lia|].
  destruct b.
  - destruct (Ascii.eqb c ";"); [specialize (IH false)|specialize (IH true)]; lia.
  - destruct (Ascii.eqb c "&" && startsEntity s); simpl;
      [specialize (IH true)|specialize (IH false)]; lia.
Qed.

Lemma splitWhiteSpace_eta s :
  splitWhiteSpace s = hd "" (splitWhiteSpace s) :: tl (splitWhiteSpace s).
Proof.
  induction s as [|c s IH]; [reflexivity|]. simpl.
  destruct (isWhiteSpace c).
  - destruct (startsWithWhiteSpace s); [exact IH|reflexivity].
  - destruct (splitWhiteSpace s); reflexivity.
Qed.

(** The words of a text are no more than its characters. *)
Lemma words_length s :
  List.length (filter truthy (splitWhiteSpace s)) <= String.length s.
Proof.
  induction s as [|c s IH]; [simpl; lia|]. simpl splitWhiteSpace.
  destruct (isWhiteSpace c).
  - destruct (startsWithWhiteSpace s); simpl; lia.
  - rewrite (splitWhiteSpace_eta s) in IH |- *. simpl in IH |- *.
    destruct (truthy (hd "" (splitWhiteSpace s))); simpl in IH; lia.
Qed.

Lemma hasChar_cons d c s :
  hasChar d (String c s) = Ascii.eqb d c || hasChar d s.
Proof. reflexivity. Qed.

Lemma stripTags_plain s :
  hasChar "<" s = false -> stripTags false s = s.
Proof.
  induction s as [|c s IH]; [reflexivity|]. rewrite hasChar_cons.
  intros H. apply orb_false_elim in H. destruct H as [Hc Hs].
  rewrite Ascii.eqb_sym in Hc. cbn [stripTags]. rewrite Hc. cbn [andb].
  now rewrite (IH Hs).
Qed.

Lemma hasChar_app d a b :
  hasChar d (a ++ b)%string = hasChar d a || hasChar d b.
Proof.
  induction a as [|c a IH]; [reflexivity|].
  change (String c a ++ b)%string with (String c (a ++ b)%string).
  now rewrite !hasChar_cons, IH, orb_assoc.
Qed.

(** Inside a tag, the scan drops everything up to the first [>]. *)
Lemma stripTags_inTag a rest :
  hasChar ">" a = false ->
  stripTags true (a ++ String ">" rest)%string = stripTags false rest.
Proof.
  induction a as [|c a IH]; [reflexivity|]. rewrite hasChar_cons.
  intros H. apply orb_false_elim in H. destruct H as [Hc Hs].
  rewrite Ascii.eqb_sym in Hc.
  change (String c a ++ String ">" rest)%string
    with (String c (a ++ String ">" rest)%string).
  cbn [stripTags]. rewrite Hc. exact (IH Hs).
Qed.

Lemma stripTags_tag a rest :
  hasChar ">" a = false ->
  stripTags false (String "<" (a ++ String ">" rest))%string
  = stripTags false rest.
Proof.
  intros H. cbn [stripTags]. rewrite hasChar_app, hasChar_cons.
  rewrite Ascii.eqb_refl, orb_true_l, orb_true_r. cbn [andb].
  now apply stripTags_inTag.
Qed.

Lemma stripTags_text_then s rest :
  hasChar "<" s = false ->
  stripTags false (s ++ rest)%string = (s ++ stripTags false rest)%string.
Proof.
  induction s as [|c s IH]; [reflexivity|]. rewrite hasChar_cons.
  intros H. apply orb_false_elim in H. destruct H as [Hc Hs].
  rewrite Ascii.eqb_sym in Hc.
  change (String c s ++ rest)%string with (String c (s ++ rest)%string).
  cbn [stripTags]. rewrite Hc. cbn [andb]. now rewrite (IH Hs).
Qed.

(** The text between an opening and a closing tag is what is left of the
    element. *)
Lemma stripTags_element a b s :
  hasChar ">" a = false -> hasChar ">" b = false -> hasChar "<" s = false ->
  stripTags false
    (String "<" (a ++ String ">" (s ++ String "<" (b ++ String ">" ""))))%string
  = s.
Proof.
  intros Ha Hb Hs.
  rewrite (stripTags_tag _ _ Ha), (stripTags_text_then _ _ Hs).
  rewrite (stripTags_tag _ _ Hb). simpl. apply append_empty_r.
Qed.

Lemma calculatePostStats_element a b s :
  hasChar ">" a = false -> hasChar ">" b = false -> hasChar "<" s = false ->
  calculatePostStats
    (String "<" (a ++ String ">" (s ++ String "<" (b ++ String ">" ""))))%string
  = calculatePostStats s.
Proof.
  intros Ha Hb Hs. unfold calculatePostStats.
  now rewrite (stripTags_element _ _ _ Ha Hb Hs), (stripTags_plain _ Hs).
Qed.

(** X3: the statistics of a post: the plain text is no longer than the
    content, the words are no more than its characters, and the reading
    time is the least number of minutes, at least one, that covers the
    words at 225 a minute; the tags of an element wrapped around a text
    are not counted. *)
Theorem calculatePostStats_bounds (content : string) :
  let stats := calculatePostStats content in
  characterCount stats <= String.length content
  /\ wordCount stats <= characterCount stats
  /\ 1 <= readingTime stats
  /\ wordCount stats <= 225 * readingTime stats
  /\ (readingTime stats = 1 \/ 225 * (readingTime stats - 1) < wordCount stats)
  /\ forall a b,
       hasChar ">" a = false -> hasChar ">" b = false ->
       hasChar "<" content = false ->
       calculatePostStats
         (String "<" (a ++ String ">"
                        (content ++ String "<" (b ++ String ">" ""))))%string
       = stats.
Proof.
  cbv zeta.
  split; [|split; [|split; [|split; [|split]]]];
    try (intros a b Ha Hb Hs; now apply calculatePostStats_element);
    unfold calculatePostStats; cbn [characterCount wordCount readingTime];
    rewrite ?filter_idempotent;
    set (plainText := replaceEntities false (stripTags false content));
    set (wc := List.length (filter truthy (splitWhiteSpace (trim plainText))));
    pose proof (length_replaceEntities false (stripTags false content)) as H1;
    pose proof (length_stripTags false content) as H2;
    pose proof (words_length (trim plainText)) as H3;
    pose proof (length_trim plainText) as H4;
    pose proof (Nat.div_mod_eq (wc + 224) 225) as Hdiv;
    pose proof (Nat.mod_upper_bound (wc + 224) 225) as Hmod;
    fold plainText in H1; fold wc in H3; lia.
Qed.

Lemma calculatePostStats_bounds_witness :
  calculatePostStats "<p>two words</p>" = calculatePostStats "two words"
  /\ wordCount (calculatePostStats "two words") = 2.
Proof.
  split; [|reflexivity].
  exact (proj2 (proj2 (proj2 (proj2 (proj2
           (calculatePostStats_bounds "two words")))))
           "p" "/p" eq_refl eq_refl eq_refl).
Defined.

End TextFacts.

Section EmailFacts.
Import Utils.

Lemma emailDomainRest_split s :
  emailDomainRest s = true <->
  exists b c, s = (b ++ String "." c)%string
              /\ allChars isEmailChar b = true /\ emailTail c = true.
Proof.
  induction s as [|ch s IH].
  - split; [discriminate|]. intros (b & c & H & _). destruct b; discriminate H.
  - cbn [emailDomainRest]. rewrite orb_true_iff, !andb_true_iff, IH. split.
    + intros [[Hdot Hc]|[Hch (b & c & -> & Hb & Hc)]].
      * apply Ascii.eqb_eq in Hdot. subst ch. exists "", s. now repeat split.
      * exists (String ch b), c. repeat split; [|exact Hc].
        cbn [allChars]. now rewrite Hch, Hb.
    + intros (b & c & H & Hb & Hc). destruct b as [|bh b].
      * injection H as -> ->. left. now rewrite Ascii.eqb_refl.
      * injection H as -> ->. cbn [allChars] in Hb.
        apply andb_prop in Hb. destruct Hb as [Hbh Hb].
        right. split; [exact Hbh|]. now exists b, c.
Qed.

Lemma emailDomain_split s :
  emailDomain s = true <->
  exists b c, s = (b ++ String "." c)%string
              /\ emailTail b = true /\ emailTail c = true.
Proof.
  destruct s as [|ch s].
  - split; [discriminate|]. intros (b & c & H & _). destruct b; discriminate H.
  - cbn [emailDomain]. rewrite andb_true_iff, emailDomainRest_split. split.
    + intros [Hch (b & c & -> & Hb & Hc)]. exists (String ch b), c.
      repeat split; [|exact Hc]. unfold emailTail. cbn [isEmpty negb allChars andb].
      now rewrite Hch, Hb.
    + intros (b & c & H & Hb & Hc). destruct b as [|bh b]; [discriminate Hb|].
      injection H as -> ->. unfold emailTail in Hb.
      cbn [isEmpty negb allChars andb] in Hb.
      apply andb_prop in Hb. destruct Hb as [Hbh Hb].
      split; [exact Hbh|]. now exists b, c.
Qed.

Lemma emailLocalRest_split s :
  emailLocalRest s = true <->
  exists a d, s = (a ++ String "@" d)%string
              /\ allChars isEmailChar a = true /\ emailDomain d = true.
Proof.
  induction s as [|ch s IH].
  - split; [discriminate|]. intros (a & d & H & _). destruct a; discriminate H.
  - cbn [emailLocalRest]. rewrite orb_true_iff, !andb_true_iff, IH. split.
    + intros [[Hat Hd]|[Hch (a & d & -> & Ha & Hd)]].
      * apply Ascii.eqb_eq in Hat. subst ch. exists "", s. now repeat split.
      * exists (String ch a), d. repeat split; [|exact Hd].
        cbn [allChars]. now rewrite Hch, Ha.
    + intros (a & d & H & Ha & Hd). destruct a as [|ah a].
      * injection H as -> ->. left. now rewrite Ascii.eqb_refl.
      * injection H as -> ->. cbn [allChars] in Ha.
        apply andb_prop in Ha. destruct Ha as [Hah Ha].
        right. split; [exact Hah|]. now exists a, d.
Qed.

(** X4: [isValidEmail] accepts exactly the texts of the form
    [local@domain.tld] in which the three parts are non-empty and have
    no white space and no [@]; the dot that separates domain and
    top-level part can be any dot after the [@] that is neither the first
    nor the last character after it. *)
Theorem isValidEmail_shape (email : string) :
  isValidEmail email = true <->
  exists a b c,
    email = (a ++ String "@" (b ++ String "." c))%string
    /\ emailTail a = true /\ emailTail b = true /\ emailTail c = true.
Proof.
  destruct email as [|ch s].
  - split; [discriminate|]. intros (a & b & c & H & _). destruct a; discriminate H.
  - cbn [isValidEmail]. rewrite andb_true_iff, emailLocalRest_split. split.
    + intros [Hch (a & d & -> & Ha & Hd)].
      apply emailDomain_split in Hd. destruct Hd as (b & c & -> & Hb & Hc).
      exists (String ch a), b, c. repeat split; try assumption.
      unfold emailTail. cbn [isEmpty negb allChars andb]. now rewrite Hch, Ha.
    + intros (a & b & c & H & Ha & Hb & Hc). destruct a as [|ah a]; [discriminate Ha|].
      injection H as -> ->. unfold emailTail in Ha.
      cbn [isEmpty negb allChars andb] in Ha.
      apply andb_prop in Ha. destruct Ha as [Hah Ha].
      split; [exact Hah|]. exists a, (b ++ String "." c)%string.
      repeat split; [exact Ha|]. apply emailDomain_split. now exists b, c.
Qed.

Lemma isValidEmail_shape_witness :
  isValidEmail "ann@mail.example.org" = true.
Proof.
  apply (proj2 (isValidEmail_shape "ann@mail.example.org")).
  exists "ann", "mail.example", "org". repeat split; reflexivity.
Defined.

End EmailFacts.

Section ArrayFacts.
Import Utils.
Context {T : Type}.
Variable eqb : T -> T -> bool.
Hypothesis eqb_eq : forall x y, eqb x y = true <-> x = y.

Lemma setAdd_In s x y : In y (setAdd eqb s x) <-> In y s \/ y = x.
Proof.
  unfold setAdd. destruct (existsb (eqb x) s) eqn:E.
  - split; [now left|]. intros [H| ->]; [exact H|].
    apply existsb_exists in E. destruct E as (z & Hz & Hxz).
    apply eqb_eq in Hxz. now subst z.
  - rewrite in_app_iff. simpl. intuition (subst; auto).
Qed.

Lemma setAdd_NoDup s x : NoDup s -> NoDup (setAdd eqb s x).
Proof.
  intros Hs. unfold setAdd. destruct (existsb (eqb x) s) eqn:E; [exact Hs|].
  apply NoDup_app; [exact Hs|repeat constructor; intros []|].
  intros y Hy [Hx|[]]. subst y.
  assert (existsb (eqb x) s = true) as Ht; [|congruence].
  apply existsb_exists. exists x. split; [exact Hy|]. now apply eqb_eq.
Qed.

Lemma fold_setAdd_In array : forall s y,
  In y (fold_left (setAdd eqb) array s) <-> In y s \/ In y array.
Proof.
  induction array as [|x array IH]; intros s y; simpl; [tauto|].
  rewrite IH, setAdd_In. split; intros H; intuition (subst; auto).
Qed.

Lemma fold_setAdd_NoDup array : forall s,
  NoDup s -> NoDup (fold_left (setAdd eqb) array s).
Proof.
  induction array as [|x array IH]; intros s Hs; simpl; [exact Hs|].
  apply IH. now apply setAdd_NoDup.
Qed.

Lemma fold_setAdd_fresh array : forall s,
  NoDup (s ++ array) -> fold_left (setAdd eqb) array s = s ++ array.
Proof.
  induction array as [|x array IH]; intros s Hs; simpl; [now rewrite app_nil_r|].
  assert (Hx : existsb (eqb x) s = false).
  { apply not_true_is_false. intros E. apply existsb_exists in E.
    destruct E as (z & Hz & Hxz). apply eqb_eq in Hxz. subst z.
    apply NoDup_remove_2 in Hs. apply Hs. apply in_or_app. now left. }
  unfold setAdd at 2. rewrite Hx.
  change (x :: array) with ([x] ++ array) in Hs |- *.
  rewrite app_assoc in Hs |- *. now apply IH.
Qed.

(** X5: [unique] returns the distinct elements of the array: no element
    twice, the same members as the array, an array without duplicates
    unchanged, and so the result of a second call the same as that of
    the first. *)
Theorem unique_distinct (array : list T) :
  NoDup (unique eqb array)
  /\ (forall x, In x (unique eqb array) <-> In x array)
  /\ (NoDup array -> unique eqb array = array)
  /\ unique eqb (unique eqb array) = unique eqb array.
Proof.
  assert (Hn : NoDup (unique eqb array))
    by (apply fold_setAdd_NoDup; constructor).
  assert (Hfix : forall l, NoDup l -> unique eqb l = l)
    by (intros l Hl; exact (fold_setAdd_fresh l [] Hl)).
  split; [exact Hn|]. split.
  - intros x. unfold unique. rewrite fold_setAdd_In. simpl. tauto.
  - split; [apply Hfix|]. now apply Hfix.
Qed.

End ArrayFacts.

Lemma unique_distinct_witness :
  Utils.unique Nat.eqb [3; 1; 3; 2; 1] = [3; 1; 2]
  /\ NoDup (Utils.unique Nat.eqb [3; 1; 3; 2; 1])
  /\ Utils.unique Nat.eqb [3; 1; 2] = [3; 1; 2].
Proof.
  split; [reflexivity|].
  destruct (unique_distinct Nat.eqb Nat.eqb_eq [3; 1; 3; 2; 1]) as (Hn & _).
  split; [exact Hn|].
  apply (proj1 (proj2 (proj2 (unique_distinct Nat.eqb Nat.eqb_eq [3; 1; 2])))).
  repeat constructor; simpl; intuition discriminate.
Defined.

Section SortFacts.
Import Utils.
Context {T : Type}.
Variable key : T -> nat.
Variable direction : Direction.


Lemma compareBy_cases a b :
  match compareBy key direction a b with
  | Gt => ArraySpec.ordered key direction b a /\ key a <> key b
  | _ => ArraySpec.ordered key direction a b
  end.
Proof.
  unfold compareBy, ArraySpec.ordered.
  destruct (key a <? key b) eqn:E1; [apply Nat.ltb_lt in E1|apply Nat.ltb_ge in E1].
  - destruct direction; lia.
  - destruct (key b <? key a) eqn:E2;
      [apply Nat.ltb_lt in E2|apply Nat.ltb_ge in E2]; destruct direction; lia.
Qed.

Lemma ordered_trans a b c :
  ArraySpec.ordered key direction a b -> ArraySpec.ordered key direction b c ->
  ArraySpec.ordered key direction a c.
Proof. unfold ArraySpec.ordered. destruct direction; lia. Qed.

Lemma insertSorted_perm a l :
  Permutation (insertSorted (compareBy key direction) a l) (a :: l).
Proof.
  induction l as [|x l IH]; simpl; [reflexivity|].
  destruct (compareBy key direction a x); try reflexivity.
  rewrite IH. apply perm_swap.
Qed.

Lemma insertSorted_sorted a l :
  StronglySorted (ArraySpec.ordered key direction) l ->
  StronglySorted (ArraySpec.ordered key direction)
    (insertSorted (compareBy key direction) a l).
Proof.
  induction 1 as [|x l Hl IH Hx]; simpl; [repeat constructor|].
  pose proof (compareBy_cases a x) as Hc.
  assert (Hbefore : ArraySpec.ordered key direction a x ->
                    StronglySorted (ArraySpec.ordered key direction) (a :: x :: l)).
  { intros Hax. constructor; [now constructor|]. constructor; [exact Hax|].
    eapply Forall_impl; [|exact Hx]. intros y Hy.
    exact (ordered_trans _ _ _ Hax Hy). }
  destruct (compareBy key direction a x); try (now apply Hbefore).
  constructor; [exact IH|].
  rewrite (Forall_forall (ArraySpec.ordered key direction x)). intros y Hy.
  apply (Permutation_in _ (insertSorted_perm a l)) in Hy.
  destruct Hy as [<-|Hy]; [exact (proj1 Hc)|].
  exact (proj1 (Forall_forall _ _) Hx y Hy).
Qed.

Lemma insertSorted_filter k a l :
  filter (fun x => key x =? k) (insertSorted (compareBy key direction) a l)
  = filter (fun x => key x =? k) (a :: l).
Proof.
  induction l as [|x l IH]; [reflexivity|]. cbn [insertSorted].
  pose proof (compareBy_cases a x) as Hc.
  destruct (compareBy key direction a x); try reflexivity.
  destruct Hc as [_ Hne]. cbn [filter] in IH |- *. rewrite IH.
  destruct (key a =? k) eqn:Ea; destruct (key x =? k) eqn:Ex; try reflexivity.
  apply Nat.eqb_eq in Ea, Ex. congruence.
Qed.

(** X6: [sortBy] returns the elements of the array in key order,
    ascending or descending as asked: the result is a permutation of the
    array, sorted by the key, and elements with the same key keep the
    order they had in the array. *)
Theorem sortBy_sorted (array : list T) :
  Permutation (sortBy array key direction) array
  /\ StronglySorted (ArraySpec.ordered key direction)
       (sortBy array key direction)
  /\ forall k,
       filter (fun x => key x =? k) (sortBy array key direction)
       = filter (fun x => key x =? k) array.
Proof.
  unfold sortBy, sort. split; [|split].
  - induction array as [|a l IH]; simpl; [reflexivity|].
    rewrite insertSorted_perm. now constructor.
  - induction array as [|a l IH]; simpl; [constructor|].
    now apply insertSorted_sorted.
  - intros k. induction array as [|a l IH]; [reflexivity|]. simpl fold_right.
    rewrite insertSorted_filter. cbn [filter]. now rewrite IH.
Qed.

End SortFacts.

(* ===================================================================== *)
(** ** More of the post router: fetch, create and list together *)
(* ===================================================================== *)

Section FetchFacts.
Import Storage Validations TRPC Invariant.

Lemma firstAppearances_seen rows : forall seen,
  (forall r, In r rows -> In (Grouping.rowId r) seen) ->
  Grouping.firstAppearances seen rows = [].
Proof.
  induction rows as [|r rows IH]; intros seen Hall; [reflexivity|].
  rewrite firstAppearances_cons.
  rewrite (proj2 (memNat_In _ _) (Hall r (or_introl eq_refl))).
  apply IH. intros r' Hr'. apply Hall. now right.
Qed.

(** The rows of one post make one record. *)
Lemma transformPostQueryResults_one_post p r rows :
  (forall r', In r' (r :: rows) -> PostRouter.postData r' = p) ->
  PostRouter.transformPostQueryResults (r :: rows)
  = [PostRouter.mkPostWithCategories p
       (Grouping.categoriesOf (Post.id p) (r :: rows))].
Proof.
  intros Hall. rewrite transformPostQueryResults_firstAppearances.
  rewrite firstAppearances_cons. cbn [Grouping.memNat existsb map snd].
  assert (Hr : Grouping.rowId r = Post.id p)
    by (unfold Grouping.rowId; now rewrite (Hall r (or_introl eq_refl))).
  rewrite firstAppearances_seen.
  - cbn [map snd]. now rewrite Hr, (Hall r (or_introl eq_refl)).
  - intros r' Hr'. cbn [app]. left. unfold Grouping.rowId.
    now rewrite (Hall r (or_introl eq_refl)), (Hall r' (or_intror Hr')).
Qed.

Lemma leftJoinPost_post db p r : In r (leftJoinPost db p) -> jPost r = p.
Proof.
  unfold leftJoinPost. intros Hr.
  destruct (filter _ (postCategories db)) as [|pc pcs].
  - destruct Hr as [<-|[]]. reflexivity.
  - apply in_flat_map in Hr. destruct Hr as (pc' & _ & Hr).
    unfold leftJoinCategory in Hr.
    destruct (filter _ (categories db)) as [|c cs].
    + destruct Hr as [<-|[]]. reflexivity.
    + apply in_map_iff in Hr. now destruct Hr as (c' & <- & _).
Qed.

Lemma leftJoinPost_nonempty db p : leftJoinPost db p <> [].
Proof.
  unfold leftJoinPost.
  destruct (filter _ (postCategories db)) as [|pc pcs]; [discriminate|].
  cbn [flat_map]. unfold leftJoinCategory at 1.
  destruct (filter _ (categories db)); discriminate.
Qed.

(** With distinct slugs, the rows of the join that carry a post's slug
    are the rows of that post. *)
Lemma rows_of_slug db p l :
  NoDup (map Post.slug l) -> In p l ->
  filter (fun r => String.eqb (Post.slug (jPost r)) (Post.slug p))
         (flat_map (leftJoinPost db) l)
  = leftJoinPost db p.
Proof.
  induction l as [|q l IH]; [intros _ []|]. cbn [map flat_map]. intros Hnd Hin.
  inversion Hnd as [|? ? Hfresh Hnd']; subst. rewrite filter_app.
  destruct Hin as [->|Hin].
  - rewrite filter_all, filter_none; [apply app_nil_r| |].
    + intros r Hr. apply String.eqb_neq. intros E. apply Hfresh.
      apply in_flat_map in Hr. destruct Hr as (q & Hq & Hr).
      rewrite <- E, (leftJoinPost_post _ _ _ Hr). now apply in_map.
    + intros r Hr. rewrite (leftJoinPost_post _ _ _ Hr). apply String.eqb_refl.
  - rewrite filter_none, (IH Hnd' Hin); [reflexivity|].
    intros r Hr. apply String.eqb_neq. intros E. apply Hfresh.
    rewrite (leftJoinPost_post _ _ _ Hr) in E. rewrite E. now apply in_map.
Qed.

Lemma filter_category_id cs c :
  NoDup (map Category.id cs) -> In c cs ->
  filter (fun c' => Category.id c =? Category.id c') cs = [c].
Proof.
  induction cs as [|x cs IH]; [intros _ []|]. cbn [map filter]. intros Hnd Hin.
  inversion Hnd as [|? ? Hfresh Hnd']; subst.
  destruct Hin as [->|Hin].
  - rewrite Nat.eqb_refl, filter_none; [reflexivity|].
    intros y Hy. apply Nat.eqb_neq. intros E. apply Hfresh. rewrite E.
    now apply in_map.
  - assert (Hne : (Category.id c =? Category.id x) = false).
    { apply Nat.eqb_neq. intros E. apply Hfresh. rewrite <- E. now apply in_map. }
    rewrite Hne. now apply IH.
Qed.

(** A junction row whose category exists joins that category, once. *)
Lemma leftJoinCategory_found db p pc :
  NoDup (map Category.id (categories db)) ->
  hasCategory db (PostCategory.categoryId pc) = true ->
  exists c, In c (categories db)
            /\ Category.id c = PostCategory.categoryId pc
            /\ leftJoinCategory db p pc = [mkJoined p (Some pc) (Some c)].
Proof.
  intros Hnd Hhas. unfold hasCategory in Hhas. apply existsb_exists in Hhas.
  destruct Hhas as (c & Hin & Hid). apply Nat.eqb_eq in Hid.
  exists c. split; [exact Hin|]. split; [exact Hid|].
  unfold leftJoinCategory. rewrite <- Hid.
  now rewrite (filter_category_id _ _ Hnd Hin).
Qed.

Lemma categoriesOf_app k a b :
  Grouping.categoriesOf k (a ++ b)
  = Grouping.categoriesOf k a ++ Grouping.categoriesOf k b.
Proof. unfold Grouping.categoriesOf. apply flat_map_app. Qed.

(** The categories the join finds for the junction rows [pcs] of a post:
    one per row, in row order. *)
Lemma joined_categories db p pcs :
  NoDup (map Category.id (categories db)) ->
  Forall (fun pc => hasCategory db (PostCategory.categoryId pc) = true) pcs ->
  exists cats,
    Grouping.categoriesOf (Post.id p)
      (map PostRouter.selectRow (flat_map (leftJoinCategory db p) pcs)) = cats
    /\ map Category.id cats = map PostCategory.categoryId pcs
    /\ incl cats (categories db).
Proof.
  intros Hnd. induction 1 as [|pc pcs Hpc _ (cats & Hc & Hids & Hincl)].
  - exists []. repeat split. intros c [].
  - destruct (leftJoinCategory_found db p pc Hnd Hpc) as (c & Hin & Hid & Hrow).
    exists (c :: cats). cbn [flat_map]. rewrite Hrow, map_app, categoriesOf_app, Hc.
    repeat split.
    + cbn [map app]. rewrite categoriesOf_cons.
      unfold Grouping.rowId, PostRouter.selectRow at 1 2.
      cbn [PostRouter.postData PostRouter.categories jPost jCategory].
      now rewrite Nat.eqb_refl.
    + cbn [map]. now rewrite Hid, Hids.
    + intros x [<-|Hx]; [exact Hin|now apply Hincl].
Qed.

Lemma junction_filter_sym db p :
  filter (fun pc => Post.id p =? PostCategory.postId pc) (postCategories db)
  = junctionOfPost db (Post.id p).
Proof.
  unfold junctionOfPost. apply filter_ext. intros pc. apply Nat.eqb_sym.
Qed.

(** The record the transformer makes of the join rows of one post. *)
Lemma joined_record db p :
  Consistent db ->
  exists cats,
    PostRouter.transformPostQueryResults
      (map PostRouter.selectRow (leftJoinPost db p))
    = [PostRouter.mkPostWithCategories p cats]
    /\ map Category.id cats = categoryIdsOfPost db (Post.id p)
    /\ incl cats (categories db).
Proof.
  intros Hcons.
  assert (Hall : forall r', In r' (map PostRouter.selectRow (leftJoinPost db p)) ->
                            PostRouter.postData r' = p).
  { intros r' Hr'. apply in_map_iff in Hr'. destruct Hr' as (r & <- & Hr).
    exact (leftJoinPost_post _ _ _ Hr). }
  pose proof (leftJoinPost_nonempty db p) as Hne.
  destruct (map PostRouter.selectRow (leftJoinPost db p)) as [|r rows] eqn:Hrows.
  { apply map_eq_nil in Hrows. contradiction. }
  rewrite (transformPostQueryResults_one_post p r rows Hall), <- Hrows.
  unfold leftJoinPost, categoryIdsOfPost. rewrite junction_filter_sym.
  destruct (junctionOfPost db (Post.id p)) as [|pc pcs] eqn:Hj.
  - exists []. split; [|split; [reflexivity|intros c []]].
    cbn [map]. rewrite categoriesOf_cons.
    now destruct (Grouping.rowId _ =? Post.id p).
  - destruct (joined_categories db p (pc :: pcs)) as (cats & Hc & Hids & Hincl).
    + apply (categoryIds db Hcons).
    + apply Forall_forall. intros x Hx.
      assert (Hin : In x (postCategories db)).
      { rewrite <- Hj in Hx. unfold junctionOfPost in Hx.
        now apply filter_In in Hx. }
      exact (proj1 (proj2 (proj1 (Forall_forall _ _) (junctionRowsOk db Hcons) x Hin))).
    + exists cats. rewrite Hc. now repeat split.
Qed.

(** A stored post is found by its slug, with the categories of its
    junction rows. *)
Lemma getBySlug_found db p :
  Consistent db -> In p (posts db) ->
  exists cats,
    PostRouter.getBySlug db (Post.slug p)
    = Ok (Some (PostRouter.mkPostWithCategories p cats))
    /\ map Category.id cats = categoryIdsOfPost db (Post.id p)
    /\ incl cats (categories db).
Proof.
  intros Hcons Hin.
  destruct (joined_record db p Hcons) as (cats & Ht & Hids & Hincl).
  exists cats. split; [|now split].
  unfold PostRouter.getBySlug, publicProcedure, getPostBySlugSchema.
  assert (Hlen : 3 <= String.length (Post.slug p)).
  { exact (proj1 (proj2 (proj1 (Forall_forall _ _) (postRows db Hcons) p Hin))). }
  replace (1 <=? String.length (Post.slug p)) with true
    by (symmetry; apply Nat.leb_le; lia).
  unfold PostRouter.getBySlugHandler, PostRouter.getBySlugRows, joinedRows.
  rewrite (rows_of_slug db p (posts db) (postSlugs db Hcons) Hin).
  pose proof (leftJoinPost_nonempty db p) as Hne.
  destruct (leftJoinPost db p) as [|r rows] eqn:Hrows; [contradiction|].
  cbn [List.length Nat.eqb]. now rewrite Ht.
Qed.

(** X7: on a database that meets the storage contract, a fetch by the
    slug of a stored post returns that post, with one category per
    junction row of the post, in junction order, each a row of the
    category table. *)
Theorem getBySlug_shows_junction db p :
  Consistent db -> In p (posts db) ->
  exists cats,
    PostRouter.getBySlug db (Post.slug p)
    = Ok (Some (PostRouter.mkPostWithCategories p cats))
    /\ map Category.id cats = categoryIdsOfPost db (Post.id p)
    /\ (forall c, In c cats -> In c (categories db)).
Proof. exact (getBySlug_found db p). Qed.

Lemma getBySlug_shows_junction_witness :
  exists cats,
    PostRouter.getBySlug Sample.db "my-first-post"
    = Ok (Some (PostRouter.mkPostWithCategories Sample.firstPost cats))
    /\ map Category.id cats = [1; 2].
Proof.
  destruct (getBySlug_shows_junction Sample.db Sample.firstPost)
    as (cats & Hget & Hids & _).
  - apply consistent_Consistent. reflexivity.
  - simpl. now left.
  - exists cats. split; [exact Hget|exact Hids].
Defined.



End FetchFacts.

Section CreateMore.
Import Storage Validations TRPC Invariant.

Lemma createPostSchema_Some request input :
  createPostSchema request = Some input ->
  title input = reqTitle request /\ content input = reqContent request
  /\ published input = default false (reqPublished request)
  /\ Validations.categoryIds input = default [] (reqCategoryIds request)
  /\ titleSchema (reqTitle request) = true.
Proof.
  unfold createPostSchema.
  destruct (titleSchema (reqTitle request)); [|discriminate].
  destruct (_ && _); [|discriminate]. intros H. injection H as <-.
  now repeat split.
Qed.

(** What the storage engine has checked when the insert of a post goes
    through. *)
Lemma insertPost_checks title content slug published authorId now db p db' :
  insertPost title content slug published authorId now db = Done (p, db') ->
  p = Post.mk (S (postsSeq db)) title content None authorId slug published
        false 0 (Some 1) None None None now now
  /\ 5 <= String.length title <= 200 /\ 3 <= String.length slug <= 250
  /\ (forall q, In q (posts db) -> Post.slug q <> slug)
  /\ hasUser db authorId = true.
Proof.
  unfold insertPost. destruct (firstViolation _) eqn:Hv; [discriminate|].
  intros H. injection H as <- _.
  rewrite firstViolation_app in Hv.
  destruct (firstViolation (postRowChecks _ _)) eqn:Hrow; [discriminate|].
  apply firstViolation_None in Hv, Hrow.
  inversion Hv as [|? ? Huser _]; subst. cbn [fst] in Huser.
  unfold postRowChecks in Hrow. cbn [Post.title Post.slug Post.id] in Hrow.
  repeat match goal with
         | F : Forall _ (_ :: _) |- _ =>
             let H1 := fresh "Hck" in
             apply Forall_cons_iff in F; destruct F as [H1 F]; cbn [fst] in H1
         end.
  repeat match goal with
         | H : (_ <=? _) = true |- _ => apply Nat.leb_le in H
         | H : negb _ = true |- _ => apply negb_true_iff in H
         end.
  split; [reflexivity|]. split; [lia|]. split; [lia|]. split; [|exact Huser].
  intros q Hq E.
  assert (Hex : existsb (fun q => String.eqb (Post.slug q) slug) (posts db) = true).
  { apply existsb_exists. exists q. split; [exact Hq|]. now apply String.eqb_eq. }
  congruence.
Qed.

(** The statements behind a successful [post.create]. *)
Lemma create_Ok now db ctx request p db' :
  PostRouter.create now db ctx request = (Ok p, db') ->
  exists input db1,
    isSignedIn ctx = true /\ createPostSchema request = Some input
    /\ insertPost (title input) (Some (content input))
         (Utils.generateSlug (title input)) (published input) 1 now db
       = Done (p, db1)
    /\ ((Validations.categoryIds input = [] /\ db' = db1)
        \/ (Validations.categoryIds input <> []
            /\ insertPostCategories
                 (PostRouter.junctionValues (Post.id p) (Validations.categoryIds input))
                 now db1 = Done db')).
Proof.
  unfold PostRouter.create.
  destruct (protectedProcedure_cases createPostSchema (PostRouter.createHandler now db)
              (fun e => (Err e, db)) ctx request)
    as [(input & Hctx & Hs & ->)|(e & _ & ->)]; [|discriminate].
  unfold PostRouter.createHandler.
  destruct (insertPost _ _ _ _ _ _ _) as [[newPost db1]|] eqn:Hi; [|discriminate].
  destruct (Validations.categoryIds input) as [|c cs] eqn:Hcs.
  - cbn [List.length Nat.ltb Nat.leb]. intros H. injection H as <- <-.
    exists input, db1. rewrite Hcs. repeat split; try assumption. now left.
  - cbn [List.length Nat.ltb Nat.leb].
    destruct (insertPostCategories _ _ _) as [db2|] eqn:Hj; [|discriminate].
    intros H. injection H as <- <-.
    exists input, db1. rewrite Hcs. repeat split; try assumption.
    right. split; [discriminate|exact Hj].
Qed.

Lemma generateSlug_valid text :
  1 <= String.length (Utils.generateSlug text) ->
  Utils.isValidSlug (Utils.generateSlug text) = true.
Proof.
  rewrite generateSlug_words. intros Hlen.
  destruct (Utils.anyChar Utils.isLowerAlnum (Utils.toLowerCase text)) eqn:E.
  - now apply concat_words_valid.
  - apply words_nil in E. rewrite E in Hlen. simpl in Hlen. lia.
Qed.

(** X9: a post that [post.create] returns was stored as a new row at the
    end of the table, with the requested content and published flag, a
    title of at least 5 characters, the slug generated from the requested
    title, which is a valid slug of at least 3 characters, and user 1 as
    its author, whoever is signed in and whatever author the request
    names. *)
Theorem create_stored_post now db ctx request p db' :
  PostRouter.create now db ctx request = (Ok p, db') ->
  posts db' = posts db ++ [p]
  /\ Post.id p = S (postsSeq db)
  /\ Post.authorId p = 1
  /\ Post.content p = Some (reqContent request)
  /\ Post.published p = default false (reqPublished request)
  /\ Post.slug p = Utils.generateSlug (reqTitle request)
  /\ Utils.isValidSlug (Post.slug p) = true
  /\ 3 <= String.length (Post.slug p)
  /\ 5 <= String.length (Post.title p)
  /\ Post.createdAt p = now /\ Post.viewCount p = 0
  /\ users db' = users db /\ categories db' = categories db.
Proof.
  intros Hc. destruct (create_Ok _ _ _ _ _ _ Hc) as (input & db1 & _ & Hs & Hi & Hj).
  destruct (createPostSchema_Some _ _ Hs) as (Ht & Hcontent & Hpub & _ & _).
  rewrite Ht, Hcontent, Hpub in Hi.
  destruct (insertPost_checks _ _ _ _ _ _ _ _ _ Hi) as (Hp & Hlt & Hls & _ & _).
  destruct (insertPost_Done _ _ _ _ _ _ _ _ _ Hi) as (_ & _ & _ & Hposts & Hu & Hcat & _).
  assert (Hdb : posts db' = posts db1 /\ users db' = users db1
                /\ categories db' = categories db1).
  { destruct Hj as [[_ ->]|[_ Hj]]; [now repeat split|].
    apply insertPostCategories_Done in Hj. now destruct Hj as (-> & -> & -> & _). }
  destruct Hdb as (-> & -> & ->).
  assert (Hslug : Post.slug p = Utils.generateSlug (reqTitle request))
    by now rewrite Hp.
  assert (Htitle : Post.title p = reqTitle request) by now rewrite Hp.
  rewrite Hslug, Htitle.
  split; [exact Hposts|].
  split; [now rewrite Hp|]. split; [now rewrite Hp|].
  split; [now rewrite Hp|]. split; [now rewrite Hp|]. split; [reflexivity|].
  split; [apply generateSlug_valid; lia|].
  split; [lia|]. split; [lia|]. split; [now rewrite Hp|].
  split; [now rewrite Hp|]. now split.
Qed.

Lemma create_stored_post_witness :
  exists p db',
    PostRouter.create 30 Sample.db
      (mkContext (Some "user_of_bob") (Some "sess_2"))
      (mkCreateRequest "Bob writes here" "Body" (Some true) (Some 2) None)
    = (Ok p, db')
    /\ Post.authorId p = 1 /\ Post.slug p = "bob-writes-here".
Proof.
  eexists. eexists. split; [reflexivity|].
  destruct (create_stored_post 30 Sample.db
              (mkContext (Some "user_of_bob") (Some "sess_2"))
              (mkCreateRequest "Bob writes here" "Body" (Some true) (Some 2) None)
              _ _ eq_refl) as (_ & _ & Ha & _ & _ & Hs & _).
  split; [exact Ha|exact Hs].
Defined.

(** X10: the input schema accepts every title of 1 to 255 characters,
    the table only titles of at least 5 characters whose slug has at
    least 3: for a signed-in caller, a request the schema accepts whose
    title or slug is shorter than that fails with the internal error and
    leaves the database as it is. *)
Theorem create_below_table_minimum now db ctx request input :
  isSignedIn ctx = true ->
  createPostSchema request = Some input ->
  String.length (reqTitle request) < 5
  \/ String.length (Utils.generateSlug (reqTitle request)) < 3 ->
  PostRouter.create now db ctx request
  = (Err (Thrown INTERNAL_SERVER_ERROR "Failed to create post"), db).
Proof.
  intros Hctx Hs Hout. unfold PostRouter.create.
  rewrite (protectedProcedure_signedIn _ _ _ _ _ Hctx).
  unfold publicProcedure. rewrite Hs. unfold PostRouter.createHandler.
  destruct (createPostSchema_Some _ _ Hs) as (Ht & _).
  destruct (insertPost _ _ _ _ _ _ _) as [[newPost db1]|] eqn:Hi; [|reflexivity].
  apply insertPost_checks in Hi. destruct Hi as (_ & Hlt & Hls & _).
  rewrite Ht in Hlt, Hls. exfalso. lia.
Qed.

Lemma create_below_table_minimum_witness :
  titleSchema "Hey" = true
  /\ PostRouter.create 30 Sample.db Sample.signedIn (Sample.createRequest "Hey")
     = (Err (Thrown INTERNAL_SERVER_ERROR "Failed to create post"), Sample.db)
  /\ titleSchema "?? C# ??" = true
  /\ PostRouter.create 30 Sample.db Sample.signedIn (Sample.createRequest "?? C# ??")
     = (Err (Thrown INTERNAL_SERVER_ERROR "Failed to create post"), Sample.db).
Proof.
  split; [reflexivity|]. split.
  - apply (create_below_table_minimum 30 Sample.db Sample.signedIn
             (Sample.createRequest "Hey") _ eq_refl eq_refl).
    left. simpl. lia.
  - split; [reflexivity|].
    apply (create_below_table_minimum 30 Sample.db Sample.signedIn
             (Sample.createRequest "?? C# ??") _ eq_refl eq_refl).
    right. simpl. lia.
Defined.

Lemma insertPostCategories_missing values now db :
  (exists v, In v values /\ hasCategory db (snd v) = false) ->
  exists e, insertPostCategories values now db = Raised e.
Proof.
  intros (v & Hv & Hmissing).
  destruct (insertPostCategories values now db) as [db'|e] eqn:Hi; [|now exists e].
  apply insertPostCategories_Done in Hi. destruct Hi as (_ & _ & _ & _ & _ & Hall).
  rewrite (proj1 (forallb_forall _ _) Hall v Hv) in Hmissing. discriminate Hmissing.
Qed.

(** X11: [post.create] runs its two inserts one after the other, outside
    a transaction: when the post row goes in and the request names a
    category that does not exist, the call fails with the internal error
    but the post row stays, without categories; the same request then
    fails again, whenever it is repeated, on the slug the first attempt
    left behind. *)
Theorem create_failure_keeps_post now db ctx request input p db1 :
  isSignedIn ctx = true ->
  createPostSchema request = Some input ->
  insertPost (title input) (Some (content input))
    (Utils.generateSlug (title input)) (published input) 1 now db
  = Done (p, db1) ->
  (exists c, In c (Validations.categoryIds input) /\ hasCategory db c = false) ->
  PostRouter.create now db ctx request
  = (Err (Thrown INTERNAL_SERVER_ERROR "Failed to create post"), db1)
  /\ posts db1 = posts db ++ [p]
  /\ postCategories db1 = postCategories db
  /\ forall now',
       PostRouter.create now' db1 ctx request
       = (Err (Thrown INTERNAL_SERVER_ERROR "Failed to create post"), db1).
Proof.
  intros Hctx Hs Hi (c & Hc & Hmissing).
  destruct (insertPost_Done _ _ _ _ _ _ _ _ _ Hi)
    as (_ & Hslug & _ & Hposts & _ & Hcats & Hjun).
  assert (Hrun : forall t,
             PostRouter.create t db1 ctx request
             = PostRouter.createHandler t db1 ctx input
             /\ PostRouter.create t db ctx request
                = PostRouter.createHandler t db ctx input).
  { intros t. unfold PostRouter.create.
    rewrite !(protectedProcedure_signedIn _ _ _ _ _ Hctx).
    unfold publicProcedure. now rewrite Hs. }
  split; [|split; [exact Hposts|split; [exact Hjun|]]].
  - rewrite (proj2 (Hrun now)). unfold PostRouter.createHandler. rewrite Hi.
    destruct (Validations.categoryIds input) as [|c0 cs] eqn:Hcs; [destruct Hc|].
    cbn [List.length Nat.ltb Nat.leb].
    destruct (insertPostCategories_missing
                (PostRouter.junctionValues (Post.id p) (c0 :: cs)) now db1)
      as (e & ->); [|reflexivity].
    exists (Post.id p, c). split.
    + unfold PostRouter.junctionValues. apply in_map_iff. now exists c.
    + cbn [snd]. now rewrite (hasCategory_categories db1 db c Hcats).
  - intros now'. rewrite (proj1 (Hrun now')). unfold PostRouter.createHandler.
    destruct (insertPost (title input) (Some (content input))
                (Utils.generateSlug (title input)) (published input) 1 now' db1)
      as [[p' db2]|] eqn:Hi'; [|reflexivity].
    apply insertPost_checks in Hi'. destruct Hi' as (_ & _ & _ & Hfresh & _).
    exfalso. apply (Hfresh p); [|exact Hslug].
    rewrite Hposts. apply in_or_app. right. now left.
Qed.

Lemma create_failure_keeps_post_witness :
  exists p db1,
    PostRouter.create 30 Sample.db Sample.signedIn
      (mkCreateRequest "Filed nowhere" "Body" None None (Some [9]))
    = (Err (Thrown INTERNAL_SERVER_ERROR "Failed to create post"), db1)
    /\ posts db1 = posts Sample.db ++ [p]
    /\ Post.slug p = "filed-nowhere".
Proof.
  eexists. eexists.
  destruct (create_failure_keeps_post 30 Sample.db Sample.signedIn
              (mkCreateRequest "Filed nowhere" "Body" None None (Some [9]))
              _ _ _ eq_refl eq_refl eq_refl) as (Hc & Hp & _).
  - exists 9. split; [now left|reflexivity].
  - split; [exact Hc|]. split; [exact Hp|reflexivity].
Defined.

Lemma junctionOfPost_fresh db i :
  Consistent db -> postsSeq db < i -> junctionOfPost db i = [].
Proof.
  intros Hcons Hi. unfold junctionOfPost. apply filter_none. intros r Hr.
  apply Nat.eqb_neq. intros E.
  pose proof (proj1 (proj1 (Forall_forall _ _) (junctionRowsOk db Hcons) r Hr)) as Hhas.
  apply hasPost_In in Hhas. apply in_map_iff in Hhas.
  destruct Hhas as (q & Hq & Hin).
  pose proof (proj1 (Forall_forall _ _) (postRows db Hcons) q Hin) as (_ & _ & _ & Hle).
  lia.
Qed.

(** X12: on a database that meets the storage contract, a post that
    [post.create] returns is found by a fetch of its slug, with exactly
    the categories the request names, in the order of the request (none
    if it names none). *)
Theorem create_then_getBySlug now db ctx request p db' :
  Consistent db ->
  PostRouter.create now db ctx request = (Ok p, db') ->
  exists cats,
    PostRouter.getBySlug db' (Post.slug p)
    = Ok (Some (PostRouter.mkPostWithCategories p cats))
    /\ map Category.id cats = default [] (reqCategoryIds request).
Proof.
  intros Hcons Hc.
  assert (Hcons' : Consistent db').
  { pose proof (create_keeps_contract now db ctx request Hcons) as H.
    now rewrite Hc in H. }
  destruct (PostRouter_create_slug _ _ _ _ _ _ Hc) as [_ Hin].
  destruct (getBySlug_found db' p Hcons' Hin) as (cats & Hget & Hids & _).
  exists cats. split; [exact Hget|]. rewrite Hids.
  destruct (create_Ok _ _ _ _ _ _ Hc) as (input & db1 & _ & Hs & Hi & Hj).
  destruct (createPostSchema_Some _ _ Hs) as (_ & _ & _ & <- & _).
  destruct (insertPost_Done _ _ _ _ _ _ _ _ _ Hi) as (_ & _ & Hid & _ & _ & _ & Hjun).
  assert (Hnone : filter (fun r => PostCategory.postId r =? Post.id p)
                         (postCategories db) = []).
  { apply (junctionOfPost_fresh db (Post.id p) Hcons). lia. }
  unfold categoryIdsOfPost, junctionOfPost.
  destruct Hj as [[-> ->]|[_ Hj]].
  - now rewrite Hjun, Hnone.
  - apply insertPostCategories_Done in Hj. destruct Hj as (_ & _ & _ & -> & _).
    rewrite filter_app, Hjun, Hnone, samePost_junctionRows. cbn [app].
    rewrite <- (junctionValues_categoryIds (Post.id p) (Validations.categoryIds input)) at 2.
    rewrite <- (junctionRows_pairs (postCategoriesSeq db1) now
                  (PostRouter.junctionValues (Post.id p) (Validations.categoryIds input))) at 2.
    rewrite map_map. reflexivity.
Qed.

Lemma create_then_getBySlug_witness :
  exists p db' cats,
    PostRouter.create 30 Sample.db Sample.signedIn
      (mkCreateRequest "Filed twice" "Body" None None (Some [3; 1]))
    = (Ok p, db')
    /\ PostRouter.getBySlug db' "filed-twice"
       = Ok (Some (PostRouter.mkPostWithCategories p cats))
    /\ map Category.id cats = [3; 1].
Proof.
  destruct (create_then_getBySlug 30 Sample.db Sample.signedIn
              (mkCreateRequest "Filed twice" "Body" None None (Some [3; 1]))
              _ _ (proj1 (consistent_Consistent Sample.db) eq_refl) eq_refl)
    as (cats & Hget & Hids).
  eexists. eexists. exists cats. split; [reflexivity|]. split; [exact Hget|exact Hids].
Defined.

End CreateMore.

Section ListFacts.
Import Storage Validations TRPC SearchSpec.

Lemma like_percent rest s :
  like (String "%" rest) s
  = like rest s
    || match s with
       | EmptyString => false
       | String _ s' => like (String "%" rest) s'
       end.
Proof. destruct s; reflexivity. Qed.

Lemma like_percent_split rest s :
  like (String "%" rest) s = true <->
  exists a b, s = (a ++ b)%string /\ like rest b = true.
Proof.
  induction s as [|c s IH]; rewrite like_percent, orb_true_iff.
  - split.
    + intros [H|H]; [|discriminate]. now exists "", "".
    + intros (a & b & Hs & Hb). left. destruct a; [|discriminate Hs].
      simpl in Hs. now subst b.
  - rewrite IH. split.
    + intros [H|(a & b & -> & Hb)]; [now exists "", (String c s)|].
      now exists (String c a), b.
    + intros ([|d a] & b & Hs & Hb).
      * left. simpl in Hs. now subst b.
      * right. injection Hs as -> ->. now exists a, b.
Qed.

Lemma like_literal_char c rest s :
  isLiteral c = true ->
  like (String c rest) s
  = match s with
    | EmptyString => false
    | String d s' => Ascii.eqb d c && like rest s'
    end.
Proof.
  unfold isLiteral. intros H.
  apply andb_prop in H. destruct H as [H H3].
  apply andb_prop in H. destruct H as [H1 H2].
  apply negb_true_iff in H1, H2, H3.
  cbn [like]. rewrite H1, H2, H3. reflexivity.
Qed.

Lemma like_literal piece rest s :
  Utils.allChars isLiteral piece = true ->
  like (piece ++ rest)%string s = true <->
  exists b, s = (piece ++ b)%string /\ like rest b = true.
Proof.
  revert s. induction piece as [|c piece IH]; intros s Hlit.
  - simpl. split; [intros H; now exists s|now intros (b & -> & H)].
  - cbn [Utils.allChars] in Hlit. apply andb_prop in Hlit.
    destruct Hlit as [Hc Hlit].
    change (String c piece ++ rest)%string with (String c (piece ++ rest)%string).
    rewrite (like_literal_char _ _ _ Hc). destruct s as [|d s].
    + split; [discriminate|]. now intros (b & Hs & _).
    + rewrite andb_true_iff, (IH s Hlit), Ascii.eqb_eq. split.
      * intros [-> (b & -> & Hb)]. now exists b.
      * intros (b & Hs & Hb). injection Hs as -> ->. split; [reflexivity|now exists b].
Qed.

Lemma like_any s : like "%" s = true.
Proof.
  apply like_percent_split. exists s, "". split; [|reflexivity].
  now rewrite append_empty_r.
Qed.

(** A search pattern built around a text without wildcards matches the
    titles that contain the text. *)
Lemma like_contains piece s :
  Utils.allChars isLiteral piece = true ->
  like ("%" ++ piece ++ "%")%string s = true <-> contains piece s.
Proof.
  intros Hlit.
  change ("%" ++ piece ++ "%")%string with (String "%" (piece ++ "%")%string).
  rewrite like_percent_split. unfold contains. split.
  - intros (a & b & -> & Hb). apply (like_literal _ _ _ Hlit) in Hb.
    destruct Hb as (b' & -> & _). now exists a, b'.
  - intros (a & b & ->). exists a, (piece ++ b)%string. split; [reflexivity|].
    apply (like_literal _ _ _ Hlit). exists b. split; [reflexivity|apply like_any].
Qed.

Lemma getAllRows_joined input db r :
  In r (PostRouter.getAllRows input db) -> In r (joinedRows db).
Proof.
  unfold PostRouter.getAllRows, limitOffset, where_. intros Hin.
  apply In_firstn in Hin.
  assert (Hin' : In r (orderByCreatedAtDesc
                         (filter (fun r => forallb (fun c => holds c r)
                                                   (PostRouter.getAllConditions input))
                                 (joinedRows db)))).
  { revert Hin. generalize (orderByCreatedAtDesc
                              (filter (fun r => forallb (fun c => holds c r)
                                                        (PostRouter.getAllConditions input))
                                      (joinedRows db))).
    generalize (offset input). intros n. induction n as [|n IH]; intros l Hl; [exact Hl|].
    destruct l as [|x l]; [destruct Hl|]. right. now apply IH. }
  apply (Permutation_in _ (orderByCreatedAtDesc_perm _)) in Hin'.
  now apply filter_In in Hin'.
Qed.

(** The junction row and the category of a row of the join. *)
Lemma joinedRows_parts db r :
  In r (joinedRows db) ->
  (forall pc, jPostCategory r = Some pc ->
     In pc (postCategories db) /\ PostCategory.postId pc = Post.id (jPost r))
  /\ (forall cat, jCategory r = Some cat ->
        In cat (categories db)
        /\ exists pc, jPostCategory r = Some pc
                      /\ PostCategory.categoryId pc = Category.id cat).
Proof.
  unfold joinedRows. intros H. apply in_flat_map in H.
  destruct H as (p & _ & Hr). unfold leftJoinPost in Hr.
  destruct (filter _ (postCategories db)) as [|pc0 pcs] eqn:Hf.
  - destruct Hr as [<-|[]]. split; intros x Hx; discriminate Hx.
  - apply in_flat_map in Hr. destruct Hr as (pc & Hpc & Hr).
    rewrite <- Hf in Hpc. apply filter_In in Hpc. destruct Hpc as [Hpc Hid].
    apply Nat.eqb_eq in Hid. unfold leftJoinCategory in Hr.
    destruct (filter _ (categories db)) as [|c0 cs] eqn:Hc.
    + destruct Hr as [<-|[]]. split; intros x Hx; [|discriminate Hx].
      injection Hx as <-. now split.
    + apply in_map_iff in Hr. destruct Hr as (c & <- & Hin).
      rewrite <- Hc in Hin. apply filter_In in Hin. destruct Hin as [Hin Hcid].
      apply Nat.eqb_eq in Hcid. cbn [jPost jPostCategory jCategory].
      split; intros x Hx; injection Hx as <-; [now split|].
      split; [exact Hin|]. now exists pc.
Qed.

(** A record of the list comes from a row of the page. *)
Lemma getAll_record db request input posts r :
  postFiltersSchema request = Some input ->
  PostRouter.getAll db request = Ok posts -> In r posts ->
  PostRouter.postCategories r
  = Grouping.categoriesOf (Grouping.postId r)
      (map PostRouter.selectRow (PostRouter.getAllRows input db))
  /\ exists row, In row (PostRouter.getAllRows input db)
                 /\ jPost row = PostRouter.post r.
Proof.
  intros Hs. unfold PostRouter.getAll, publicProcedure. rewrite Hs.
  unfold PostRouter.getAllHandler. intros H Hr. injection H as <-.
  destruct (transformPostQueryResults_categories _ _ Hr) as (Hcats & raw & Hraw & Hpost).
  split; [exact Hcats|].
  apply in_map_iff in Hraw. destruct Hraw as (row & <- & Hrow).
  now exists row.
Qed.

(** X13: every post that [post.getAll] returns is a stored post; it has
    the published flag the request asks for, if it asks for one, and a
    title that matches the search pattern, if the request has a
    non-empty search string: when the string has no wildcard character,
    the title contains it, letter case included. *)
Theorem getAll_respects_filters db request input posts r :
  postFiltersSchema request = Some input ->
  PostRouter.getAll db request = Ok posts -> In r posts ->
  In (PostRouter.post r) (Storage.posts db)
  /\ (forall b, filterPublished input = Some b ->
        Post.published (PostRouter.post r) = b)
  /\ (forall s, search input = Some s -> s <> "" ->
        like ("%" ++ s ++ "%")%string (Post.title (PostRouter.post r)) = true
        /\ (Utils.allChars isLiteral s = true ->
            contains s (Post.title (PostRouter.post r)))).
Proof.
  intros Hs Hget Hr.
  destruct (getAll_record _ _ _ _ _ Hs Hget Hr) as (_ & row & Hrow & <-).
  split; [exact (joinedRows_post _ _ (getAllRows_joined _ _ _ Hrow))|].
  split.
  - intros b Hb.
    assert (Hh : holds (EqPublished b) row = true).
    { apply (getAllRows_holds input db row _ Hrow).
      rewrite getAllConditions_parts, Hb. now left. }
    cbn [holds] in Hh. now apply Bool.eqb_prop in Hh.
  - intros s Hsearch Hne.
    assert (Hh : holds (LikeTitle ("%" ++ s ++ "%")%string) row = true).
    { apply (getAllRows_holds input db row _ Hrow).
      rewrite getAllConditions_parts, Hsearch.
      destruct s as [|c s]; [now contradiction Hne|].
      cbn [truthyString Utils.isEmpty negb].
      apply in_or_app. right. apply in_or_app. left. now left. }
    cbn [holds] in Hh. split; [exact Hh|].
    intros Hlit. now apply (like_contains _ _ Hlit).
Qed.

Lemma getAll_respects_filters_witness :
  exists posts,
    PostRouter.getAll Sample.db
      (mkFiltersRequest (Some "Title") None (Some true) None None None)
    = Ok posts
    /\ Forall (fun r => contains "Title" (Post.title (PostRouter.post r))
                        /\ Post.published (PostRouter.post r) = true) posts
    /\ map Grouping.postId posts = [2].
Proof.
  eexists. split; [reflexivity|]. split; [|reflexivity].
  apply Forall_forall. intros r Hr.
  destruct (getAll_respects_filters Sample.db
              (mkFiltersRequest (Some "Title") None (Some true) None None None)
              _ _ r eq_refl eq_refl Hr) as (_ & Hpub & Hsearch).
  split.
  - apply (Hsearch "Title" eq_refl); [discriminate|reflexivity].
  - exact (Hpub true eq_refl).
Defined.

(** X14: a post that [post.getAll] returns for a request with a category
    id is filed under that category, and is returned with that category
    only, whatever other categories it is filed under. *)
Theorem getAll_category_filter db request input c posts r :
  postFiltersSchema request = Some input ->
  categoryId input = Some c ->
  PostRouter.getAll db request = Ok posts -> In r posts ->
  In c (categoryIdsOfPost db (Grouping.postId r))
  /\ forall cat, In cat (PostRouter.postCategories r) ->
       Category.id cat = c /\ In cat (categories db).
Proof.
  intros Hs Hc Hget Hr.
  assert (Hpos : truthyNat c = true).
  { unfold postFiltersSchema in Hs.
    destruct (optional idSchema (reqCategoryId request)) eqn:Hopt; [|discriminate].
    cbn [andb] in Hs. destruct (_ && _); [|discriminate]. injection Hs as <-.
    cbn [categoryId] in Hc. rewrite Hc in Hopt. cbn [optional] in Hopt.
    unfold idSchema in Hopt. apply Nat.ltb_lt in Hopt.
    unfold truthyNat. apply negb_true_iff, Nat.eqb_neq. lia. }
  assert (Hcond : forall row, In row (PostRouter.getAllRows input db) ->
                    exists pc, jPostCategory row = Some pc
                               /\ PostCategory.categoryId pc = c).
  { intros row Hrow.
    assert (Hh : holds (EqCategoryId c) row = true).
    { apply (getAllRows_holds input db row _ Hrow).
      rewrite getAllConditions_parts, Hc, Hpos.
      apply in_or_app. right. apply in_or_app. right. now left. }
    cbn [holds] in Hh. destruct (jPostCategory row) as [pc|]; [|discriminate].
    exists pc. split; [reflexivity|now apply Nat.eqb_eq]. }
  destruct (getAll_record _ _ _ _ _ Hs Hget Hr) as (Hcats & row & Hrow & Hpost).
  split.
  - destruct (Hcond row Hrow) as (pc & Hpc & Hid).
    destruct (proj1 (joinedRows_parts db row (getAllRows_joined _ _ _ Hrow)) pc Hpc)
      as [Hin Hpid].
    unfold categoryIdsOfPost, junctionOfPost. apply in_map_iff. exists pc.
    split; [exact Hid|]. apply filter_In. split; [exact Hin|].
    apply Nat.eqb_eq. unfold Grouping.postId. now rewrite <- Hpost.
  - intros cat Hcat. rewrite Hcats in Hcat. unfold Grouping.categoriesOf in Hcat.
    apply in_flat_map in Hcat. destruct Hcat as (raw & Hraw & Hcat).
    apply in_map_iff in Hraw. destruct Hraw as (row' & <- & Hrow').
    destruct (Grouping.rowId _ =? _); [|destruct Hcat].
    cbn [PostRouter.categories PostRouter.selectRow] in Hcat.
    destruct (jCategory row') as [cat'|] eqn:Hj; [|destruct Hcat].
    destruct Hcat as [<-|[]].
    destruct (proj2 (joinedRows_parts db row' (getAllRows_joined _ _ _ Hrow')) cat' Hj)
      as (Hin & pc & Hpc & Hid).
    destruct (Hcond row' Hrow') as (pc' & Hpc' & Hid').
    rewrite Hpc in Hpc'. injection Hpc' as <-. split; [congruence|exact Hin].
Qed.

Lemma getAll_category_filter_witness :
  categoryIdsOfPost Sample.db 1 = [1; 2]
  /\ exists posts,
       PostRouter.getAll Sample.db
         (mkFiltersRequest None (Some 2) None None None None) = Ok posts
       /\ map Grouping.postId posts = [1]
       /\ Forall (fun r => Forall (fun cat => Category.id cat = 2)
                             (PostRouter.postCategories r)) posts.
Proof.
  split; [reflexivity|]. eexists. split; [reflexivity|]. split; [reflexivity|].
  apply Forall_forall. intros r Hr. apply Forall_forall. intros cat Hcat.
  exact (proj1 (proj2 (getAll_category_filter Sample.db
                         (mkFiltersRequest None (Some 2) None None None None)
                         _ 2 _ r eq_refl eq_refl eq_refl Hr) cat Hcat)).
Defined.

End ListFacts.

(* ===================================================================== *)
(** ** The category router *)
(* ===================================================================== *)

Section CategoryStorageFacts.
Import Storage Validations TRPC Invariant.

Lemma applyCategoryPatch_id patch c :
  Category.id (applyCategoryPatch patch c) = Category.id c.
Proof. reflexivity. Qed.

Lemma updateCategoryById_Done i patch db hits db1 :
  updateCategoryById i patch db = Done (hits, db1) ->
  hits = map (applyCategoryPatch patch)
           (filter (fun c => Category.id c =? i) (categories db))
  /\ categories db1 =
     map (fun c => if Category.id c =? i then applyCategoryPatch patch c else c)
         (categories db)
  /\ users db1 = users db /\ posts db1 = posts db
  /\ postCategories db1 = postCategories db
  /\ postCategoriesSeq db1 = postCategoriesSeq db
  /\ postsSeq db1 = postsSeq db /\ categoriesSeq db1 = categoriesSeq db.
Proof.
  unfold updateCategoryById. destruct (firstViolation _); [discriminate|].
  intros H. injection H as <- <-. repeat split.
Qed.

Lemma updateCategoryById_ids i patch db hits db1 :
  updateCategoryById i patch db = Done (hits, db1) ->
  map Category.id (categories db1) = map Category.id (categories db).
Proof.
  intros H. apply updateCategoryById_Done in H. destruct H as (_ & -> & _).
  rewrite map_map. apply map_ext. intros c.
  now destruct (Category.id c =? i).
Qed.


(** What the checks of a passing [UPDATE] say of each rewritten row. *)
Lemma updateCategoryById_checks i patch db hits db1 c :
  updateCategoryById i patch db = Done (hits, db1) ->
  In c (categories db) -> Category.id c = i ->
  2 <= String.length (Category.name (applyCategoryPatch patch c))
  /\ 2 <= String.length (Category.slug (applyCategoryPatch patch c))
  /\ forall q, In q (categories db) -> Category.id q <> i ->
               Category.name q <> Category.name (applyCategoryPatch patch c)
               /\ Category.slug q <> Category.slug (applyCategoryPatch patch c).
Proof.
  unfold updateCategoryById. destruct (firstViolation _) eqn:Hv; [discriminate|].
  intros _ Hin Hid. apply firstViolation_None in Hv.
  assert (Hrow : Forall (fun c => fst c = true)
                   (categoryRowChecks
                      (filter (fun c => negb (Category.id c =? i)) (categories db))
                      (applyCategoryPatch patch c))).
  { apply Forall_forall. intros k Hk.
    apply (proj1 (Forall_forall _ _) Hv). apply in_flat_map.
    exists (applyCategoryPatch patch c). split; [|exact Hk].
    apply in_map, filter_In. split; [exact Hin|now apply Nat.eqb_eq]. }
  unfold categoryRowChecks in Hrow.
  repeat match goal with
         | F : Forall _ (_ :: _) |- _ =>
             let H1 := fresh "Hck" in
             apply Forall_cons_iff in F; destruct F as [H1 F]; cbn [fst] in H1
         end.
  repeat match goal with
         | H : (_ <=? _) = true |- _ => apply Nat.leb_le in H
         | H : negb _ = true |- _ => apply negb_true_iff in H
         end.
  repeat split; try assumption.
  - intros Hname.
    assert (Hex : existsb (fun q => String.eqb (Category.name q)
                                      (Category.name (applyCategoryPatch patch c)))
                          (filter (fun c => negb (Category.id c =? i)) (categories db))
                  = true).
    { apply existsb_exists. exists q. split.
      - apply filter_In. split; [assumption|]. apply negb_true_iff.
        now apply Nat.eqb_neq.
      - now apply String.eqb_eq. }
    congruence.
  - intros Hslug.
    assert (Hex : existsb (fun q => String.eqb (Category.slug q)
                                      (Category.slug (applyCategoryPatch patch c)))
                          (filter (fun c => negb (Category.id c =? i)) (categories db))
                  = true).
    { apply existsb_exists. exists q. split.
      - apply filter_In. split; [assumption|]. apply negb_true_iff.
        now apply Nat.eqb_neq.
      - now apply String.eqb_eq. }
    congruence.
Qed.

Lemma Consistent_updateCategoryById i patch db hits db1 :
  Consistent db -> updateCategoryById i patch db = Done (hits, db1) ->
  Consistent db1.
Proof.
  intros Hcons Hu.
  pose proof (updateCategoryById_checks i patch db hits db1) as Hchecks.
  pose proof (updateCategoryById_ids _ _ _ _ _ Hu) as Hids.
  pose proof Hu as Hdone. apply updateCategoryById_Done in Hdone.
  destruct Hdone as (_ & Hcats & Husers & Hposts & Hj & Hjs & Hps & Hcs).
  destruct Hcons.
  assert (Hinj : forall (f : Category.t -> string),
             (forall x q, In x (categories db) -> Category.id x = i ->
                          In q (categories db) -> Category.id q <> i ->
                          f q <> f (applyCategoryPatch patch x)) ->
             NoDup (map f (categories db)) ->
             NoDup (map f (categories db1))).
  { intros f Hfresh Hnd. rewrite Hcats, map_map. apply NoDup_map_on.
    - exact (NoDup_map_inv _ _ categoryIds0).
    - intros x y Hx Hy Hf.
      destruct (Category.id x =? i) eqn:Ex, (Category.id y =? i) eqn:Ey.
      + apply Nat.eqb_eq in Ex, Ey.
        apply (NoDup_map_injective Category.id (categories db)); congruence.
      + apply Nat.eqb_eq in Ex. apply Nat.eqb_neq in Ey. exfalso.
        exact (Hfresh x y Hx Ex Hy Ey (eq_sym Hf)).
      + apply Nat.eqb_eq in Ey. apply Nat.eqb_neq in Ex. exfalso.
        exact (Hfresh y x Hy Ey Hx Ex Hf).
      + now apply (NoDup_map_injective f (categories db)). }
  constructor.
  - now rewrite Husers.
  - now rewrite Hposts.
  - now rewrite Hposts.
  - rewrite Hposts. revert postRows0. apply Forall_impl. intros p.
    apply postRowOk_mono; [rewrite Husers; apply incl_refl|lia].
  - now rewrite Hids.
  - apply Hinj; [|assumption]. intros x q Hx Ex Hq Eq.
    exact (proj1 (proj2 (proj2 (Hchecks x Hu Hx Ex)) q Hq Eq)).
  - apply Hinj; [|assumption]. intros x q Hx Ex Hq Eq.
    exact (proj2 (proj2 (proj2 (Hchecks x Hu Hx Ex)) q Hq Eq)).
  - rewrite Hcats. apply Forall_forall. intros c' Hc'.
    apply in_map_iff in Hc'. destruct Hc' as (c & <- & Hc).
    pose proof (proj1 (Forall_forall _ _) categoryRows0 c Hc) as Hok.
    apply (categoryRowOk_mono db db1) in Hok; [|lia].
    destruct (Category.id c =? i) eqn:E; [|exact Hok].
    apply Nat.eqb_eq in E. destruct (Hchecks c Hu Hc E) as (Hn & Hs & _).
    destruct Hok as (_ & _ & Hseq). repeat split; assumption.
  - now rewrite Hj.
  - now rewrite Hj.
  - rewrite Hj. revert junctionRowsOk0. apply Forall_impl. intros r.
    apply junctionRowOk_mono.
    + rewrite !hasPost_In. now rewrite Hposts.
    + rewrite Hids. apply incl_refl.
    + lia.
Qed.

Lemma clearParent_id deleted c :
  Category.id (clearParent deleted c) = Category.id c.
Proof.
  unfold clearParent. destruct (Category.parentId c) as [k|]; [|reflexivity].
  now destruct (existsb _ deleted).
Qed.

Lemma clearParent_name deleted c :
  Category.name (clearParent deleted c) = Category.name c.
Proof.
  unfold clearParent. destruct (Category.parentId c) as [k|]; [|reflexivity].
  now destruct (existsb _ deleted).
Qed.

Lemma clearParent_slug deleted c :
  Category.slug (clearParent deleted c) = Category.slug c.
Proof.
  unfold clearParent. destruct (Category.parentId c) as [k|]; [|reflexivity].
  now destruct (existsb _ deleted).
Qed.

Lemma map_clearParent {B : Type} (f : Category.t -> B) deleted l :
  (forall c, f (clearParent deleted c) = f c) ->
  map f (map (clearParent deleted) l) = map f l.
Proof. intros H. rewrite map_map. now apply map_ext. Qed.

(** The rows a delete by id matches all carry the id. *)
Lemma deleted_ids db i k :
  existsb (fun c => Category.id c =? k)
          (filter (fun c => Category.id c =? i) (categories db))
  = hasCategory db i && (i =? k).
Proof.
  unfold hasCategory. induction (categories db) as [|c l IH]; [reflexivity|].
  cbn [filter existsb]. destruct (Category.id c =? i) eqn:E.
  - cbn [existsb orb andb]. apply Nat.eqb_eq in E. rewrite E, IH.
    destruct (i =? k); [reflexivity|]. now rewrite andb_false_r.
  - cbn [orb]. exact IH.
Qed.

Lemma deleteCategoryById_parts i db :
  let db' := snd (deleteCategoryById i db) in
  users db' = users db /\ posts db' = posts db
  /\ map Category.id (categories db')
     = filter (fun k => negb (k =? i)) (map Category.id (categories db))
  /\ map Category.name (categories db')
     = map Category.name (filter (fun c => negb (Category.id c =? i)) (categories db))
  /\ map Category.slug (categories db')
     = map Category.slug (filter (fun c => negb (Category.id c =? i)) (categories db))
  /\ postCategories db'
     = filter (fun r => negb (hasCategory db i && (i =? PostCategory.categoryId r)))
              (postCategories db)
  /\ postsSeq db' = postsSeq db /\ categoriesSeq db' = categoriesSeq db
  /\ postCategoriesSeq db' = postCategoriesSeq db.
Proof.
  cbv zeta. unfold deleteCategoryById.
  cbn [snd users posts categories postCategories postsSeq categoriesSeq
       postCategoriesSeq].
  repeat split.
  - rewrite (map_clearParent Category.id) by apply clearParent_id.
    induction (categories db) as [|c l IH]; [reflexivity|]. cbn [filter map].
    destruct (Category.id c =? i); cbn [negb map]; now rewrite IH.
  - apply map_clearParent, clearParent_name.
  - apply map_clearParent, clearParent_slug.
  - apply filter_ext. intros r. now rewrite deleted_ids.
Qed.

Lemma Consistent_deleteCategoryById i db :
  Consistent db -> Consistent (snd (deleteCategoryById i db)).
Proof.
  intros Hcons.
  destruct (deleteCategoryById_parts i db)
    as (Hu & Hp & Hids & Hnames & Hslugs & Hj & Hps & Hcs & Hjs).
  destruct Hcons.
  assert (Hin : forall c', In c' (categories (snd (deleteCategoryById i db))) ->
                  exists c, In c (categories db) /\ Category.id c <> i
                            /\ c' = clearParent
                                      (filter (fun c => Category.id c =? i) (categories db)) c).
  { unfold deleteCategoryById. cbn [snd categories]. intros c' Hc'.
    apply in_map_iff in Hc'. destruct Hc' as (c & <- & Hc).
    apply filter_In in Hc. destruct Hc as [Hc Hid].
    apply negb_true_iff, Nat.eqb_neq in Hid. now exists c. }
  constructor.
  - now rewrite Hu.
  - now rewrite Hp.
  - now rewrite Hp.
  - rewrite Hp. revert postRows0. apply Forall_impl. intros p.
    apply postRowOk_mono; [rewrite Hu; apply incl_refl|lia].
  - rewrite Hids. now apply NoDup_filter.
  - rewrite Hnames. now apply NoDup_map_filter.
  - rewrite Hslugs. now apply NoDup_map_filter.
  - apply Forall_forall. intros c' Hc'.
    destruct (Hin c' Hc') as (c & Hc & _ & ->).
    destruct (proj1 (Forall_forall _ _) categoryRows0 c Hc) as (Hn & Hs & Hseq).
    unfold categoryRowOk.
    rewrite clearParent_name, clearParent_slug, clearParent_id.
    repeat split; try assumption; lia.
  - rewrite Hj. now apply NoDup_map_filter.
  - rewrite Hj. now apply NoDup_map_filter.
  - rewrite Hj. apply Forall_forall. intros r Hr. apply filter_In in Hr.
    destruct Hr as [Hr Hkeep]. apply negb_true_iff in Hkeep.
    destruct (proj1 (Forall_forall _ _) junctionRowsOk0 r Hr) as (Hhp & Hhc & Hseq).
    repeat split.
    + rewrite <- Hhp. apply hasPost_ids. now rewrite Hp.
    + apply hasCategory_In. rewrite Hids. apply filter_In.
      split; [now apply hasCategory_In|]. apply negb_true_iff, Nat.eqb_neq.
      intros E. rewrite E in Hhc, Hkeep.
      rewrite Hhc, Nat.eqb_refl in Hkeep. discriminate Hkeep.
    + lia.
Qed.

(** With distinct slugs, the query by slug finds a stored category. *)
Lemma category_rows_of_slug l c :
  NoDup (map Category.slug l) -> In c l ->
  filter (fun x => String.eqb (Category.slug x) (Category.slug c)) l = [c].
Proof.
  induction l as [|x l IH]; [intros _ []|]. cbn [map filter]. intros Hnd Hin.
  inversion Hnd as [|? ? Hfresh Hnd']; subst.
  destruct Hin as [->|Hin].
  - rewrite String.eqb_refl, filter_none; [reflexivity|].
    intros y Hy. apply String.eqb_neq. intros E. apply Hfresh. rewrite <- E.
    now apply in_map.
  - assert (Hne : String.eqb (Category.slug x) (Category.slug c) = false).
    { apply String.eqb_neq. intros E. apply Hfresh. rewrite E. now apply in_map. }
    rewrite Hne. now apply IH.
Qed.

Lemma category_getBySlug_found db c :
  Consistent db -> In c (categories db) ->
  CategoryRouter.getBySlug db (Category.slug c) = Ok c.
Proof.
  intros Hcons Hin.
  unfold CategoryRouter.getBySlug, publicProcedure, getCategoryBySlugSchema.
  destruct (proj1 (Forall_forall _ _) (categoryRows db Hcons) c Hin) as (_ & Hs & _).
  replace (1 <=? String.length (Category.slug c)) with true
    by (symmetry; apply Nat.leb_le; lia).
  unfold CategoryRouter.getBySlugHandler.
  now rewrite (category_rows_of_slug _ _ (categorySlugs db Hcons) Hin).
Qed.

Lemma category_getBySlug_absent db slug :
  1 <= String.length slug ->
  (forall c, In c (categories db) -> Category.slug c <> slug) ->
  CategoryRouter.getBySlug db slug = Err (Thrown NOT_FOUND "Category not found").
Proof.
  intros Hlen Habsent.
  unfold CategoryRouter.getBySlug, publicProcedure, getCategoryBySlugSchema.
  apply Nat.leb_le in Hlen. rewrite Hlen. unfold CategoryRouter.getBySlugHandler.
  rewrite filter_none; [reflexivity|].
  intros c Hc. apply String.eqb_neq. now apply Habsent.
Qed.

End CategoryStorageFacts.

Section CategoryRouterFacts.
Import Storage Validations TRPC Invariant.











Lemma updateCategorySchema_Some request input :
  updateCategorySchema request = Some input ->
  input = request
  /\ forall n, updCatName request = Some n -> truthyString n = true.
Proof.
  unfold updateCategorySchema.
  destruct (idSchema (updCatId request)); [|discriminate].
  destruct (optional _ (updCatName request)) eqn:Hn; [|discriminate].
  destruct (descriptionSchema _); [|discriminate].
  intros H. injection H as <-. split; [reflexivity|].
  intros n Hname. rewrite Hname in Hn. cbn [optional] in Hn.
  apply andb_prop in Hn. destruct Hn as [Hn _]. apply Nat.leb_le in Hn.
  destruct n; [simpl in Hn; lia|reflexivity].
Qed.

(** The statements behind a successful [category.update]. *)
Lemma category_update_Ok now db request c db' :
  CategoryRouter.update now db request = (Ok c, db') ->
  exists old rest hits,
    updateCategorySchema request = Some request
    /\ updateCategoryById (updCatId request)
         (CategoryRouter.updatePayload now request) db
       = Done (c :: hits, db')
    /\ filter (fun x => Category.id x =? updCatId request) (categories db)
       = old :: rest
    /\ c = applyCategoryPatch (CategoryRouter.updatePayload now request) old.
Proof.
  unfold CategoryRouter.update, publicProcedure.
  destruct (updateCategorySchema request) as [input|] eqn:Hs; [|discriminate].
  destruct (updateCategorySchema_Some _ _ Hs) as (-> & _).
  unfold CategoryRouter.updateHandler.
  destruct (updateCategoryById _ _ _) as [[[|c0 hits] db1]|] eqn:Hu; try discriminate.
  intros H. injection H as <- <-.
  pose proof (updateCategoryById_Done _ _ _ _ _ Hu) as (Hhits & _).
  destruct (filter _ (categories db)) as [|old rest] eqn:Hf; [discriminate Hhits|].
  cbn [map] in Hhits. injection Hhits as Hc Hrest.
  exists old, rest, hits. now repeat split.
Qed.

(** X16: a category that [category.update] returns is a stored category
    with the id of the request, rewritten: the name and the description
    are the supplied ones or stay, the slug is the slug of a supplied
    name or stays, the update time is the time of the call, and nothing
    else of the row changes; the users, the posts, the junction rows and
    the categories with other ids are as before. *)
Theorem category_update_frame now db request c db' :
  CategoryRouter.update now db request = (Ok c, db') ->
  exists old,
    In old (categories db) /\ Category.id old = updCatId request
    /\ In c (categories db') /\ Category.id c = updCatId request
    /\ (forall n, updCatName request = Some n ->
          Category.name c = n /\ Category.slug c = Utils.generateSlug n)
    /\ (updCatName request = None ->
          Category.name c = Category.name old /\ Category.slug c = Category.slug old)
    /\ (forall d, updCatDescription request = Some d ->
          Category.description c = Some d)
    /\ (updCatDescription request = None ->
          Category.description c = Category.description old)
    /\ Category.updatedAt c = now
    /\ Category.createdAt c = Category.createdAt old
    /\ Category.parentId c = Category.parentId old
    /\ Category.postCount c = Category.postCount old
    /\ users db' = users db /\ posts db' = posts db
    /\ postCategories db' = postCategories db
    /\ forall q, Category.id q <> updCatId request ->
         (In q (categories db') <-> In q (categories db)).
Proof.
  intros Hup.
  destruct (category_update_Ok _ _ _ _ _ Hup) as (old & rest & hits & Hs & Hu & Hf & Hc).
  destruct (updateCategorySchema_Some _ _ Hs) as (_ & Htruthy).
  destruct (updateCategoryById_Done _ _ _ _ _ Hu) as (_ & Hcats & Husers & Hposts & Hj & _).
  assert (Hold : In old (categories db) /\ Category.id old = updCatId request).
  { assert (Hin : In old (filter (fun x => Category.id x =? updCatId request)
                                 (categories db))) by (rewrite Hf; now left).
    apply filter_In in Hin. destruct Hin as [Hin Hid].
    apply Nat.eqb_eq in Hid. now split. }
  destruct Hold as [Hold Hid].
  exists old. split; [exact Hold|]. split; [exact Hid|].
  split.
  { rewrite Hcats. apply in_map_iff. exists old. split; [|exact Hold].
    rewrite Hid, Nat.eqb_refl. now symmetry. }
  subst c. unfold applyCategoryPatch, CategoryRouter.updatePayload.
  cbn [Category.id Category.name Category.slug Category.description
       Category.updatedAt Category.createdAt Category.parentId Category.postCount
       setCategoryName setCategoryDescription setCategorySlug
       setCategoryUpdatedAt orElse].
  split; [exact Hid|]. split.
  { intros n Hn. rewrite Hn, (Htruthy n Hn). now split. }
  split; [intros Hn; rewrite Hn; now split|].
  split; [intros d Hd; now rewrite Hd|].
  split; [intros Hd; now rewrite Hd|].
  repeat (split; [reflexivity|]).
  split; [exact Husers|]. split; [exact Hposts|]. split; [exact Hj|].
  intros q Hq. rewrite Hcats, in_map_iff. split.
  - intros (x & Hx & Hin). destruct (Category.id x =? updCatId request) eqn:E.
    + apply Nat.eqb_eq in E. subst q. now rewrite applyCategoryPatch_id in Hq.
    + now subst q.
  - intros Hin. exists q. split; [|exact Hin].
    apply Nat.eqb_neq in Hq. now rewrite Hq.
Qed.

Lemma category_update_frame_witness :
  exists c db',
    CategoryRouter.update 40 Sample.db (mkUpdateCategory 2 (Some "Technology") None)
    = (Ok c, db')
    /\ Category.slug c = "technology"
    /\ postCategories db' = postCategories Sample.db.
Proof.
  eexists. eexists. split; [reflexivity|].
  destruct (category_update_frame 40 Sample.db
              (mkUpdateCategory 2 (Some "Technology") None) _ _ eq_refl)
    as (old & _ & _ & _ & _ & Hname & _ & _ & _ & _ & _ & _ & _ & _ & _ & Hj & _).
  split; [exact (proj2 (Hname "Technology" eq_refl))|exact Hj].
Defined.



End CategoryRouterFacts.

Section CategoryLifeCycle.
Import Storage Validations TRPC Invariant.

(** X18: on a database that meets the storage contract, after a
    successful [category.update] a fetch by the returned category's slug
    returns it, and when the update changed the slug, which it does when
    the new name has another slug, a fetch by the old slug answers
    not-found. *)
Theorem category_rename_moves_slug now db request c db' :
  Consistent db ->
  CategoryRouter.update now db request = (Ok c, db') ->
  CategoryRouter.getBySlug db' (Category.slug c) = Ok c
  /\ forall old, In old (categories db) -> Category.id old = updCatId request ->
       Category.slug old <> Category.slug c ->
       CategoryRouter.getBySlug db' (Category.slug old)
       = Err (Thrown NOT_FOUND "Category not found").
Proof.
  intros Hcons Hup.
  destruct (category_update_Ok _ _ _ _ _ Hup) as (old0 & rest & hits & _ & Hu & Hf & Hc).
  pose proof (Consistent_updateCategoryById _ _ _ _ _ Hcons Hu) as Hcons'.
  destruct (updateCategoryById_Done _ _ _ _ _ Hu) as (_ & Hcats & _).
  assert (Hold0 : In old0 (categories db) /\ Category.id old0 = updCatId request).
  { assert (Hin : In old0 (filter (fun x => Category.id x =? updCatId request)
                                  (categories db))) by (rewrite Hf; now left).
    apply filter_In in Hin. destruct Hin as [Hin Hid].
    apply Nat.eqb_eq in Hid. now split. }
  destruct Hold0 as [Hin0 Hid0].
  split.
  - apply category_getBySlug_found; [exact Hcons'|].
    rewrite Hcats. apply in_map_iff. exists old0. split; [|exact Hin0].
    rewrite Hid0, Nat.eqb_refl. now symmetry.
  - intros old Hold Hid Hslug.
    assert (old = old0) as ->.
    { apply (NoDup_map_injective Category.id (categories db));
        [exact (categoryIds db Hcons)|assumption|assumption|congruence]. }
    apply category_getBySlug_absent.
    + pose proof (proj1 (Forall_forall _ _) (categoryRows db Hcons) old0 Hin0)
        as (_ & Hs & _). lia.
    + intros q Hq E. rewrite Hcats in Hq. apply in_map_iff in Hq.
      destruct Hq as (x & Hx & Hxin).
      destruct (Category.id x =? updCatId request) eqn:Ex.
      * apply Nat.eqb_eq in Ex.
        assert (x = old0) as ->.
        { apply (NoDup_map_injective Category.id (categories db));
            [exact (categoryIds db Hcons)|assumption|assumption|congruence]. }
        apply Hslug. rewrite Hc, Hx. now symmetry.
      * subst q. apply Nat.eqb_neq in Ex. apply Ex.
        rewrite <- Hid0. f_equal.
        apply (NoDup_map_injective Category.slug (categories db));
          [exact (categorySlugs db Hcons)|assumption|assumption|exact E].
Qed.

Lemma category_rename_moves_slug_witness :
  exists c db',
    CategoryRouter.update 40 Sample.db (mkUpdateCategory 2 (Some "Technology") None)
    = (Ok c, db')
    /\ CategoryRouter.getBySlug db' "technology" = Ok c
    /\ CategoryRouter.getBySlug db' "tech-science"
       = Err (Thrown NOT_FOUND "Category not found").
Proof.
  eexists. eexists. split; [reflexivity|].
  destruct (category_rename_moves_slug 40 Sample.db
              (mkUpdateCategory 2 (Some "Technology") None) _ _
              (proj1 (consistent_Consistent Sample.db) eq_refl) eq_refl)
    as [Hnew Hold].
  split; [exact Hnew|].
  apply (Hold Sample.tech); [right; now left|reflexivity|discriminate].
Defined.




Lemma insertCategoryByCreatedAtDesc_perm c rows :
  Permutation (insertCategoryByCreatedAtDesc c rows) (c :: rows).
Proof.
  induction rows as [|x rows IH]; simpl; [reflexivity|].
  destruct (Category.createdAt x <=? Category.createdAt c); [reflexivity|].
  rewrite IH. apply perm_swap.
Qed.

Lemma orderCategories_perm rows :
  Permutation (orderCategoriesByCreatedAtDesc rows) rows.
Proof.
  induction rows as [|c rows IH]; simpl; [reflexivity|].
  rewrite insertCategoryByCreatedAtDesc_perm. now constructor.
Qed.

Lemma insertCategoryByCreatedAtDesc_sorted c rows :
  StronglySorted (fun a b => Category.createdAt b <= Category.createdAt a) rows ->
  StronglySorted (fun a b => Category.createdAt b <= Category.createdAt a)
    (insertCategoryByCreatedAtDesc c rows).
Proof.
  induction 1 as [|x rows Hs IH Hx]; simpl; [repeat constructor|].
  destruct (Category.createdAt x <=? Category.createdAt c) eqn:E.
  - apply Nat.leb_le in E. constructor; [now constructor|].
    constructor; [exact E|]. eapply Forall_impl; [|exact Hx].
    intros y Hy. simpl in Hy. lia.
  - apply Nat.leb_gt in E. constructor; [exact IH|].
    apply Forall_forall. intros y Hy.
    apply (Permutation_in _ (insertCategoryByCreatedAtDesc_perm c rows)) in Hy.
    destruct Hy as [<-|Hy]; [lia|].
    exact (proj1 (Forall_forall _ _) Hx y Hy).
Qed.

(** X20: [category.getAll] has no filter and no page: it returns every
    category exactly once, newest first. *)
Theorem category_getAll_newest_first db :
  exists rows,
    CategoryRouter.getAll db = Ok rows
    /\ Permutation rows (categories db)
    /\ StronglySorted (fun a b => Category.createdAt b <= Category.createdAt a) rows.
Proof.
  exists (orderCategoriesByCreatedAtDesc (categories db)).
  split; [reflexivity|]. split; [apply orderCategories_perm|].
  unfold orderCategoriesByCreatedAtDesc.
  induction (categories db) as [|c rows IH]; simpl; [constructor|].
  now apply insertCategoryByCreatedAtDesc_sorted.
Qed.

(** X21: every mutation of the post router and of the category router
    keeps the storage contract: the primary keys and unique indexes, the
    check constraints on titles, names and slugs, the foreign keys, and
    keys no greater than the sequences, whether the call succeeds or
    fails. *)
Theorem mutations_keep_contract db :
  Consistent db ->
  (forall now ctx request,
     Consistent (snd (PostRouter.create now db ctx request)))
  /\ (forall now ctx request,
        Consistent (snd (PostRouter.update now db ctx request)))
  /\ (forall ctx id, Consistent (snd (PostRouter.delete db ctx id)))
  /\ (forall now request, Consistent (snd (CategoryRouter.create now db request)))
  /\ (forall now request, Consistent (snd (CategoryRouter.update now db request)))
  /\ (forall id, Consistent (snd (CategoryRouter.delete db id))).
Proof.
  intros Hcons.
  split; [intros; now apply create_keeps_contract|].
  split; [intros; now apply update_keeps_contract|].
  split; [intros; now apply delete_keeps_contract|].
  split; [intros; now apply category_create_keeps_contract|].
  split.
  - intros now request. unfold CategoryRouter.update, publicProcedure.
    destruct (updateCategorySchema request) as [input|]; [|exact Hcons].
    unfold CategoryRouter.updateHandler.
    destruct (updateCategoryById _ _ _) as [[hits db1]|] eqn:Hu; [|exact Hcons].
    pose proof (Consistent_updateCategoryById _ _ _ _ _ Hcons Hu) as H.
    now destruct hits.
  - intros id. unfold CategoryRouter.delete, publicProcedure.
    destruct (idSchema id); [|exact Hcons].
    unfold CategoryRouter.deleteHandler.
    pose proof (Consistent_deleteCategoryById id db Hcons) as H.
    destruct (deleteCategoryById id db) as [[|c l] db1]; exact H.
Qed.

Lemma mutations_keep_contract_witness :
  consistent (snd (CategoryRouter.delete Sample.db 2)) = true
  /\ Consistent (snd (CategoryRouter.delete Sample.db 2)).
Proof.
  split; [reflexivity|].
  exact (proj2 (proj2 (proj2 (proj2 (proj2
           (mutations_keep_contract Sample.db
              (proj1 (consistent_Consistent Sample.db) eq_refl)))))) 2).
Defined.

End CategoryLifeCycle.

(* ===================================================================== *)
(** ** src/lib/db-utils.ts: the query helpers *)
(* ===================================================================== *)

Section GroupInvariant.
Import Storage TRPC PostQueries.

Lemma JsMap_modify_In {V : Type} k (f : V -> V) (m : JsMap.t V) k' v' :
  In (k', v') (JsMap.modify k f m) ->
  In (k', v') m \/ (k' = k /\ exists v, In (k, v) m /\ v' = f v).
Proof.
  induction m as [|[k0 v0] m IH]; [intros []|]. simpl.
  destruct (k0 =? k) eqn:E.
  - apply Nat.eqb_eq in E. subst k0. intros [H|H].
    + injection H as <- <-. right. split; [reflexivity|]. exists v0.
      split; [now left|reflexivity].
    + left. now right.
  - intros [H|H]; [left; now left|].
    destruct (IH H) as [H'|(-> & v & Hv & ->)]; [left; now right|].
    right. split; [reflexivity|]. exists v. split; [now right|reflexivity].
Qed.

Lemma groupStep_invariant now rs m row :
  GroupingSpec.invariant rs m ->
  GroupingSpec.invariant (rs ++ [row]) (groupStep now m row).
Proof.
  intros (Hnd & Hm). unfold groupStep.
  set (postId := Post.id (rowPost row)).
  set (m1 := if negb (JsMap.has postId m)
             then JsMap.set postId (mkDetails (rowPost row) (rowAuthor row) []) m
             else m).
  assert (Hm1 : GroupingSpec.invariant (rs ++ [row]) m1).
  { assert (Hweak : forall k d, In (k, d) m ->
               k = Post.id (detailsPost d)
               /\ (exists row0, In row0 (rs ++ [row]) /\ rowPost row0 = detailsPost d)
               /\ forall e, In e (postCategories d) ->
                    exists row0, In row0 (rs ++ [row])
                                 /\ Post.id (rowPost row0) = k
                                 /\ rowCategoryId row0
                                    = Some (PostCategory.categoryId (junction e))).
    { intros k d Hin. destruct (Hm k d Hin) as (Hk & (r0 & Hr0 & Hp0) & He).
      split; [exact Hk|]. split.
      - exists r0. split; [apply in_or_app; now left|exact Hp0].
      - intros e Hein. destruct (He e Hein) as (r1 & Hr1 & H1).
        exists r1. split; [apply in_or_app; now left|exact H1]. }
    subst m1. destruct (JsMap.has postId m) eqn:Hhas; cbn [negb].
    - split; [exact Hnd|exact Hweak].
    - rewrite (JsMap_set_fresh _ _ _ Hhas). split.
      + rewrite map_app. cbn [map fst].
        apply NoDup_app; [exact Hnd|repeat constructor; intros []|].
        intros k Hk [<-|[]].
        assert (JsMap.has postId m = true) as Ht; [|congruence].
        now apply JsMap_has_In.
      + intros k d Hin. apply in_app_or in Hin. destruct Hin as [Hin|[Hin|[]]].
        * now apply Hweak.
        * injection Hin as <- <-. cbn [detailsPost postCategories].
          split; [reflexivity|]. split; [|intros e []].
          exists row. split; [apply in_or_app; right; now left|reflexivity]. }
  destruct (JsMap.get postId m1) as [post|] eqn:Hget; [|exact Hm1].
  destruct (rowCategoryId row) as [categoryId|] eqn:Hcid; [|exact Hm1].
  destruct (rowCategoryName row) as [categoryName|]; [|exact Hm1].
  destruct (truthyNat categoryId && truthyString categoryName
            && negb (existsb _ (postCategories post))); [|exact Hm1].
  destruct Hm1 as (Hnd1 & Hm1). split.
  - now rewrite JsMap_modify_keys.
  - intros k d Hin. apply JsMap_modify_In in Hin.
    destruct Hin as [Hin|(-> & v & Hv & ->)]; [now apply Hm1|].
    destruct (Hm1 _ _ Hv) as (Hk & Hrow & He). cbn [detailsPost postCategories].
    split; [exact Hk|]. split; [exact Hrow|].
    intros e Hein. apply in_app_or in Hein. destruct Hein as [Hein|[<-|[]]].
    + now apply He.
    + exists row. split; [apply in_or_app; right; now left|].
      split; [reflexivity|]. now rewrite Hcid.
Qed.

Lemma fold_groupStep_invariant now rows : forall rs m,
  GroupingSpec.invariant rs m ->
  GroupingSpec.invariant (rs ++ rows) (fold_left (groupStep now) rows m).
Proof.
  induction rows as [|row rows IH]; intros rs m Hm.
  - now rewrite app_nil_r.
  - cbn [fold_left].
    replace (rs ++ row :: rows) with ((rs ++ [row]) ++ rows)
      by (now rewrite <- app_assoc).
    apply IH. now apply groupStep_invariant.
Qed.

(** One record per post of the rows, and nothing in a record that is not
    in the rows. *)
Lemma groupRows_records now rows :
  NoDup (map (fun d => Post.id (detailsPost d)) (groupRows now rows))
  /\ forall d, In d (groupRows now rows) ->
       (exists row, In row rows /\ rowPost row = detailsPost d)
       /\ forall e, In e (postCategories d) ->
            exists row, In row rows
                        /\ Post.id (rowPost row) = Post.id (detailsPost d)
                        /\ rowCategoryId row
                           = Some (PostCategory.categoryId (junction e)).
Proof.
  destruct (fold_groupStep_invariant now rows [] JsMap.empty) as (Hnd & Hm).
  { split; [constructor|intros k d []]. }
  cbn [app] in Hm. unfold groupRows, JsMap.values. split.
  - rewrite map_map.
    replace (map (fun x => Post.id (detailsPost (snd x)))
                 (fold_left (groupStep now) rows JsMap.empty))
      with (map fst (fold_left (groupStep now) rows JsMap.empty)); [exact Hnd|].
    apply map_ext_in. intros [k d] Hin. exact (proj1 (Hm k d Hin)).
  - intros d Hin. apply in_map_iff in Hin. destruct Hin as ([k d'] & Hd & Hin).
    cbn [snd] in Hd. subst d'. destruct (Hm k d Hin) as (Hk & Hrow & He).
    split; [exact Hrow|]. intros e Hein. rewrite <- Hk. now apply He.
Qed.

Lemma groupRows_length now rows :
  List.length (groupRows now rows) <= List.length rows.
Proof.
  unfold groupRows, JsMap.values. rewrite length_map.
  assert (H : forall m, List.length (fold_left (groupStep now) rows m)
                        <= List.length m + List.length rows).
  { induction rows as [|row rows IH]; intros m; [simpl; lia|].
    cbn [fold_left List.length]. specialize (IH (groupStep now m row)).
    assert (Hstep : List.length (groupStep now m row) <= S (List.length m)).
    { unfold groupStep.
      set (postId := Post.id (rowPost row)).
      set (m1 := if negb (JsMap.has postId m)
                 then JsMap.set postId (mkDetails (rowPost row) (rowAuthor row) []) m
                 else m).
      assert (Hm1 : List.length m1 <= S (List.length m)).
      { subst m1. destruct (JsMap.has postId m) eqn:Hhas; cbn [negb]; [lia|].
        rewrite (JsMap_set_fresh _ _ _ Hhas), length_app. simpl. lia. }
      assert (Hmod : forall f, List.length (JsMap.modify postId f m1)
                               = List.length m1).
      { intros f. rewrite <- (length_map fst (JsMap.modify postId f m1)).
        now rewrite JsMap_modify_keys, length_map. }
      destruct (JsMap.get postId m1); [|exact Hm1].
      destruct (rowCategoryId row); [|exact Hm1].
      destruct (rowCategoryName row); [|exact Hm1].
      destruct (_ && _); [|exact Hm1]. now rewrite Hmod. }
    lia. }
  exact (H JsMap.empty).
Qed.

(** The rows of a page are rows of the join that meet every condition. *)
Lemma page_rows conditions limit offset db r :
  In r (limitOffset limit offset
          (orderByCreatedAtDesc (where_ conditions (joinedRows db)))) ->
  In r (joinedRows db) /\ forall c, In c conditions -> holds c r = true.
Proof.
  unfold limitOffset, where_. intros Hin. apply In_firstn in Hin.
  assert (Hin' : In r (orderByCreatedAtDesc
                         (filter (fun r => forallb (fun c => holds c r) conditions)
                                 (joinedRows db)))).
  { revert Hin. generalize (orderByCreatedAtDesc
                              (filter (fun r => forallb (fun c => holds c r) conditions)
                                      (joinedRows db))).
    induction offset as [|n IH]; intros l Hl; [exact Hl|].
    destruct l as [|x l]; [destruct Hl|]. right. now apply IH. }
  apply (Permutation_in _ (orderByCreatedAtDesc_perm _)) in Hin'.
  apply filter_In in Hin'. destruct Hin' as [Hj Hall].
  split; [exact Hj|]. intros c Hc. exact (proj1 (forallb_forall _ _) Hall _ Hc).
Qed.

Lemma conditions_parts o :
  conditions o =
  (if truthyOpt truthyNat (authorId o) then [EqAuthorId (orElse (authorId o) 0)] else [])
  ++ (match published o with Some b => [EqPublished b] | None => [] end)
  ++ (match search o with
      | Some s =>
          if truthyString s
          then [Or (ILikeTitle ("%" ++ s ++ "%")%string)
                   (ILikeContent ("%" ++ s ++ "%"))]
          else []
      | None => []
      end)
  ++ (if truthyOpt truthyNat (categoryId o)
      then [EqCategoryId (orElse (categoryId o) 0)] else []).
Proof.
  unfold conditions.
  destruct (truthyOpt truthyNat (authorId o)), (published o), (search o) as [s|],
    (truthyOpt truthyNat (categoryId o));
    try destruct (truthyString s); reflexivity.
Qed.

Lemma getPostsWithDetails_page now db o :
  let records := getPostsWithDetails now db o in
  List.length records <= limit o
  /\ NoDup (map (fun d => Post.id (detailsPost d)) records)
  /\ forall d, In d records ->
       In (detailsPost d) (posts db)
       /\ distinctCategories d
       /\ (forall b, published o = Some b -> Post.published (detailsPost d) = b)
       /\ (forall a, authorId o = Some a -> a <> 0 ->
             Post.authorId (detailsPost d) = a)
       /\ (forall c, categoryId o = Some c -> c <> 0 ->
             forall e, In e (postCategories d) ->
               PostCategory.categoryId (junction e) = c).
Proof.
  cbv zeta. unfold getPostsWithDetails.
  set (page := limitOffset (limit o) (offset o)
                 (orderByCreatedAtDesc (where_ (conditions o) (joinedRows db)))).
  destruct (groupRows_records now (map (selectRow db) page)) as (Hnd & Hrec).
  split.
  { etransitivity; [apply groupRows_length|]. rewrite length_map.
    apply limitOffset_length. }
  split; [exact Hnd|].
  intros d Hd. destruct (Hrec d Hd) as ((row & Hrow & Hpost) & Hcats).
  apply in_map_iff in Hrow. destruct Hrow as (r & <- & Hr).
  destruct (page_rows _ _ _ _ _ Hr) as (Hj & Hconds).
  cbn [selectRow rowPost] in Hpost.
  split; [rewrite <- Hpost; now apply joinedRows_post|].
  split; [exact (groupRows_distinct _ _ _ Hd)|].
  split; [|split].
  - intros b Hb.
    assert (Hh : holds (EqPublished b) r = true).
    { apply Hconds. rewrite conditions_parts, Hb.
      apply in_or_app. right. apply in_or_app. left. now left. }
    cbn [holds] in Hh. rewrite <- Hpost. now apply Bool.eqb_prop in Hh.
  - intros a Ha Hne.
    assert (Hh : holds (EqAuthorId a) r = true).
    { apply Hconds. rewrite conditions_parts, Ha. cbn [truthyOpt orElse].
      unfold truthyNat. apply Nat.eqb_neq in Hne. rewrite Hne. now left. }
    cbn [holds] in Hh. rewrite <- Hpost. now apply Nat.eqb_eq in Hh.
  - intros c Hc Hne e He.
    destruct (Hcats e He) as (row & Hrow & _ & Hcid).
    apply in_map_iff in Hrow. destruct Hrow as (r' & <- & Hr').
    destruct (page_rows _ _ _ _ _ Hr') as (_ & Hconds').
    assert (Hh : holds (EqCategoryId c) r' = true).
    { apply Hconds'. rewrite conditions_parts, Hc. cbn [truthyOpt orElse].
      unfold truthyNat. apply Nat.eqb_neq in Hne. rewrite Hne. cbn [negb].
      apply in_or_app. right. apply in_or_app. right. apply in_or_app. right.
      now left. }
    cbn [holds] in Hh. cbn [selectRow rowCategoryId] in Hcid.
    destruct (jPostCategory r') as [pc|]; [|discriminate Hh].
    cbn [option_map] in Hcid. injection Hcid as <-. now apply Nat.eqb_eq in Hh.
Qed.

(** X22: [PostQueries.getPostsWithDetails] returns at most [limit]
    records, one per post, each for a stored post, and lists no category
    twice in a record; the posts have the published flag and the author
    asked for, and with a category asked for, every category listed is
    that one. *)
Theorem getPostsWithDetails_records now db o :
  let records := getPostsWithDetails now db o in
  List.length records <= limit o
  /\ NoDup (map (fun d => Post.id (detailsPost d)) records)
  /\ forall d, In d records ->
       In (detailsPost d) (posts db)
       /\ distinctCategories d
       /\ (forall b, published o = Some b -> Post.published (detailsPost d) = b)
       /\ (forall a, authorId o = Some a -> a <> 0 ->
             Post.authorId (detailsPost d) = a)
       /\ (forall c, categoryId o = Some c -> c <> 0 ->
             forall e, In e (postCategories d) ->
               PostCategory.categoryId (junction e) = c).
Proof. exact (getPostsWithDetails_page now db o). Qed.

Lemma getPostsWithDetails_records_witness :
  map (fun d => Post.authorId (detailsPost d))
      (getPostsWithDetails 0 Sample.db (mkOptions 10 0 (Some 2) None None None))
  = [2]
  /\ Forall (fun d => Post.authorId (detailsPost d) = 2)
       (getPostsWithDetails 0 Sample.db (mkOptions 10 0 (Some 2) None None None)).
Proof.
  split; [reflexivity|]. apply Forall_forall. intros d Hd.
  destruct (getPostsWithDetails_records 0 Sample.db
              (mkOptions 10 0 (Some 2) None None None)) as (_ & _ & Hall).
  destruct (Hall d Hd) as (_ & _ & _ & Hauthor & _).
  apply (Hauthor 2 eq_refl). discriminate.
Defined.

Lemma groupRows_single now row :
  exists cats,
    groupRows now [row] = [mkDetails (rowPost row) (rowAuthor row) cats]
    /\ List.length cats <= 1.
Proof.
  unfold groupRows, JsMap.values, groupStep.
  cbn [fold_left JsMap.empty JsMap.has existsb negb JsMap.set app JsMap.get].
  rewrite Nat.eqb_refl.
  destruct (rowCategoryId row) as [categoryId|];
    [|exists []; split; [reflexivity|simpl; lia]].
  destruct (rowCategoryName row) as [categoryName|];
    [|exists []; split; [reflexivity|simpl; lia]].
  cbn [postCategories existsb negb].
  destruct (truthyNat categoryId && truthyString categoryName && true).
  - cbn [JsMap.modify]. rewrite Nat.eqb_refl. eexists. split; [reflexivity|].
    simpl. lia.
  - exists []. split; [reflexivity|simpl; lia].
Qed.

Lemma post_has_row db q : In q (posts db) -> exists r, In r (joinedRows db) /\ jPost r = q.
Proof.
  intros Hq. pose proof (leftJoinPost_nonempty db q) as Hne.
  destruct (leftJoinPost db q) as [|r l] eqn:E; [contradiction|].
  exists r. split.
  - unfold joinedRows. apply in_flat_map. exists q. split; [exact Hq|].
    rewrite E. now left.
  - apply (leftJoinPost_post db). rewrite E. now left.
Qed.

(** X23: [PostQueries.getPostBySlug] looks for the slug in a result of
    one row: it returns a post only if that post is the first in
    descending order of creation time, so none is newer, with at most one
    category, and then increments the post's view count; for a slug whose
    posts are all older than some post it returns null and changes
    nothing, although a post with the slug is stored. *)
Theorem getPostBySlug_only_newest now later db slug :
  (forall d db', getPostBySlug now later db slug = (Some d, db') ->
     Post.slug (detailsPost d) = slug
     /\ In (detailsPost d) (posts db)
     /\ (forall q, In q (posts db) ->
           Post.createdAt q <= Post.createdAt (detailsPost d))
     /\ List.length (postCategories d) <= 1
     /\ db' = incrementViewCount (Post.id (detailsPost d)) later db)
  /\ (forall q, In q (posts db) ->
        (forall p, In p (posts db) -> Post.slug p = slug ->
                   Post.createdAt p < Post.createdAt q) ->
        getPostBySlug now later db slug = (None, db)).
Proof.
  assert (Hsome : forall d db', getPostBySlug now later db slug = (Some d, db') ->
     Post.slug (detailsPost d) = slug
     /\ In (detailsPost d) (posts db)
     /\ (forall q, In q (posts db) ->
           Post.createdAt q <= Post.createdAt (detailsPost d))
     /\ List.length (postCategories d) <= 1
     /\ db' = incrementViewCount (Post.id (detailsPost d)) later db).
  { intros d db'. unfold getPostBySlug, getPostsWithDetails.
    cbn [conditions limit offset authorId categoryId published search truthyOpt].
    unfold where_, limitOffset. cbn [forallb skipn].
    rewrite (filter_all (fun _ => true)) by reflexivity.
    pose proof (orderByCreatedAtDesc_sorted (joinedRows db)) as Hsorted.
    pose proof (orderByCreatedAtDesc_perm (joinedRows db)) as Hperm.
    destruct (orderByCreatedAtDesc (joinedRows db)) as [|r rest];
      [cbn; discriminate|].
    cbn [firstn map]. destruct (groupRows_single now (selectRow db r)) as (cats & -> & Hlen).
    cbn [find detailsPost selectRow rowPost].
    destruct (String.eqb (Post.slug (jPost r)) slug) eqn:E; [|discriminate].
    intros H. injection H as <- <-. cbn [detailsPost postCategories].
    apply String.eqb_eq in E. split; [exact E|]. split.
    { apply joinedRows_post. apply (Permutation_in _ Hperm). now left. }
    split; [|split; [exact Hlen|reflexivity]].
    intros q Hq. destruct (post_has_row db q Hq) as (r' & Hr' & <-).
    apply (Permutation_in _ (Permutation_sym Hperm)) in Hr'.
    cbn [map] in Hsorted. apply StronglySorted_inv in Hsorted.
    destruct Hsorted as [_ Hall]. destruct Hr' as [->|Hr']; [lia|].
    exact (proj1 (Forall_forall _ _) Hall _ (in_map jPost _ _ Hr')). }
  split; [exact Hsome|].
  intros q Hq Holder.
  destruct (getPostBySlug now later db slug) as [[d|] db'] eqn:Hget.
  - destruct (Hsome d db' eq_refl) as (Hslug & Hin & Hnewest & _).
    specialize (Holder _ Hin Hslug). specialize (Hnewest q Hq). lia.
  - unfold getPostBySlug in Hget.
    destruct (find _ _); [discriminate|]. now injection Hget as <-.
Qed.

Lemma getPostBySlug_only_newest_witness :
  In Sample.firstPost (posts Sample.db)
  /\ getPostBySlug 30 31 Sample.db "my-first-post" = (None, Sample.db).
Proof.
  split; [now left|].
  apply (proj2 (getPostBySlug_only_newest 30 31 Sample.db "my-first-post")
           Sample.sameTitle).
  - right. now left.
  - intros p [<-|[<-|[]]] Hslug; [simpl; lia|discriminate Hslug].
Defined.

End GroupInvariant.

Section CategoryQueriesFacts.
Import Storage TRPC.



End CategoryQueriesFacts.

(* ===================================================================== *)
(** ** The tag router *)
(* ===================================================================== *)

Section TagFacts.
Import Storage TagStorage Validations TRPC.

Lemma tagSlug_slug name : TagRouter.tagSlug name = SlugSpec.slug name.
Proof.
  unfold TagRouter.tagSlug, SlugSpec.slug, Utils.replaceNonAlnum.
  rewrite collapseRuns_replaceRuns.
  generalize (Utils.replaceRuns false (Utils.toLowerCase name)). intros s.
  assert (Hlead : forall t, TagRouter.dropLeadingHyphens t
                            = SlugSpec.trimLeadingHyphens t).
  { induction t as [|c t IH]; [reflexivity|]. simpl. now rewrite IH. }
  assert (Htrail : forall t, TagRouter.dropTrailingHyphens t
                             = SlugSpec.trimTrailingHyphens t).
  { induction t as [|c t IH]; [reflexivity|]. simpl. now rewrite IH. }
  now rewrite Hlead, Htrail.
Qed.

Lemma tagSlug_same name : TagRouter.tagSlug name = Utils.generateSlug name.
Proof. now rewrite tagSlug_slug, generateSlug_slug. Qed.

(** X25: the slug the tag router computes from a name, with its own
    chain of replacements and without trimming, is the slug
    [generateSlug] computes from it, for every name. *)
Theorem tagSlug_generateSlug (name : string) :
  TagRouter.tagSlug name = Utils.generateSlug name.
Proof. exact (tagSlug_same name). Qed.

Lemma In_orderByUsageCountDesc t rows :
  In t (orderByUsageCountDesc rows) -> In t rows.
Proof.
  assert (Hins : forall x l, In t (insertByUsageCountDesc x l) -> t = x \/ In t l).
  { intros x l. induction l as [|y l IH]; simpl.
    - intros [<-|[]]. now left.
    - destruct (Tag.usageCount y <=? Tag.usageCount x); simpl.
      + intros [<-|[<-|H]]; auto.
      + intros [<-|H]; auto. destruct (IH H); auto. }
  induction rows as [|x rows IH]; [intros []|]. simpl. intros H.
  destruct (Hins _ _ H) as [->|H']; [now left|right; now apply IH].
Qed.

(** X26: [tag.getPopular], the "most used" tags, returns only tags whose
    usage count is 0, at most [limit] of them and never more than 50: a
    tag that is in use is never among them. *)
Theorem getPopular_only_unused db request popular :
  TagRouter.getPopular db request = Ok popular ->
  List.length popular <= default 10 request
  /\ default 10 request <= 50
  /\ (forall p, In p popular ->
        TagRouter.popularUsageCount p = 0
        /\ exists t, In t (tags db) /\ p = TagRouter.selectPopular t)
  /\ forall t, In t (tags db) -> Tag.usageCount t <> 0 ->
       ~ In (TagRouter.selectPopular t) popular.
Proof.
  unfold TagRouter.getPopular, publicProcedure, TagRouter.popularSchema.
  destruct ((1 <=? default 10 request) && (default 10 request <=? 50)) eqn:E;
    [|discriminate].
  apply andb_prop in E. destruct E as [_ E]. apply Nat.leb_le in E.
  unfold TagRouter.getPopularHandler. intros H. injection H as <-.
  assert (Hall : forall p,
             In p (map TagRouter.selectPopular
                     (firstn (default 10 request)
                        (orderByUsageCountDesc
                           (filter (fun t => Tag.usageCount t =? 0) (tags db))))) ->
             TagRouter.popularUsageCount p = 0
             /\ exists t, In t (tags db) /\ p = TagRouter.selectPopular t).
  { intros p Hp. apply in_map_iff in Hp. destruct Hp as (t & <- & Ht).
    apply In_firstn, In_orderByUsageCountDesc, filter_In in Ht.
    destruct Ht as [Ht Hz]. apply Nat.eqb_eq in Hz.
    split; [exact Hz|]. now exists t. }
  split; [rewrite length_map; apply firstn_le_length|].
  split; [exact E|]. split; [exact Hall|].
  intros t _ Hne Hin. destruct (Hall _ Hin) as [Hz _]. now apply Hne.
Qed.

Lemma getPopular_only_unused_witness :
  TagRouter.getPopular
    (mkTagDB [Tag.mk 1 "rocq" "rocq" None None 7 0 0;
              Tag.mk 2 "draft" "draft" None None 0 0 0] [] 2) None
  = Ok [TagRouter.mkPopularTag 2 "draft" "draft" None 0]
  /\ Forall (fun p => TagRouter.popularUsageCount p = 0)
       [TagRouter.mkPopularTag 2 "draft" "draft" None 0].
Proof.
  split; [reflexivity|]. apply Forall_forall. intros p Hp.
  exact (proj1 (proj1 (proj2 (proj2
           (getPopular_only_unused
              (mkTagDB [Tag.mk 1 "rocq" "rocq" None None 7 0 0;
                        Tag.mk 2 "draft" "draft" None None 0 0 0] [] 2)
              None _ eq_refl))) p Hp)).
Defined.


Lemma isHexColor_length c : isHexColor c = true -> String.length c = 7.
Proof.
  destruct c as [|h digits]; [discriminate|]. unfold isHexColor.
  intros H. apply andb_prop in H. destruct H as [H _].
  apply andb_prop in H. destruct H as [_ H]. apply Nat.eqb_eq in H.
  simpl. now rewrite H.
Qed.





Lemma updateTagSchema_Some request input :
  TagRouter.updateTagSchema request = Some input ->
  TagRouter.updTagId input = TagRouter.updTagId request
  /\ TagRouter.updTagName input
     = option_map Utils.trim (TagRouter.updTagName request).
Proof.
  unfold TagRouter.updateTagSchema. destruct (_ && _); [|discriminate].
  intros H. injection H as <-. now split.
Qed.

(** With distinct ids, no row has the id of a tag and another name. *)
Lemma nameConflict_empty db existing rest n :
  NoDup (map Tag.id (tags db)) ->
  filter (fun t => Tag.id t =? Tag.id existing) (tags db) = existing :: rest ->
  String.eqb n (Tag.name existing) = false ->
  filter (fun t => String.eqb (Tag.name t) n && (Tag.id t =? Tag.id existing))
         (tags db) = [].
Proof.
  intros Hnd Hf Hne. apply filter_none. intros t Ht.
  apply not_true_is_false. intros E. apply andb_prop in E. destruct E as [En Ei].
  apply String.eqb_eq in En. apply Nat.eqb_eq in Ei.
  assert (Hin : In existing (tags db)).
  { assert (H : In existing (filter (fun t => Tag.id t =? Tag.id existing) (tags db)))
      by (rewrite Hf; now left).
    now apply filter_In in H. }
  assert (t = existing) as ->
    by (apply (NoDup_map_injective Tag.id (tags db)); assumption).
  rewrite En, String.eqb_refl in Hne. discriminate Hne.
Qed.

Lemma first_of_filter {A : Type} (f : A -> bool) l x rest :
  firstn 1 (filter f l) = x :: rest ->
  exists rest', filter f l = x :: rest'.
Proof.
  destruct (filter f l) as [|y l']; [discriminate|]. cbn [firstn].
  intros H. injection H as -> _. now exists l'.
Qed.

(** What the checks of a passing [UPDATE] say of a rewritten tag. *)
Lemma updateTagById_checks i patch db hits db1 t :
  updateTagById i patch db = Done (hits, db1) ->
  In t (tags db) -> Tag.id t = i ->
  forall q, In q (tags db) -> Tag.id q <> i ->
            Tag.name q <> Tag.name (applyTagPatch patch t).
Proof.
  unfold updateTagById. destruct (firstViolation _) eqn:Hv; [discriminate|].
  intros _ Hin Hid q Hq Hqid Hname. apply firstViolation_None in Hv.
  assert (Hrow : Forall (fun c => fst c = true)
                   (tagRowChecks (filter (fun t => negb (Tag.id t =? i)) (tags db))
                                 (applyTagPatch patch t))).
  { apply Forall_forall. intros k Hk.
    apply (proj1 (Forall_forall _ _) Hv). apply in_flat_map.
    exists (applyTagPatch patch t). split; [|exact Hk].
    apply in_map, filter_In. split; [exact Hin|now apply Nat.eqb_eq]. }
  unfold tagRowChecks in Hrow.
  repeat match goal with
         | F : Forall _ (_ :: _) |- _ =>
             let H1 := fresh "Hck" in
             apply Forall_cons_iff in F; destruct F as [H1 F]; cbn [fst] in H1
         end.
  repeat match goal with
         | H : negb _ = true |- _ => apply negb_true_iff in H
         end.
  assert (Hex : existsb (fun q => String.eqb (Tag.name q)
                                    (Tag.name (applyTagPatch patch t)))
                        (filter (fun t => negb (Tag.id t =? i)) (tags db)) = true).
  { apply existsb_exists. exists q. split.
    - apply filter_In. split; [exact Hq|]. apply negb_true_iff.
      now apply Nat.eqb_neq.
    - now apply String.eqb_eq. }
  congruence.
Qed.

(** X28: while tag ids are distinct, [tag.update] never answers with a
    conflict: the query it runs before renaming a tag asks for a row
    with the new name and the id of the tag itself, and there is none.
    Renaming a tag to the name of another tag is stopped by the unique
    index only, and answered with the internal error. *)
Theorem tag_update_no_conflict now db ctx request :
  NoDup (map Tag.id (tags db)) ->
  match fst (TagRouter.update now db ctx request) with
  | Ok _ => true
  | Err e => negb (isConflict e)
  end = true
  /\ forall input existing other n,
       isSignedIn ctx = true ->
       TagRouter.updateTagSchema request = Some input ->
       In existing (tags db) -> Tag.id existing = TagRouter.updTagId request ->
       TagRouter.updTagName input = Some n ->
       n <> "" -> n <> Tag.name existing ->
       In other (tags db) -> Tag.id other <> TagRouter.updTagId request ->
       Tag.name other = n ->
       TagRouter.update now db ctx request
       = (Err (Thrown INTERNAL_SERVER_ERROR "Failed to update tag"), db).
Proof.
  intros Hnd.
  assert (Hhandler : forall input,
             exists renamed,
               TagRouter.updateHandler now db ctx input
               = match firstn 1 (filter (fun t => Tag.id t =? TagRouter.updTagId input)
                                        (tags db)) with
                 | [] => (Err (Thrown NOT_FOUND "Tag not found"), db)
                 | existing :: _ =>
                     match updateTagById (TagRouter.updTagId input)
                             (mkTagPatch (TagRouter.updTagName input)
                                (option_map TagRouter.tagSlug (renamed existing))
                                (TagRouter.updTagDescription input)
                                (TagRouter.updTagColor input) now) db with
                     | Raised _ =>
                         (Err (Thrown INTERNAL_SERVER_ERROR "Failed to update tag"), db)
                     | Done ([], db1) =>
                         (Err (Thrown INTERNAL_SERVER_ERROR "Failed to update tag"), db1)
                     | Done (updatedTag :: _, db1) => (Ok updatedTag, db1)
                     end
                 end
               /\ forall existing n,
                    TagRouter.updTagName input = Some n ->
                    n <> "" -> n <> Tag.name existing ->
                    renamed existing = Some n).
  { intros input.
    exists (fun existing =>
              match TagRouter.updTagName input with
              | Some n =>
                  if truthyString n && negb (String.eqb n (Tag.name existing))
                  then Some n else None
              | None => None
              end).
    split.
    - unfold TagRouter.updateHandler.
      destruct (firstn 1 (filter (fun t => Tag.id t =? TagRouter.updTagId input)
                                 (tags db))) as [|existing rest] eqn:Hf;
        [reflexivity|].
      destruct (first_of_filter _ _ _ _ Hf) as (rest' & Hf').
      assert (Hid : Tag.id existing = TagRouter.updTagId input).
      { assert (H : In existing (filter (fun t => Tag.id t =? TagRouter.updTagId input)
                                        (tags db))) by (rewrite Hf'; now left).
        apply filter_In in H. destruct H as [_ H]. now apply Nat.eqb_eq in H. }
      destruct (TagRouter.updTagName input) as [n|]; [|reflexivity].
      destruct (truthyString n && negb (String.eqb n (Tag.name existing))) eqn:Hren;
        [|reflexivity].
      apply andb_prop in Hren. destruct Hren as [_ Hren].
      apply negb_true_iff in Hren. rewrite <- Hid in Hf' |- *.
      now rewrite (nameConflict_empty db existing rest' n Hnd Hf' Hren).
    - intros existing n Hn Hne Hdiff. rewrite Hn.
      destruct n as [|c n]; [now contradiction Hne|].
      cbn [truthyString Utils.isEmpty negb andb].
      apply String.eqb_neq in Hdiff. now rewrite Hdiff. }
  split.
  - unfold TagRouter.update.
    destruct (protectedProcedure_cases TagRouter.updateTagSchema
                (TagRouter.updateHandler now db) (fun e => (Err e, db)) ctx request)
      as [(input & _ & _ & ->)|(e & [->|[text ->]] & ->)]; try reflexivity.
    destruct (Hhandler input) as (renamed & -> & _).
    destruct (firstn 1 _) as [|existing rest]; [reflexivity|].
    destruct (updateTagById _ _ _) as [[[|t l] db1]|]; reflexivity.
  - intros input existing other n Hctx Hs Hex Hexid Hn Hne Hdiff Hother Hoid Honame.
    destruct (updateTagSchema_Some _ _ Hs) as (Hid & _).
    unfold TagRouter.update. rewrite (protectedProcedure_signedIn _ _ _ _ _ Hctx).
    unfold publicProcedure. rewrite Hs.
    destruct (Hhandler input) as (renamed & -> & Hren). rewrite Hid.
    destruct (firstn 1 (filter (fun t => Tag.id t =? TagRouter.updTagId request)
                               (tags db))) as [|existing' rest] eqn:Hf.
    + exfalso.
      assert (H : In existing (filter (fun t => Tag.id t =? TagRouter.updTagId request)
                                      (tags db)))
        by (apply filter_In; split; [exact Hex|now apply Nat.eqb_eq]).
      destruct (filter (fun t => Tag.id t =? TagRouter.updTagId request) (tags db));
        [destruct H|discriminate Hf].
    + destruct (updateTagById _ _ _) as [[hits db1]|] eqn:Hu; [|reflexivity].
      exfalso.
      apply (updateTagById_checks _ _ _ _ _ existing Hu Hex Hexid other Hother Hoid).
      unfold applyTagPatch. cbn [Tag.name setTagName]. rewrite Hn. exact Honame.
Qed.

Lemma tag_update_no_conflict_witness :
  TagRouter.update 40
    (mkTagDB [Tag.mk 1 "rocq" "rocq" None None 0 0 0;
              Tag.mk 2 "proofs" "proofs" None None 0 0 0] [] 2)
    Sample.signedIn (TagRouter.mkUpdateTag 2 (Some "rocq") None None)
  = (Err (Thrown INTERNAL_SERVER_ERROR "Failed to update tag"),
     mkTagDB [Tag.mk 1 "rocq" "rocq" None None 0 0 0;
              Tag.mk 2 "proofs" "proofs" None None 0 0 0] [] 2).
Proof.
  apply (proj2 (tag_update_no_conflict 40
                  (mkTagDB [Tag.mk 1 "rocq" "rocq" None None 0 0 0;
                            Tag.mk 2 "proofs" "proofs" None None 0 0 0] [] 2)
                  Sample.signedIn (TagRouter.mkUpdateTag 2 (Some "rocq") None None)
                  ltac:(repeat constructor; simpl; intuition discriminate))
           (TagRouter.mkUpdateTag 2 (Some "rocq") None None)
           (Tag.mk 2 "proofs" "proofs" None None 0 0 0)
           (Tag.mk 1 "rocq" "rocq" None None 0 0 0) "rocq");
    try reflexivity; try discriminate.
  - right. now left.
  - now left.
Defined.

Lemma published_match_once posts k :
  NoDup (map Post.id posts) ->
  List.length (filter (fun p => (k =? Post.id p) && Bool.eqb (Post.published p) true)
                      posts) <= 1.
Proof.
  induction posts as [|p posts IH]; [simpl; lia|]. cbn [map filter]. intros Hnd.
  inversion Hnd as [|? ? Hfresh Hnd']; subst. specialize (IH Hnd').
  destruct (k =? Post.id p) eqn:E; cbn [andb]; [|exact IH].
  apply Nat.eqb_eq in E.
  assert (Hnone : filter (fun p => (k =? Post.id p) && Bool.eqb (Post.published p) true)
                         posts = []).
  { apply filter_none. intros q Hq. apply andb_false_iff. left.
    apply Nat.eqb_neq. intros E'. apply Hfresh. rewrite <- E, E'. now apply in_map. }
  rewrite Hnone. destruct (Bool.eqb (Post.published p) true); simpl; lia.
Qed.

Lemma leftJoinPublishedPost_one posts r :
  NoDup (map Post.id posts) ->
  List.length (leftJoinPublishedPost posts r) = 1.
Proof.
  intros Hnd. unfold leftJoinPublishedPost.
  pose proof (published_match_once posts (PostTag.postId r) Hnd) as Hle.
  destruct (filter _ posts) as [|p [|p' l]]; [reflexivity|reflexivity|].
  simpl in Hle. lia.
Qed.

(** X29: the post count [tag.getBySlug] returns with a tag is the number
    of junction rows of the tag: the join condition on the published
    flag is part of a left join, which keeps the junction rows it does
    not match, so posts that are not published are counted too. *)
Theorem tag_postCount_counts_all posts db slug r :
  NoDup (map Post.id posts) ->
  TagRouter.getBySlug posts db (TagRouter.mkGetTag slug (Some true)) = Ok r ->
  In (TagRouter.tag r) (tags db)
  /\ Tag.slug (TagRouter.tag r) = slug
  /\ TagRouter.postCount r
     = Some (List.length
               (filter (fun x => PostTag.tagId x =? Tag.id (TagRouter.tag r))
                       (postTags db))).
Proof.
  intros Hnd. unfold TagRouter.getBySlug, publicProcedure, TagRouter.getTagSchema.
  cbn [TagRouter.getSlug TagRouter.includePostCount default].
  destruct (1 <=? String.length slug); [|discriminate].
  unfold TagRouter.getBySlugHandler. cbn [fst snd].
  destruct (firstn 1 (filter (fun t => String.eqb (Tag.slug t) slug) (tags db)))
    as [|t rest] eqn:Hf; [discriminate|].
  destruct (first_of_filter _ _ _ _ Hf) as (rest' & Hf').
  assert (Ht : In t (tags db) /\ Tag.slug t = slug).
  { assert (H : In t (filter (fun t => String.eqb (Tag.slug t) slug) (tags db)))
      by (rewrite Hf'; now left).
    apply filter_In in H. destruct H as [H E]. apply String.eqb_eq in E. now split. }
  intros H. injection H as <-. cbn [TagRouter.tag TagRouter.postCount].
  split; [exact (proj1 Ht)|]. split; [exact (proj2 Ht)|]. f_equal.
  induction (filter (fun x => PostTag.tagId x =? Tag.id t) (postTags db))
    as [|x l IH]; [reflexivity|].
  cbn [flat_map]. rewrite length_app, IH, (leftJoinPublishedPost_one _ _ Hnd).
  reflexivity.
Qed.

Lemma tag_postCount_counts_all_witness :
  Post.published Sample.firstPost = false
  /\ exists r,
       TagRouter.getBySlug (posts Sample.db)
         (mkTagDB [Tag.mk 1 "rocq" "rocq" None None 0 0 0]
                  [PostTag.mk 1 1 1 0; PostTag.mk 2 2 1 0] 1)
         (TagRouter.mkGetTag "rocq" (Some true)) = Ok r
       /\ TagRouter.postCount r = Some 2.
Proof.
  split; [reflexivity|]. eexists. split; [reflexivity|].
  exact (proj2 (proj2 (tag_postCount_counts_all (posts Sample.db)
                         (mkTagDB [Tag.mk 1 "rocq" "rocq" None None 0 0 0]
                                  [PostTag.mk 1 1 1 0; PostTag.mk 2 2 1 0] 1)
                         "rocq" _
                         ltac:(repeat constructor; simpl; intuition discriminate)
                         eq_refl))).
Defined.



End TagFacts.
